(** * The IO queue of the quantum dispatcher

    A shallow embedding of [quantum/impl/quantum_io_queue_impl.h]: the
    task list of an [IoQueue] with its statistics and flags, the polling
    backoff, the two work-selection policies with the spinlocks they take,
    the worker loop and termination.

    Threads are not modelled as such.  One dedicated worker ([this]) is
    followed through its calls; what other threads do to it is visible
    only as spinlocks found busy by [try_lock]. *)

From Stdlib Require Import ZArith List Bool Lia.
From stdpp Require Import base list.
Import ListNotations.
Local Open Scope Z_scope.

(** ** Fixed-width integers *)

(** [size_t] is 64 bits wide, and [std::chrono::milliseconds] counts in a
    signed 64-bit integer. *)
Definition to_size_t (z : Z) : Z := z mod 2 ^ 64.

Definition to_int64 (z : Z) : Z :=
  let u := z mod 2 ^ 64 in
  if u <? 2 ^ 63 then u else u - 2 ^ 64.

(** [static_cast<size_t>(std::exp2(n))]: the power of two is exact in a
    double; the conversion to [size_t] is defined only while the value
    fits, that is for [n < 64]. *)
Definition exp2_size_t (n : Z) : option Z :=
  if n <? 64 then Some (2 ^ n) else None.

(** ** Tasks *)

(** What calling the bound function of a task does: it returns a status
    code or lets an exception escape. *)
Inductive RunOutcome : Type :=
| Returns (rc : Z)
| Throws.

Record IoTask : Type := {
  _func : RunOutcome;
  _queueId : Z;
  _isHighPriority : bool
}.

(** Modelled from the spec: [IoTask::run], [IoTask::getQueueId] and
    [IoTask::isHighPriority] are defined in quantum_io_task_impl.h, which is
    not part of the sources at hand; a task is a function producing an
    integer status code, a queue id and a high-priority flag. *)
Definition IoTask_run (t : IoTask) : RunOutcome := _func t.
Definition getQueueId (t : IoTask) : Z := _queueId t.
Definition isHighPriority (t : IoTask) : bool := _isHighPriority t.

(** Modelled from the spec: [Task::Status::Success] is status code 0 and
    [Queue::Id::Any] is the sentinel of the shared queues, which is no
    worker index; both enumerations are declared in absent headers. *)
Definition Status_Success : Z := 0.
Definition Queue_Id_Any : Z := -1.

(** ** Statistics *)

(** Modelled from the spec: [IoQueueStatistics] is an absent class of
    counters: posted, completed, errored, high priority, the two counts
    of shared-queue tasks and the number of elements. *)
Record IoQueueStatistics : Type := {
  postedCount : Z;
  highPriorityCount : Z;
  numElements : Z;
  completedCount : Z;
  sharedQueueCompletedCount : Z;
  errorCount : Z;
  sharedQueueErrorCount : Z
}.

Definition stats_zero : IoQueueStatistics :=
  {| postedCount := 0; highPriorityCount := 0; numElements := 0;
     completedCount := 0; sharedQueueCompletedCount := 0;
     errorCount := 0; sharedQueueErrorCount := 0 |}.

Definition incPostedCount (s : IoQueueStatistics) : IoQueueStatistics :=
  {| postedCount := postedCount s + 1;
     highPriorityCount := highPriorityCount s;
     numElements := numElements s;
     completedCount := completedCount s;
     sharedQueueCompletedCount := sharedQueueCompletedCount s;
     errorCount := errorCount s;
     sharedQueueErrorCount := sharedQueueErrorCount s |}.

Definition incHighPriorityCount (s : IoQueueStatistics) : IoQueueStatistics :=
  {| postedCount := postedCount s;
     highPriorityCount := highPriorityCount s + 1;
     numElements := numElements s;
     completedCount := completedCount s;
     sharedQueueCompletedCount := sharedQueueCompletedCount s;
     errorCount := errorCount s;
     sharedQueueErrorCount := sharedQueueErrorCount s |}.

Definition addNumElements (d : Z) (s : IoQueueStatistics) : IoQueueStatistics :=
  {| postedCount := postedCount s;
     highPriorityCount := highPriorityCount s;
     numElements := numElements s + d;
     completedCount := completedCount s;
     sharedQueueCompletedCount := sharedQueueCompletedCount s;
     errorCount := errorCount s;
     sharedQueueErrorCount := sharedQueueErrorCount s |}.

Definition incNumElements : IoQueueStatistics -> IoQueueStatistics :=
  addNumElements 1.
Definition decNumElements : IoQueueStatistics -> IoQueueStatistics :=
  addNumElements (-1).

Definition incCompletedCount (s : IoQueueStatistics) : IoQueueStatistics :=
  {| postedCount := postedCount s;
     highPriorityCount := highPriorityCount s;
     numElements := numElements s;
     completedCount := completedCount s + 1;
     sharedQueueCompletedCount := sharedQueueCompletedCount s;
     errorCount := errorCount s;
     sharedQueueErrorCount := sharedQueueErrorCount s |}.

Definition incSharedQueueCompletedCount (s : IoQueueStatistics)
  : IoQueueStatistics :=
  {| postedCount := postedCount s;
     highPriorityCount := highPriorityCount s;
     numElements := numElements s;
     completedCount := completedCount s;
     sharedQueueCompletedCount := sharedQueueCompletedCount s + 1;
     errorCount := errorCount s;
     sharedQueueErrorCount := sharedQueueErrorCount s |}.

Definition incErrorCount (s : IoQueueStatistics) : IoQueueStatistics :=
  {| postedCount := postedCount s;
     highPriorityCount := highPriorityCount s;
     numElements := numElements s;
     completedCount := completedCount s;
     sharedQueueCompletedCount := sharedQueueCompletedCount s;
     errorCount := errorCount s + 1;
     sharedQueueErrorCount := sharedQueueErrorCount s |}.

Definition incSharedQueueErrorCount (s : IoQueueStatistics)
  : IoQueueStatistics :=
  {| postedCount := postedCount s;
     highPriorityCount := highPriorityCount s;
     numElements := numElements s;
     completedCount := completedCount s;
     sharedQueueCompletedCount := sharedQueueCompletedCount s;
     errorCount := errorCount s;
     sharedQueueErrorCount := sharedQueueErrorCount s + 1 |}.

(** ** The queue object *)

Inductive BackoffPolicy : Type := Linear | Exponential.

(** The four settings the constructor reads from [Configuration]. *)
Record Configuration : Type := {
  getLoadBalanceSharedIoQueues : bool;
  getLoadBalancePollIntervalMs : Z;
  getLoadBalancePollIntervalBackoffPolicy : BackoffPolicy;
  getLoadBalancePollIntervalNumBackoffs : Z
}.

(** [std::vector<IoQueue>*]: null, or the address of the one vector of
    shared queues, whose contents are kept in the pool below. *)
Inductive SharedPtr : Type := nullptr | sharedVector.

Record IoQueue : Type := {
  _sharedIoQueues : SharedPtr;
  _loadBalanceSharedIoQueues : bool;
  _loadBalancePollIntervalMs : Z;
  _loadBalancePollIntervalBackoffPolicy : BackoffPolicy;
  _loadBalancePollIntervalNumBackoffs : Z;
  _loadBalanceBackoffNum : Z;
  _thread : bool;               (* a thread object exists *)
  _queue : list IoTask;
  _isEmpty : bool;
  _isInterrupted : bool;
  _isIdle : bool;
  _terminated : bool;
  _stats : IoQueueStatistics
}.

Definition set_loadBalanceBackoffNum (n : Z) (q : IoQueue) : IoQueue :=
  {| _sharedIoQueues := _sharedIoQueues q;
     _loadBalanceSharedIoQueues := _loadBalanceSharedIoQueues q;
     _loadBalancePollIntervalMs := _loadBalancePollIntervalMs q;
     _loadBalancePollIntervalBackoffPolicy :=
       _loadBalancePollIntervalBackoffPolicy q;
     _loadBalancePollIntervalNumBackoffs :=
       _loadBalancePollIntervalNumBackoffs q;
     _loadBalanceBackoffNum := n;
     _thread := _thread q;
     _queue := _queue q;
     _isEmpty := _isEmpty q;
     _isInterrupted := _isInterrupted q;
     _isIdle := _isIdle q;
     _terminated := _terminated q;
     _stats := _stats q |}.

Definition set_queue (l : list IoTask) (q : IoQueue) : IoQueue :=
  {| _sharedIoQueues := _sharedIoQueues q;
     _loadBalanceSharedIoQueues := _loadBalanceSharedIoQueues q;
     _loadBalancePollIntervalMs := _loadBalancePollIntervalMs q;
     _loadBalancePollIntervalBackoffPolicy :=
       _loadBalancePollIntervalBackoffPolicy q;
     _loadBalancePollIntervalNumBackoffs :=
       _loadBalancePollIntervalNumBackoffs q;
     _loadBalanceBackoffNum := _loadBalanceBackoffNum q;
     _thread := _thread q;
     _queue := l;
     _isEmpty := _isEmpty q;
     _isInterrupted := _isInterrupted q;
     _isIdle := _isIdle q;
     _terminated := _terminated q;
     _stats := _stats q |}.

Definition set_isEmpty (b : bool) (q : IoQueue) : IoQueue :=
  {| _sharedIoQueues := _sharedIoQueues q;
     _loadBalanceSharedIoQueues := _loadBalanceSharedIoQueues q;
     _loadBalancePollIntervalMs := _loadBalancePollIntervalMs q;
     _loadBalancePollIntervalBackoffPolicy :=
       _loadBalancePollIntervalBackoffPolicy q;
     _loadBalancePollIntervalNumBackoffs :=
       _loadBalancePollIntervalNumBackoffs q;
     _loadBalanceBackoffNum := _loadBalanceBackoffNum q;
     _thread := _thread q;
     _queue := _queue q;
     _isEmpty := b;
     _isInterrupted := _isInterrupted q;
     _isIdle := _isIdle q;
     _terminated := _terminated q;
     _stats := _stats q |}.

Definition set_isInterrupted (b : bool) (q : IoQueue) : IoQueue :=
  {| _sharedIoQueues := _sharedIoQueues q;
     _loadBalanceSharedIoQueues := _loadBalanceSharedIoQueues q;
     _loadBalancePollIntervalMs := _loadBalancePollIntervalMs q;
     _loadBalancePollIntervalBackoffPolicy :=
       _loadBalancePollIntervalBackoffPolicy q;
     _loadBalancePollIntervalNumBackoffs :=
       _loadBalancePollIntervalNumBackoffs q;
     _loadBalanceBackoffNum := _loadBalanceBackoffNum q;
     _thread := _thread q;
     _queue := _queue q;
     _isEmpty := _isEmpty q;
     _isInterrupted := b;
     _isIdle := _isIdle q;
     _terminated := _terminated q;
     _stats := _stats q |}.

Definition set_isIdle (b : bool) (q : IoQueue) : IoQueue :=
  {| _sharedIoQueues := _sharedIoQueues q;
     _loadBalanceSharedIoQueues := _loadBalanceSharedIoQueues q;
     _loadBalancePollIntervalMs := _loadBalancePollIntervalMs q;
     _loadBalancePollIntervalBackoffPolicy :=
       _loadBalancePollIntervalBackoffPolicy q;
     _loadBalancePollIntervalNumBackoffs :=
       _loadBalancePollIntervalNumBackoffs q;
     _loadBalanceBackoffNum := _loadBalanceBackoffNum q;
     _thread := _thread q;
     _queue := _queue q;
     _isEmpty := _isEmpty q;
     _isInterrupted := _isInterrupted q;
     _isIdle := b;
     _terminated := _terminated q;
     _stats := _stats q |}.

Definition set_terminated (b : bool) (q : IoQueue) : IoQueue :=
  {| _sharedIoQueues := _sharedIoQueues q;
     _loadBalanceSharedIoQueues := _loadBalanceSharedIoQueues q;
     _loadBalancePollIntervalMs := _loadBalancePollIntervalMs q;
     _loadBalancePollIntervalBackoffPolicy :=
       _loadBalancePollIntervalBackoffPolicy q;
     _loadBalancePollIntervalNumBackoffs :=
       _loadBalancePollIntervalNumBackoffs q;
     _loadBalanceBackoffNum := _loadBalanceBackoffNum q;
     _thread := _thread q;
     _queue := _queue q;
     _isEmpty := _isEmpty q;
     _isInterrupted := _isInterrupted q;
     _isIdle := _isIdle q;
     _terminated := b;
     _stats := _stats q |}.

Definition set_stats (s : IoQueueStatistics) (q : IoQueue) : IoQueue :=
  {| _sharedIoQueues := _sharedIoQueues q;
     _loadBalanceSharedIoQueues := _loadBalanceSharedIoQueues q;
     _loadBalancePollIntervalMs := _loadBalancePollIntervalMs q;
     _loadBalancePollIntervalBackoffPolicy :=
       _loadBalancePollIntervalBackoffPolicy q;
     _loadBalancePollIntervalNumBackoffs :=
       _loadBalancePollIntervalNumBackoffs q;
     _loadBalanceBackoffNum := _loadBalanceBackoffNum q;
     _thread := _thread q;
     _queue := _queue q;
     _isEmpty := _isEmpty q;
     _isInterrupted := _isInterrupted q;
     _isIdle := _isIdle q;
     _terminated := _terminated q;
     _stats := s |}.

(** [IoQueue::IoQueue(config, sharedIoQueues)]: the thread is made only
    when a set of shared queues is given. *)
Definition IoQueue_new (config : Configuration) (sharedIoQueues : SharedPtr)
  : IoQueue :=
  {| _sharedIoQueues := sharedIoQueues;
     _loadBalanceSharedIoQueues := getLoadBalanceSharedIoQueues config;
     _loadBalancePollIntervalMs := getLoadBalancePollIntervalMs config;
     _loadBalancePollIntervalBackoffPolicy :=
       getLoadBalancePollIntervalBackoffPolicy config;
     _loadBalancePollIntervalNumBackoffs :=
       getLoadBalancePollIntervalNumBackoffs config;
     _loadBalanceBackoffNum := 0;
     _thread := match sharedIoQueues with
                | nullptr => false
                | sharedVector => true
                end;
     _queue := [];
     _isEmpty := true;
     _isInterrupted := false;
     _isIdle := true;
     _terminated := false;
     _stats := stats_zero |}.

(** [std::list::empty] and [std::list::size]. *)
Definition list_empty {A : Type} (l : list A) : bool :=
  match l with
  | [] => true
  | _ :: _ => false
  end.

(** [IoQueue::signalEmptyCondition]: the flag is written under the mutex;
    the notification has no state of its own. *)
Definition signalEmptyCondition (value : bool) (q : IoQueue) : IoQueue :=
  set_isEmpty value q.

(** [IoQueue::doEnqueue]. *)
Definition doEnqueue (task : IoTask) (q : IoQueue) : IoQueue :=
  let isEmpty := list_empty (_queue q) in
  let q1 :=
    if isHighPriority task
    then set_queue (task :: _queue q)
           (set_stats (incHighPriorityCount (_stats q)) q)
    else set_queue (_queue q ++ [task]) q in
  let q2 := set_stats (incNumElements (incPostedCount (_stats q1))) q1 in
  if negb (_loadBalanceSharedIoQueues q2) && isEmpty
  then signalEmptyCondition false q2
  else q2.

(** [IoQueue::doDequeue]: the first component is the value written to
    [hint], which the function assigns on every path. *)
Definition doDequeue (q : IoQueue) : bool * option IoTask * IoQueue :=
  let hint := list_empty (_queue q) in
  if negb hint
  then match _queue q with
       | task :: rest =>
           (hint, Some task,
            set_stats (decNumElements (_stats q)) (set_queue rest q))
       | [] => (hint, None, q)
       end
  else (hint, None, q).

(** [IoQueue::size], the branch compiled unless the old libstdc++ ABI is
    selected; [size_oldABI] below is the other branch and [sizeFor] the
    function with both. *)
Definition size (q : IoQueue) : Z :=
  if _isIdle q
  then Z.of_nat (length (_queue q))
  else Z.of_nat (length (_queue q)) + 1.

(** [IoQueue::empty]. *)
Definition empty (q : IoQueue) : bool :=
  list_empty (_queue q) && _isIdle q.

(** [IoQueue::getBackoffInterval]: the interval, in milliseconds, and the
    queue with its step counter advanced.  The product is taken in the
    unsigned 64-bit type and returned as [std::chrono::milliseconds]. *)
Definition getBackoffInterval (q : IoQueue) : option (Z * IoQueue) :=
  let q1 :=
    if _loadBalanceBackoffNum q <? _loadBalancePollIntervalNumBackoffs q
    then set_loadBalanceBackoffNum (_loadBalanceBackoffNum q + 1) q
    else q in
  match _loadBalancePollIntervalBackoffPolicy q1 with
  | Linear =>
      Some (to_int64 (_loadBalancePollIntervalMs q1
                      + _loadBalancePollIntervalMs q1
                        * _loadBalanceBackoffNum q1), q1)
  | Exponential =>
      match exp2_size_t (_loadBalanceBackoffNum q1) with
      | Some e => Some (to_int64 (_loadBalancePollIntervalMs q1 * e), q1)
      | None => None
      end
  end.

(** ** The pool: one dedicated worker and the shared queues *)

(** A queue of the pool: the worker's own, or an element of the vector
    [*_sharedIoQueues]. *)
Inductive QueueRef : Type :=
| This
| Shared (i : nat).

(** What happens to the spinlocks, in the order it happens. *)
Inductive LockEvent : Type :=
| Acquire (r : QueueRef)
| Release (r : QueueRef).

(** The state one worker's calls act on.  [grabWorkItem_grabFromShared],
    [grabWorkItemFromAll_grabFromShared] and [tryDequeueFromShared_index]
    are the function-local statics.  [busy] lists what the coming
    [try_lock] calls will find ([true]: held by another thread); once it
    is used up every spinlock is found free.  [lockLog], [sleepLog] and
    [runLog] record the spinlock events, the intervals slept and the
    tasks whose [run] was called. *)
Record Pool : Type := {
  this : IoQueue;
  sharedIoQueues : list IoQueue;
  grabWorkItem_grabFromShared : bool;
  grabWorkItemFromAll_grabFromShared : bool;
  tryDequeueFromShared_index : Z;
  busy : list bool;
  lockLog : list LockEvent;
  sleepLog : list Z;
  runLog : list IoTask
}.

Definition set_this (q : IoQueue) (p : Pool) : Pool :=
  {| this := q;
     sharedIoQueues := sharedIoQueues p;
     grabWorkItem_grabFromShared := grabWorkItem_grabFromShared p;
     grabWorkItemFromAll_grabFromShared :=
       grabWorkItemFromAll_grabFromShared p;
     tryDequeueFromShared_index := tryDequeueFromShared_index p;
     busy := busy p;
     lockLog := lockLog p;
     sleepLog := sleepLog p;
     runLog := runLog p |}.

Definition set_sharedIoQueues (l : list IoQueue) (p : Pool) : Pool :=
  {| this := this p;
     sharedIoQueues := l;
     grabWorkItem_grabFromShared := grabWorkItem_grabFromShared p;
     grabWorkItemFromAll_grabFromShared :=
       grabWorkItemFromAll_grabFromShared p;
     tryDequeueFromShared_index := tryDequeueFromShared_index p;
     busy := busy p;
     lockLog := lockLog p;
     sleepLog := sleepLog p;
     runLog := runLog p |}.

Definition set_grabWorkItem_grabFromShared (b : bool) (p : Pool) : Pool :=
  {| this := this p;
     sharedIoQueues := sharedIoQueues p;
     grabWorkItem_grabFromShared := b;
     grabWorkItemFromAll_grabFromShared :=
       grabWorkItemFromAll_grabFromShared p;
     tryDequeueFromShared_index := tryDequeueFromShared_index p;
     busy := busy p;
     lockLog := lockLog p;
     sleepLog := sleepLog p;
     runLog := runLog p |}.

Definition set_grabWorkItemFromAll_grabFromShared (b : bool) (p : Pool)
  : Pool :=
  {| this := this p;
     sharedIoQueues := sharedIoQueues p;
     grabWorkItem_grabFromShared := grabWorkItem_grabFromShared p;
     grabWorkItemFromAll_grabFromShared := b;
     tryDequeueFromShared_index := tryDequeueFromShared_index p;
     busy := busy p;
     lockLog := lockLog p;
     sleepLog := sleepLog p;
     runLog := runLog p |}.

Definition set_tryDequeueFromShared_index (i : Z) (p : Pool) : Pool :=
  {| this := this p;
     sharedIoQueues := sharedIoQueues p;
     grabWorkItem_grabFromShared := grabWorkItem_grabFromShared p;
     grabWorkItemFromAll_grabFromShared :=
       grabWorkItemFromAll_grabFromShared p;
     tryDequeueFromShared_index := i;
     busy := busy p;
     lockLog := lockLog p;
     sleepLog := sleepLog p;
     runLog := runLog p |}.

Definition set_busy (l : list bool) (p : Pool) : Pool :=
  {| this := this p;
     sharedIoQueues := sharedIoQueues p;
     grabWorkItem_grabFromShared := grabWorkItem_grabFromShared p;
     grabWorkItemFromAll_grabFromShared :=
       grabWorkItemFromAll_grabFromShared p;
     tryDequeueFromShared_index := tryDequeueFromShared_index p;
     busy := l;
     lockLog := lockLog p;
     sleepLog := sleepLog p;
     runLog := runLog p |}.

Definition set_lockLog (l : list LockEvent) (p : Pool) : Pool :=
  {| this := this p;
     sharedIoQueues := sharedIoQueues p;
     grabWorkItem_grabFromShared := grabWorkItem_grabFromShared p;
     grabWorkItemFromAll_grabFromShared :=
       grabWorkItemFromAll_grabFromShared p;
     tryDequeueFromShared_index := tryDequeueFromShared_index p;
     busy := busy p;
     lockLog := l;
     sleepLog := sleepLog p;
     runLog := runLog p |}.

Definition set_sleepLog (l : list Z) (p : Pool) : Pool :=
  {| this := this p;
     sharedIoQueues := sharedIoQueues p;
     grabWorkItem_grabFromShared := grabWorkItem_grabFromShared p;
     grabWorkItemFromAll_grabFromShared :=
       grabWorkItemFromAll_grabFromShared p;
     tryDequeueFromShared_index := tryDequeueFromShared_index p;
     busy := busy p;
     lockLog := lockLog p;
     sleepLog := l;
     runLog := runLog p |}.

Definition set_runLog (l : list IoTask) (p : Pool) : Pool :=
  {| this := this p;
     sharedIoQueues := sharedIoQueues p;
     grabWorkItem_grabFromShared := grabWorkItem_grabFromShared p;
     grabWorkItemFromAll_grabFromShared :=
       grabWorkItemFromAll_grabFromShared p;
     tryDequeueFromShared_index := tryDequeueFromShared_index p;
     busy := busy p;
     lockLog := lockLog p;
     sleepLog := sleepLog p;
     runLog := l |}.

(** *** Calls on the pool

    A call ends with a value and the new pool, or runs into undefined
    behaviour (an index outside the vector, a conversion out of range, a
    null thread pointer), or has not finished when its fuel is spent
    (loops and recursion take fuel). *)
Inductive Result (A : Type) : Type :=
| Ok (a : A) (p : Pool)
| Undefined
| OutOfFuel.

Arguments Ok {A} a p.
Arguments Undefined {A}.
Arguments OutOfFuel {A}.

Definition M (A : Type) : Type := Pool -> Result A.

Definition ret {A : Type} (a : A) : M A := fun p => Ok a p.

Definition bind {A B : Type} (c : M A) (k : A -> M B) : M B :=
  fun p =>
    match c p with
    | Ok a p' => k a p'
    | Undefined => Undefined
    | OutOfFuel => OutOfFuel
    end.

Declare Scope pool_scope.
Delimit Scope pool_scope with pool.
Notation "x <- c1 ;; c2" := (bind c1 (fun x => c2))
  (at level 100, c1 at next level, right associativity) : pool_scope.
Notation "c1 ;; c2" := (bind c1 (fun _ => c2))
  (at level 100, right associativity) : pool_scope.
Local Open Scope pool_scope.

Definition undefined {A : Type} : M A := fun _ => Undefined.
Definition out_of_fuel {A : Type} : M A := fun _ => OutOfFuel.
Definition modify (f : Pool -> Pool) : M unit := fun p => Ok tt (f p).

(** Reading and writing a queue of the pool; an index outside the vector
    is undefined behaviour. *)
Definition queueAt (r : QueueRef) (p : Pool) : option IoQueue :=
  match r with
  | This => Some (this p)
  | Shared i => sharedIoQueues p !! i
  end.

Definition updQ (r : QueueRef) (q : IoQueue) (p : Pool) : Pool :=
  match r with
  | This => set_this q p
  | Shared i => set_sharedIoQueues (<[i := q]> (sharedIoQueues p)) p
  end.

Definition getQ (r : QueueRef) : M IoQueue :=
  fun p =>
    match queueAt r p with
    | Some q => Ok q p
    | None => Undefined
    end.

Definition putQ (r : QueueRef) (q : IoQueue) : M unit :=
  fun p =>
    match queueAt r p with
    | Some _ => Ok tt (updQ r q p)
    | None => Undefined
    end.

Definition modifyQ (r : QueueRef) (f : IoQueue -> IoQueue) : M unit :=
  q <- getQ r ;; putQ r (f q).

(** [SpinLock::Guard]: its constructor takes the spinlock of queue [r]
    and its destructor gives it back. *)
Definition lock (r : QueueRef) : M unit :=
  _ <- getQ r ;;
  modify (fun p => set_lockLog (lockLog p ++ [Acquire r]) p).

Definition unlock (r : QueueRef) : M unit :=
  modify (fun p => set_lockLog (lockLog p ++ [Release r]) p).

(** The guard made with [SpinLock::TryToLock]; the result is
    [ownsLock()]. *)
Definition try_lock (r : QueueRef) : M bool :=
  _ <- getQ r ;;
  fun p =>
    match busy p with
    | true :: rest => Ok false (set_busy rest p)
    | false :: rest =>
        Ok true (set_lockLog (lockLog p ++ [Acquire r]) (set_busy rest p))
    | [] => Ok true (set_lockLog (lockLog p ++ [Acquire r]) p)
    end.

(** [IoQueue::enqueue] and [IoQueue::tryEnqueue] on queue [r]. *)
Definition enqueue (r : QueueRef) (task : IoTask) : M unit :=
  lock r ;;
  modifyQ r (doEnqueue task) ;;
  unlock r.

Definition tryEnqueue (r : QueueRef) (task : IoTask) : M bool :=
  owns <- try_lock r ;;
  if owns : bool
  then modifyQ r (doEnqueue task) ;; unlock r ;; ret true
  else ret false.

(** [doDequeue] on queue [r], with [hint] bound to the [_isIdle] flag of
    queue [h]: every call in the source passes the caller's [_isIdle]. *)
Definition doDequeueAt (r h : QueueRef) : M (option IoTask) :=
  q <- getQ r ;;
  let '(hint, task, q') := doDequeue q in
  putQ r q' ;;
  modifyQ h (set_isIdle hint) ;;
  ret task.

(** [IoQueue::dequeue]. *)
Definition dequeue (r h : QueueRef) : M (option IoTask) :=
  q <- getQ r ;;
  if _loadBalanceSharedIoQueues q
  then lock r ;;
       task <- doDequeueAt r h ;;
       unlock r ;;
       ret task
  else doDequeueAt r h.

(** [IoQueue::tryDequeue]. *)
Definition tryDequeue (r h : QueueRef) : M (option IoTask) :=
  owns <- try_lock r ;;
  if owns : bool
  then task <- doDequeueAt r h ;;
       unlock r ;;
       ret task
  else ret None.

(** The [for] loop of [IoQueue::tryDequeueFromShared], with [n]
    iterations left and [size] accumulated so far: the task found, if
    any, and the accumulated size.  [queue.size()] is the branch of the
    default build, [size]. *)
Fixpoint scanShared (n : nat) (size0 : Z) : M (option IoTask * Z) :=
  match n with
  | O => ret (None, size0)
  | S n' =>
      modify (fun p =>
        set_tryDequeueFromShared_index
          (to_size_t (tryDequeueFromShared_index p + 1)) p) ;;
      i <- (fun p =>
              Ok (Z.to_nat (tryDequeueFromShared_index p
                            mod Z.of_nat (length (sharedIoQueues p)))) p) ;;
      queue <- getQ (Shared i) ;;
      let size1 := to_size_t (size0 + size queue) in
      task <- tryDequeue (Shared i) This ;;
      match task with
      | Some _ => ret (task, size1)
      | None => scanShared n' size1
      end
  end.

(** [IoQueue::tryDequeueFromShared]; each recursive call takes one unit
    of fuel. *)
Fixpoint tryDequeueFromShared (fuel : nat) : M (option IoTask) :=
  match fuel with
  | O => out_of_fuel
  | S fuel' =>
      n <- (fun p => Ok (length (sharedIoQueues p)) p) ;;
      found <- scanShared n 0 ;;
      match found with
      | (Some task, _) => ret (Some task)
      | (None, size1) =>
          if size1 =? 0 then ret None else tryDequeueFromShared fuel'
      end
  end.

(** [IoQueue::grabWorkItem]. *)
Definition grabWorkItem : M (option IoTask) :=
  modify (fun p =>
    set_grabWorkItem_grabFromShared (negb (grabWorkItem_grabFromShared p)) p) ;;
  grabFromShared <- (fun p => Ok (grabWorkItem_grabFromShared p) p) ;;
  if grabFromShared : bool
  then
    lock (Shared 0) ;;
    task <- dequeue (Shared 0) This ;;
    match task with
    | Some _ => unlock (Shared 0) ;; ret task
    | None =>
        lock This ;;
        task <- dequeue This This ;;
        match task with
        | Some _ => ret tt
        | None => modifyQ This (signalEmptyCondition true)
        end ;;
        unlock This ;;
        unlock (Shared 0) ;;
        ret task
    end
  else
    lock This ;;
    task <- dequeue This This ;;
    match task with
    | Some _ => unlock This ;; ret task
    | None =>
        lock (Shared 0) ;;
        task <- dequeue (Shared 0) This ;;
        match task with
        | Some _ => ret tt
        | None => modifyQ This (signalEmptyCondition true)
        end ;;
        unlock (Shared 0) ;;
        unlock This ;;
        ret task
    end.

(** [IoQueue::grabWorkItemFromAll]. *)
Definition grabWorkItemFromAll (fuel : nat) : M (option IoTask) :=
  modify (fun p =>
    set_grabWorkItemFromAll_grabFromShared
      (negb (grabWorkItemFromAll_grabFromShared p)) p) ;;
  grabFromShared <- (fun p => Ok (grabWorkItemFromAll_grabFromShared p) p) ;;
  if grabFromShared : bool
  then
    task <- tryDequeueFromShared fuel ;;
    match task with
    | Some _ => ret task
    | None => dequeue This This
    end
  else
    task <- dequeue This This ;;
    match task with
    | Some _ => ret task
    | None => tryDequeueFromShared fuel
    end.

(** [getBackoffInterval] called by the worker on itself. *)
Definition getBackoffIntervalThis : M Z :=
  fun p =>
    match getBackoffInterval (this p) with
    | Some (ms, q) => Ok ms (set_this q p)
    | None => Undefined
    end.

(** [YieldingThread()(interval)]. *)
Definition sleep (ms : Z) : M unit :=
  modify (fun p => set_sleepLog (sleepLog p ++ [ms]) p).

(** The polling [do ... while (!_isInterrupted)] of [IoQueue::run]; each
    round takes one unit of fuel. *)
Fixpoint poll (fuel : nat) : M (option IoTask) :=
  match fuel with
  | O => out_of_fuel
  | S fuel' =>
      task <- grabWorkItemFromAll fuel ;;
      match task with
      | Some _ =>
          modifyQ This (set_loadBalanceBackoffNum 0) ;;
          ret task
      | None =>
          ms <- getBackoffIntervalThis ;;
          sleep ms ;;
          q <- getQ This ;;
          if _isInterrupted q then ret None else poll fuel'
      end
  end.

(** From [task.value().run()] to the end of the [try] block, and the
    handlers: an exception leaves the block at the call, and both
    handlers only log. *)
Definition runTask (task : IoTask) : M unit :=
  modify (fun p => set_runLog (runLog p ++ [task]) p) ;;
  match IoTask_run task with
  | Throws => ret tt
  | Returns rc =>
      if rc =? Status_Success
      then
        if getQueueId task =? Queue_Id_Any
        then modifyQ This (fun q =>
               set_stats (incSharedQueueCompletedCount (_stats q)) q)
        else modifyQ This (fun q =>
               set_stats (incCompletedCount (_stats q)) q)
      else
        if getQueueId task =? Queue_Id_Any
        then modifyQ This (fun q =>
               set_stats (incSharedQueueErrorCount (_stats q)) q)
        else modifyQ This (fun q =>
               set_stats (incErrorCount (_stats q)) q)
  end.

(** How the worker loop stops: by the [break] on interruption, or in the
    wait on [_notEmptyCond], from which only another thread can wake
    it. *)
Inductive LoopEnd : Type := Exited | Blocked.

(** [IoQueue::run]; each iteration of [while (true)] takes one unit of
    fuel. *)
Fixpoint run (fuel : nat) : M LoopEnd :=
  match fuel with
  | O => out_of_fuel
  | S fuel' =>
      q <- getQ This ;;
      if _loadBalanceSharedIoQueues q
      then
        task <- poll fuel ;;
        q <- getQ This ;;
        if _isInterrupted q then ret Exited
        else
          match task with
          | Some t => runTask t ;; run fuel'
          | None => undefined
          end
      else
        if _isEmpty q && negb (_isInterrupted q) then ret Blocked
        else if _isInterrupted q then ret Exited
        else
          task <- grabWorkItem ;;
          match task with
          | Some t => runTask t ;; run fuel'
          | None => run fuel'
          end
  end.

(** [_thread->join()] for the thread of queue [r].  The worker is the one
    thread of the model; a null [_thread] makes the call undefined.  The
    thread is taken at the head of its loop when the call is made: an
    iteration that is past the test of [_isInterrupted] at that moment,
    and still selects and runs a task, is not followed. *)
Definition join (r : QueueRef) (fuel : nat) : M unit :=
  q <- getQ r ;;
  if _thread q
  then
    match r with
    | This =>
        e <- run fuel ;;
        match e with
        | Exited => ret tt
        | Blocked => out_of_fuel
        end
    | Shared _ => out_of_fuel
    end
  else undefined.

(** [IoQueue::terminate] on queue [r]. *)
Definition terminate (r : QueueRef) (fuel : nat) : M unit :=
  q <- getQ r ;;
  let exchanged := negb (_terminated q) in
  putQ r (set_terminated true q) ;;
  match exchanged, _sharedIoQueues q with
  | true, sharedVector =>
      modifyQ r (set_isInterrupted true) ;;
      join r fuel ;;
      modifyQ r (set_queue [])
  | _, _ => ret tt
  end.

(** ** Vocabulary of the properties *)

(** The intervals returned by [k] successive calls of
    [getBackoffInterval], none of them followed by a reset. *)
Fixpoint intervals (k : nat) (q : IoQueue) : option (list Z) :=
  match k with
  | O => Some []
  | S k' =>
      match getBackoffInterval q with
      | Some (ms, q') =>
          match intervals k' q' with
          | Some l => Some (ms :: l)
          | None => None
          end
      | None => None
      end
  end.

Definition sumZ (l : list Z) : Z := fold_right Z.add 0 l.

(** The interval of each policy at step count [n]. *)
Definition intervalAt (policy : BackoffPolicy) (b n : Z) : Z :=
  match policy with
  | Linear => b * (1 + n)
  | Exponential => b * 2 ^ n
  end.

(** The settings for which no interval leaves the range of the types:
    a base that is not negative, a counter within its cap, and the
    largest interval representable in milliseconds. *)
Definition backoffInRange (q : IoQueue) : Prop :=
  0 <= _loadBalancePollIntervalMs q /\
  0 <= _loadBalanceBackoffNum q <= _loadBalancePollIntervalNumBackoffs q /\
  _loadBalancePollIntervalNumBackoffs q < 64 /\
  intervalAt (_loadBalancePollIntervalBackoffPolicy q)
    (_loadBalancePollIntervalMs q) (_loadBalancePollIntervalNumBackoffs q)
    < 2 ^ 63.

(** The same, policy by policy and for any state of the counter: a base
    that is not negative, a counter and a cap that are not negative (they
    are unsigned), the largest interval the counter can still reach
    representable in milliseconds, and, for the exponential policy
    only, a power of two that fits [size_t]. *)
Definition intervalsInRange (q : IoQueue) : Prop :=
  let top := Z.max (_loadBalanceBackoffNum q)
                   (_loadBalancePollIntervalNumBackoffs q) in
  0 <= _loadBalancePollIntervalMs q /\
  0 <= _loadBalanceBackoffNum q /\
  0 <= _loadBalancePollIntervalNumBackoffs q /\
  (_loadBalancePollIntervalBackoffPolicy q = Exponential -> top < 64) /\
  intervalAt (_loadBalancePollIntervalBackoffPolicy q)
    (_loadBalancePollIntervalMs q) top < 2 ^ 63.

(** The intervals of successive calls never decreasing, whatever the
    settings. *)
Definition backoffNeverDecreases : Prop :=
  forall (q : IoQueue) (k : nat) (l : list Z) (i j : nat),
    intervals k q = Some l ->
    (i <= j < k)%nat ->
    nth i l 0 <= nth j l 0.

(** The backoff starting at the base interval and doubling from there:
    the [k]-th call after a reset returns [b * 2^(k-1)], up to call
    [m + 1]. *)
Definition backoffStartsAtBase : Prop :=
  forall (q : IoQueue) (k : Z) (l : list Z),
    _loadBalancePollIntervalBackoffPolicy q = Exponential ->
    backoffInRange q ->
    _loadBalanceBackoffNum q = 0 ->
    1 <= k <= _loadBalancePollIntervalNumBackoffs q + 1 ->
    intervals (Z.to_nat k) q = Some l ->
    nth (Z.to_nat (k - 1)) l 0
    = _loadBalancePollIntervalMs q * 2 ^ (k - 1).

(** A sequence of calls on one queue with no concurrent activity, and the
    tasks it hands out, in order. *)
Inductive QueueOp : Type :=
| Enq (task : IoTask)
| Deq.

Fixpoint runOps (ops : list QueueOp) (q : IoQueue) : list IoTask * IoQueue :=
  match ops with
  | [] => ([], q)
  | Enq task :: ops' => runOps ops' (doEnqueue task q)
  | Deq :: ops' =>
      let '(_, task, q1) := doDequeue q in
      let '(out, q2) := runOps ops' q1 in
      (match task with
       | Some t => t :: out
       | None => out
       end, q2)
  end.

Fixpoint enqueued (ops : list QueueOp) : list IoTask :=
  match ops with
  | [] => []
  | Enq task :: ops' => task :: enqueued ops'
  | Deq :: ops' => enqueued ops'
  end.

(** First in, first out among the pairs of tasks related by [same]: when
    [A] is enqueued before [B], [B] is handed out only after [A]. *)
Definition fifoAmong (same : IoTask -> IoTask -> Prop) : Prop :=
  forall (ops : list QueueOp) (q q' : IoQueue) (A B : IoTask)
         (l1 l2 l3 o1 o2 : list IoTask),
    same A B ->
    NoDup (_queue q ++ enqueued ops) ->
    enqueued ops = l1 ++ A :: l2 ++ B :: l3 ->
    runOps ops q = (o1 ++ B :: o2, q') ->
    In A o1.

Definition isStandard (t : IoTask) : bool := negb (isHighPriority t).

(** The spinlocks held after a run of events, and the largest number
    held at once during it. *)
Definition QueueRef_eqb (a b : QueueRef) : bool :=
  match a, b with
  | This, This => true
  | Shared i, Shared j => Nat.eqb i j
  | _, _ => false
  end.

Fixpoint release (r : QueueRef) (held : list QueueRef) : list QueueRef :=
  match held with
  | [] => []
  | h :: held' => if QueueRef_eqb r h then held' else h :: release r held'
  end.

Definition step (held : list QueueRef) (e : LockEvent) : list QueueRef :=
  match e with
  | Acquire r => r :: held
  | Release r => release r held
  end.

Fixpoint heldAfter (held : list QueueRef) (evs : list LockEvent)
  : list QueueRef :=
  match evs with
  | [] => held
  | e :: evs' => heldAfter (step held e) evs'
  end.

Fixpoint maxHeld (held : list QueueRef) (evs : list LockEvent) : nat :=
  match evs with
  | [] => length held
  | e :: evs' => Nat.max (length held) (maxHeld (step held e) evs')
  end.

(** A call during which, starting with no spinlock held, at most one is
    held at any time. *)
Definition oneLockAtATime {A : Type} (c : M A) : Prop :=
  forall (p p' : Pool) (a : A),
    c p = Ok a p' ->
    exists evs : list LockEvent,
      lockLog p' = lockLog p ++ evs /\ (maxHeld [] evs <= 1)%nat.

(** A call that leaves the spinlocks alone, and one that takes them one
    at a time and holds none when it returns. *)
Definition quiet {A : Type} (c : M A) : Prop :=
  forall (p p' : Pool) (a : A), c p = Ok a p' -> lockLog p' = lockLog p.

Definition brief {A : Type} (c : M A) : Prop :=
  forall (p p' : Pool) (a : A),
    c p = Ok a p' ->
    exists evs : list LockEvent,
      lockLog p' = lockLog p ++ evs /\
      heldAfter [] evs = [] /\
      (maxHeld [] evs <= 1)%nat.

(** The shared queues are never handed their own [_isIdle] as hint, so
    theirs stays as the constructor set it. *)
Definition sharedIdle (p : Pool) : Prop :=
  Forall (fun q => _isIdle q = true) (sharedIoQueues p).

(** The numbers of the queues a scan of [n] rounds tries, in order,
    when the static index is [idx] and there are [len] shared queues. *)
Fixpoint visited (n : nat) (idx : Z) (len : nat) : list nat :=
  match n with
  | O => []
  | S n' =>
      Z.to_nat (to_size_t (idx + 1) mod Z.of_nat len)
      :: visited n' (to_size_t (idx + 1)) len
  end.

(** What [size()] returns on shared queue [i]. *)
Definition sizeAt (sh : list IoQueue) (i : nat) : Z :=
  match sh !! i with
  | Some q => size q
  | None => 0
  end.

(** The sum of what [size()] returns on the queues a scan of [n] rounds
    tries from pool [p]. *)
Definition sizesSeen (n : nat) (p : Pool) : Z :=
  sumZ (map (sizeAt (sharedIoQueues p))
          (visited n (tryDequeueFromShared_index p)
             (length (sharedIoQueues p)))).

(** No shared queue holds a task. *)
Definition sharedEmpty (p : Pool) : Prop :=
  Forall (fun q => _queue q = []) (sharedIoQueues p).

(** The static index far enough from [2^64] for [scans] scans not to
    wrap it, and the sizes of the shared queues adding up within
    [size_t]. *)
Definition scanInRange (scans : nat) (p : Pool) : Prop :=
  0 <= tryDequeueFromShared_index p /\
  tryDequeueFromShared_index p
  + Z.of_nat scans * Z.of_nat (length (sharedIoQueues p)) < 2 ^ 64 /\
  sumZ (map size (sharedIoQueues p)) < 2 ^ 64.

(** Queue [q] with its first task popped by [doDequeue]. *)
Definition popped (rest : list IoTask) (q : IoQueue) : IoQueue :=
  set_stats (decNumElements (_stats q)) (set_queue rest q).

(** The first and second queue [grabWorkItem] turns to, given the value
    its static flag has before the call. *)
Definition firstTarget (grabFromShared : bool) : QueueRef :=
  if negb grabFromShared then Shared 0 else This.
Definition secondTarget (grabFromShared : bool) : QueueRef :=
  if negb grabFromShared then This else Shared 0.

(** Tasks counted by the error counters: those whose [run] returns a
    status other than success, by kind of queue id. *)
Definition returnsError (t : IoTask) : bool :=
  match IoTask_run t with
  | Returns rc => negb (rc =? Status_Success)
  | Throws => false
  end.

Definition returnsSuccess (t : IoTask) : bool :=
  match IoTask_run t with
  | Returns rc => rc =? Status_Success
  | Throws => false
  end.

Definition isShared (t : IoTask) : bool := getQueueId t =? Queue_Id_Any.

Definition count (f : IoTask -> bool) (l : list IoTask) : Z :=
  Z.of_nat (length (List.filter f l)).

(** [enqueue] returning a value that tells whether the queue was empty
    before the insertion: some reading of the returned value gives that
    emptiness on every call. *)
Definition enqueueReportsWasEmpty : Prop :=
  exists decode : unit -> bool,
    forall (r : QueueRef) (task : IoTask) (p p' : Pool) (q : IoQueue)
           (a : unit),
      queueAt r p = Some q ->
      enqueue r task p = Ok a p' ->
      decode a = list_empty (_queue q).

(** The pending tasks of the worker and of the first shared queue, and
    a worker set up without load balancing beside such a queue. *)
Definition ownQ (p : Pool) : list IoTask := _queue (this p).

Definition sharedQ (p : Pool) : list IoTask :=
  match sharedIoQueues p !! O with
  | Some s => _queue s
  | None => []
  end.

Definition nonLoadBalanced (p : Pool) : Prop :=
  _loadBalanceSharedIoQueues (this p) = false /\
  exists s : IoQueue,
    sharedIoQueues p !! O = Some s /\ _loadBalanceSharedIoQueues s = false.

(** The four counters of finished tasks. *)
Definition outcomes (s : IoQueueStatistics) : Z * Z * Z * Z :=
  (completedCount s, sharedQueueCompletedCount s,
   errorCount s, sharedQueueErrorCount s).

(** What running the tasks of [l] adds to those counters: a task counts
    as completed when its [run] returns success, as errored when it
    returns another status, under the shared heading when its queue id
    is [Any]; a task whose [run] throws counts nowhere. *)
Definition tally (l : list IoTask) : Z * Z * Z * Z :=
  (count (fun t => returnsSuccess t && negb (isShared t)) l,
   count (fun t => returnsSuccess t && isShared t) l,
   count (fun t => returnsError t && negb (isShared t)) l,
   count (fun t => returnsError t && isShared t) l).

Definition addOutcomes (a b : Z * Z * Z * Z) : Z * Z * Z * Z :=
  let '(a1, a2, a3, a4) := a in
  let '(b1, b2, b3, b4) := b in
  (a1 + b1, a2 + b2, a3 + b3, a4 + b4).

(** A task whose [run] throws being counted as errored: when the worker
    has run it and gone back to wait, one of the two error counters has
    grown. *)
Definition throwIsCounted : Prop :=
  forall (fuel : nat) (p p' : Pool) (t : IoTask),
    IoTask_run t = Throws ->
    nonLoadBalanced p ->
    ownQ p = [t] ->
    run fuel p = Ok Blocked p' ->
    errorCount (_stats (this p)) + sharedQueueErrorCount (_stats (this p))
    < errorCount (_stats (this p'))
      + sharedQueueErrorCount (_stats (this p')).

(** [terminate] emptying a shared-only queue: once it has returned, the
    queue is observably empty. *)
Definition terminateClearsSharedOnly : Prop :=
  forall (fuel i : nat) (p p' : Pool) (q q' : IoQueue),
    sharedIoQueues p !! i = Some q ->
    _sharedIoQueues q = nullptr ->
    _thread q = false ->
    terminate (Shared i) fuel p = Ok tt p' ->
    sharedIoQueues p' !! i = Some q' ->
    empty q' = true.

(** [IoQueue::size] as compiled for the old libstdc++ ABI
    ([_GLIBCXX_USE_CXX11_ABI == 0]): the statistics counter stands in for
    the size of the list. *)
Definition size_oldABI (q : IoQueue) : Z :=
  if _isIdle q
  then numElements (_stats q)
  else numElements (_stats q) + 1.

(** [IoQueue::size] with its two branches, by the ABI the file is
    compiled for. *)
Definition sizeFor (oldABI : bool) (q : IoQueue) : Z :=
  if oldABI then size_oldABI q else size q.


(** The statistics counter of elements agreeing with the list. *)
Definition countsElements (q : IoQueue) : Prop :=
  numElements (_stats q) = Z.of_nat (length (_queue q)).

(** The flags of a queue that only [terminate] writes, with the mode. *)
Definition flags (q : IoQueue) : bool * bool * bool :=
  (_terminated q, _isInterrupted q, _loadBalanceSharedIoQueues q).

(** A call that leaves every queue of the pool in place with its flags. *)
Definition steady {A : Type} (c : M A) : Prop :=
  forall (p p' : Pool) (a : A),
    c p = Ok a p' ->
    forall (r : QueueRef) (q : IoQueue),
      queueAt r p = Some q ->
      exists q' : IoQueue, queueAt r p' = Some q' /\ flags q' = flags q.

(** A call that leaves the component [f] of the pool as it was. *)
Definition keeps {A X : Type} (f : Pool -> X) (c : M A) : Prop :=
  forall (p p' : Pool) (a : A), c p = Ok a p' -> f p' = f p.

(** Every task pending in the pool: those of the worker and those of
    all the shared queues. *)
Definition pending (p : Pool) : list IoTask :=
  ownQ p ++ concat (map _queue (sharedIoQueues p)).

Definition taskList (task : option IoTask) : list IoTask :=
  match task with
  | Some t => [t]
  | None => []
  end.

(** ** Sample tasks and settings *)

Definition oneTask : IoTask :=
  {| _func := Returns 0; _queueId := 0; _isHighPriority := false |}.

Definition plainConfig : Configuration :=
  {| getLoadBalanceSharedIoQueues := false;
     getLoadBalancePollIntervalMs := 1;
     getLoadBalancePollIntervalBackoffPolicy := Exponential;
     getLoadBalancePollIntervalNumBackoffs := 5 |}.

Definition urgentA : IoTask :=
  {| _func := Returns 0; _queueId := 0; _isHighPriority := true |}.

Definition urgentB : IoTask :=
  {| _func := Returns 0; _queueId := 1; _isHighPriority := true |}.

Definition plainA : IoTask :=
  {| _func := Returns 0; _queueId := 0; _isHighPriority := false |}.

Definition plainB : IoTask :=
  {| _func := Returns 0; _queueId := 1; _isHighPriority := false |}.

Definition freshQueue : IoQueue := IoQueue_new plainConfig nullptr.

Definition mkPool (worker : IoQueue) (shared : list IoQueue) : Pool :=
  {| this := worker;
     sharedIoQueues := shared;
     grabWorkItem_grabFromShared := false;
     grabWorkItemFromAll_grabFromShared := false;
     tryDequeueFromShared_index := 0;
     busy := [];
     lockLog := [];
     sleepLog := [];
     runLog := [] |}.

Definition worker (config : Configuration) : IoQueue :=
  IoQueue_new config sharedVector.

Definition backoffConfig : Configuration :=
  {| getLoadBalanceSharedIoQueues := true;
     getLoadBalancePollIntervalMs := 1;
     getLoadBalancePollIntervalBackoffPolicy := Exponential;
     getLoadBalancePollIntervalNumBackoffs := 5 |}.

Definition idlePool : Pool := mkPool (worker plainConfig) [freshQueue].

Definition thrower : IoTask :=
  {| _func := Throws; _queueId := 0; _isHighPriority := false |}.

Definition failing : IoTask :=
  {| _func := Returns 1; _queueId := 0; _isHighPriority := false |}.

(** A worker that has been handed tasks and signalled. *)
Definition busyPool (tasks : list IoTask) : Pool :=
  mkPool (set_isEmpty false (set_queue tasks (worker plainConfig)))
    [freshQueue].

(** A pool whose shared queue holds one task. *)
Definition sharedPool : Pool :=
  mkPool (worker plainConfig) [set_queue [plainA] freshQueue].

Definition balancedConfig : Configuration :=
  {| getLoadBalanceSharedIoQueues := true;
     getLoadBalancePollIntervalMs := 1;
     getLoadBalancePollIntervalBackoffPolicy := Linear;
     getLoadBalancePollIntervalNumBackoffs := 3 |}.

(** A load-balanced worker that holds [tasks], has been interrupted, and
    whose next selection starts with its own queue. *)
Definition interruptedPool (tasks : list IoTask) : Pool :=
  set_grabWorkItemFromAll_grabFromShared true
    (mkPool (set_isInterrupted true
               (set_queue tasks (worker balancedConfig)))
       [freshQueue]).

(** A pool with three shared queues, the second of which holds a task. *)
Definition threeShared : Pool :=
  mkPool (IoQueue_new balancedConfig sharedVector)
    [freshQueue; set_queue [plainA] freshQueue; freshQueue].

Definition wideConfig : Configuration :=
  {| getLoadBalanceSharedIoQueues := true;
     getLoadBalancePollIntervalMs := 1;
     getLoadBalancePollIntervalBackoffPolicy := Exponential;
     getLoadBalancePollIntervalNumBackoffs := 63 |}.

Definition slowLinearConfig : Configuration :=
  {| getLoadBalanceSharedIoQueues := true;
     getLoadBalancePollIntervalMs := 1;
     getLoadBalancePollIntervalBackoffPolicy := Linear;
     getLoadBalancePollIntervalNumBackoffs := 100 |}.


(** Three shared queues, the second holding a task, with the spinlocks
    of all three busy during the first scan. *)
Definition contendedPool : Pool := set_busy [true; true; true] threeShared.

(** Three empty shared queues. *)
Definition threeEmpty : Pool :=
  mkPool (IoQueue_new balancedConfig sharedVector)
    [freshQueue; freshQueue; freshQueue].

(* ================================================================== *)
(** * Properties *)

(** ** Observers *)

Lemma list_empty_nil {A : Type} (l : list A) : list_empty l = true <-> l = [].
Proof. destruct l; simpl; split; congruence. Qed.




(** ** Dequeue and the idle hint *)

Lemma doDequeue_nil (q : IoQueue) :
  _queue q = [] -> doDequeue q = (true, None, q).
Proof. intros H. unfold doDequeue. rewrite H. reflexivity. Qed.

Lemma doDequeue_cons (q : IoQueue) (t : IoTask) (rest : list IoTask) :
  _queue q = t :: rest ->
  doDequeue q
  = (false, Some t, set_stats (decNumElements (_stats q)) (set_queue rest q)).
Proof. intros H. unfold doDequeue. rewrite H. reflexivity. Qed.

(** C5, as stated, fails: the hint is not the emptiness of the queue
    after the pop.  A queue holding one task is empty after [doDequeue],
    and the hint is false. *)
Lemma hint_is_not_emptiness_after_pop :
  (exists q' : IoQueue,
     doDequeue (set_queue [oneTask] freshQueue) = (false, Some oneTask, q')
     /\ list_empty (_queue q') = true)
  /\
  ~ (forall q : IoQueue,
       let '(hint, _, q') := doDequeue q in
       hint = list_empty (_queue q')).
Proof.
  split.
  - eexists. split; [vm_compute; reflexivity|reflexivity].
  - intros H. specialize (H (set_queue [oneTask] freshQueue)).
    vm_compute in H. discriminate H.
Qed.

(** C5, amended: [doDequeue] sets the hint to the emptiness of the queue
    before the pop.  The hint is true exactly when no task is returned
    (the queue was empty and stays as it was); it is false whenever a
    task is returned, also when that task was the last one. *)
Theorem hint_is_emptiness_before_pop (q : IoQueue) :
  let '(hint, task, q') := doDequeue q in
  hint = list_empty (_queue q) /\
  (hint = true <-> task = None) /\
  (task = None -> q' = q) /\
  (forall t, task = Some t -> _queue q = t :: _queue q').
Proof.
  destruct (_queue q) as [|t rest] eqn:E.
  - rewrite (doDequeue_nil q E). simpl. repeat split; congruence.
  - rewrite (doDequeue_cons q t rest E). simpl.
    repeat split; congruence.
Qed.

(** ** Order of service *)

Lemma doEnqueue_queue (task : IoTask) (q : IoQueue) :
  _queue (doEnqueue task q)
  = if isHighPriority task then task :: _queue q else _queue q ++ [task].
Proof.
  unfold doEnqueue.
  destruct (isHighPriority task); simpl;
    destruct (_loadBalanceSharedIoQueues q), (list_empty (_queue q));
    reflexivity.
Qed.

Lemma filter_standard_cons (t : IoTask) (l : list IoTask) :
  List.filter isStandard (t :: l)
  = if isHighPriority t then List.filter isStandard l
    else t :: List.filter isStandard l.
Proof. simpl. unfold isStandard. destruct (isHighPriority t); reflexivity. Qed.

(** The standard tasks leave in the order they came: those handed out,
    followed by those still pending, are those that were pending and
    those enqueued, in that order. *)
Lemma runOps_standard (ops : list QueueOp) :
  forall (q q' : IoQueue) (out : list IoTask),
    runOps ops q = (out, q') ->
    List.filter isStandard out ++ List.filter isStandard (_queue q')
    = List.filter isStandard (_queue q)
      ++ List.filter isStandard (enqueued ops).
Proof.
  induction ops as [|[task|] ops IH]; intros q q' out H; simpl in H.
  - injection H as <- <-. simpl. now rewrite app_nil_r.
  - apply IH in H. rewrite H, doEnqueue_queue. simpl enqueued.
    rewrite filter_standard_cons.
    destruct (isHighPriority task) eqn:E.
    + rewrite filter_standard_cons, E. reflexivity.
    + rewrite List.filter_app. simpl. unfold isStandard at 2. rewrite E. simpl.
      now rewrite <- app_assoc.
  - destruct (_queue q) as [|t rest] eqn:E.
    + rewrite (doDequeue_nil q E) in H.
      destruct (runOps ops q) as [out1 q2] eqn:R. injection H as <- <-.
      apply IH in R. rewrite R, E. reflexivity.
    + rewrite (doDequeue_cons q t rest E) in H.
      destruct (runOps ops _) as [out1 q2] eqn:R. injection H as <- <-.
      apply IH in R. simpl _queue in R. simpl enqueued.
      rewrite !filter_standard_cons.
      destruct (isHighPriority t); [exact R|].
      simpl. now rewrite R.
Qed.

Lemma NoDup_split_unique {A : Type} (b : A) (x : list A) :
  forall x' y y' : list A,
    NoDup (x ++ b :: y) -> x ++ b :: y = x' ++ b :: y' -> x = x'.
Proof.
  induction x as [|a x IH]; intros [|a' x'] y y' ND E; simpl in *.
  - reflexivity.
  - injection E as <- E. apply NoDup_cons_1_1 in ND. exfalso. apply ND.
    rewrite E. apply list_elem_of_In, in_elt.
  - injection E as -> E. apply NoDup_cons_1_1 in ND. exfalso. apply ND.
    apply list_elem_of_In, in_elt.
  - injection E as <- E. f_equal. apply NoDup_cons_1_2 in ND. eauto.
Qed.

(** C2, as stated, fails: two high-priority tasks enqueued one after the
    other are handed out in the opposite order, each being put in front
    of the other. *)
Lemma same_priority_is_not_fifo :
  (exists q' : IoQueue,
     runOps [Enq urgentA; Enq urgentB; Deq; Deq] freshQueue
     = ([urgentB; urgentA], q'))
  /\
  ~ fifoAmong (fun A B => isHighPriority A = isHighPriority B).
Proof.
  assert (R : exists q',
             runOps [Enq urgentA; Enq urgentB; Deq; Deq] freshQueue
             = ([] ++ urgentB :: [urgentA], q')).
  { eexists. vm_compute. reflexivity. }
  split; [exact R|]. intros H.
  destruct R as [q' R].
  apply (H [Enq urgentA; Enq urgentB; Deq; Deq] freshQueue q'
           urgentA urgentB [] [] [] [] [urgentA]);
    [reflexivity| |reflexivity|exact R].
  repeat constructor; rewrite ?list_elem_of_In; simpl;
    intuition discriminate.
Qed.

(** C2, amended: among standard-priority tasks the queue is first in,
    first out: when [A] is enqueued before [B], whatever else is enqueued
    and dequeued in between, [B] is handed out only after [A].  Two
    high-priority tasks enqueued one after the other leave in the
    opposite order. *)
Theorem standard_priority_is_fifo :
  fifoAmong (fun A B => isHighPriority A = false /\ isHighPriority B = false)
  /\
  (forall (q : IoQueue) (A B : IoTask),
     isHighPriority A = true -> isHighPriority B = true ->
     exists q', runOps [Enq A; Enq B; Deq; Deq] q = ([B; A], q')
                /\ _queue q' = _queue q).
Proof.
  split.
  - intros ops q q' A B l1 l2 l3 o1 o2 [HA HB] ND HE HR.
    apply runOps_standard in HR.
    assert (SA : isStandard A = true) by (unfold isStandard; now rewrite HA).
    assert (SB : isStandard B = true) by (unfold isStandard; now rewrite HB).
    apply NoDup_ListNoDup, (List.NoDup_filter isStandard), NoDup_ListNoDup in ND.
    rewrite List.filter_app, <- HR in ND.
    rewrite HE in HR.
    rewrite !List.filter_app in HR. simpl in HR. rewrite SB in HR.
    rewrite List.filter_app in HR. simpl in HR. rewrite SA, SB in HR.
    rewrite List.filter_app in ND. simpl in ND. rewrite SB in ND.
    rewrite <- app_assoc in ND, HR. simpl in ND, HR.
    assert (E : List.filter isStandard o1
                = List.filter isStandard (_queue q)
                  ++ List.filter isStandard l1
                  ++ A :: List.filter isStandard l2).
    { eapply (NoDup_split_unique B); [exact ND|].
      rewrite HR, <- !app_assoc. reflexivity. }
    assert (I : In A (List.filter isStandard o1)).
    { rewrite E. apply in_or_app. right. apply in_elt. }
    apply List.filter_In in I. tauto.
  - intros q A B HA HB. simpl.
    rewrite (doDequeue_cons _ B (A :: _queue q)).
    2:{ rewrite !doEnqueue_queue, HA, HB. reflexivity. }
    erewrite (doDequeue_cons _ A (_queue q)) by reflexivity.
    eexists. split; reflexivity.
Qed.

(** ** Calls on the pool: basic facts *)

Lemma queueAt_updQ_same (r : QueueRef) (q q0 : IoQueue) (p : Pool) :
  queueAt r p = Some q0 -> queueAt r (updQ r q p) = Some q.
Proof.
  destruct r as [|i]; simpl; [reflexivity|]. intros H.
  apply list_lookup_insert_eq. now apply lookup_lt_Some in H.
Qed.

Lemma queueAt_set_lockLog (r : QueueRef) (l : list LockEvent) (p : Pool) :
  queueAt r (set_lockLog l p) = queueAt r p.
Proof. destruct r; reflexivity. Qed.

Lemma getQ_Some (r : QueueRef) (p : Pool) (q : IoQueue) :
  queueAt r p = Some q -> getQ r p = Ok q p.
Proof. intros H. unfold getQ. now rewrite H. Qed.

Lemma putQ_Some (r : QueueRef) (p : Pool) (q q0 : IoQueue) :
  queueAt r p = Some q0 -> putQ r q p = Ok tt (updQ r q p).
Proof. intros H. unfold putQ. now rewrite H. Qed.

Lemma modifyQ_Some (r : QueueRef) (f : IoQueue -> IoQueue) (p : Pool)
    (q : IoQueue) :
  queueAt r p = Some q -> modifyQ r f p = Ok tt (updQ r (f q) p).
Proof.
  intros H. unfold modifyQ, bind. rewrite (getQ_Some _ _ _ H).
  apply (putQ_Some _ _ _ _ H).
Qed.

Lemma lock_Some (r : QueueRef) (p : Pool) (q : IoQueue) :
  queueAt r p = Some q ->
  lock r p = Ok tt (set_lockLog (lockLog p ++ [Acquire r]) p).
Proof.
  intros H. unfold lock, bind. now rewrite (getQ_Some _ _ _ H).
Qed.

(** ** Enqueue *)

(** C8, as stated, fails: [enqueue] returns no value, so nothing it
    returns tells an empty queue from one that held a task. *)
Lemma enqueue_reports_nothing :
  (exists p1 p2 : Pool,
     enqueue This plainA (mkPool freshQueue []) = Ok tt p1 /\
     enqueue This plainA (mkPool (set_queue [plainB] freshQueue) [])
     = Ok tt p2)
  /\ ~ enqueueReportsWasEmpty.
Proof.
  split; [do 2 eexists; split; reflexivity|].
  intros [decode H].
  pose proof (H This plainA (mkPool freshQueue []) _ _ tt
                eq_refl eq_refl) as H1.
  pose proof (H This plainA (mkPool (set_queue [plainB] freshQueue) []) _ _ tt
                eq_refl eq_refl) as H2.
  simpl in H1, H2. congruence.
Qed.

(** C8, amended: on every queue of the pool [enqueue] succeeds, putting
    a high-priority task at the head of the list and any other at its
    tail, and returns nothing.  Whether the list was empty before the
    insertion is used inside the call only: without load balancing, an
    insertion into an empty list clears [_isEmpty] (and wakes the
    waiter). *)
Theorem enqueue_places_task (r : QueueRef) (task : IoTask) (p : Pool)
    (q : IoQueue) :
  queueAt r p = Some q ->
  exists p' q',
    enqueue r task p = Ok tt p' /\
    queueAt r p' = Some q' /\
    q' = doEnqueue task q /\
    _queue q' = (if isHighPriority task then task :: _queue q
                 else _queue q ++ [task]) /\
    _isEmpty q' = (if negb (_loadBalanceSharedIoQueues q)
                      && list_empty (_queue q)
                   then false else _isEmpty q).
Proof.
  intros H.
  exists (set_lockLog (lockLog p ++ [Acquire r; Release r])
            (updQ r (doEnqueue task q) p)), (doEnqueue task q).
  repeat split.
  - unfold enqueue, bind. rewrite (lock_Some _ _ _ H).
    erewrite modifyQ_Some by (rewrite queueAt_set_lockLog; exact H).
    unfold unlock, modify. f_equal.
    destruct r; simpl; rewrite <- app_assoc; reflexivity.
  - rewrite queueAt_set_lockLog. apply (queueAt_updQ_same _ _ _ _ H).
  - apply doEnqueue_queue.
  - unfold doEnqueue. destruct (isHighPriority task); simpl;
      destruct (_loadBalanceSharedIoQueues q), (list_empty (_queue q));
      reflexivity.
Qed.

(** ** The polling backoff *)

Lemma to_int64_small (z : Z) : 0 <= z < 2 ^ 63 -> to_int64 z = z.
Proof.
  intros H. unfold to_int64. rewrite Z.mod_small by lia.
  destruct (Z.ltb_spec z (2 ^ 63)); lia.
Qed.

Lemma intervalAt_mono (policy : BackoffPolicy) (b n m : Z) :
  0 <= b -> 0 <= n <= m -> intervalAt policy b n <= intervalAt policy b m.
Proof.
  intros Hb Hn. destruct policy; simpl.
  - nia.
  - apply Z.mul_le_mono_nonneg_l; [lia|].
    apply Z.pow_le_mono_r; lia.
Qed.

Lemma intervalAt_nonneg (policy : BackoffPolicy) (b n : Z) :
  0 <= b -> 0 <= n -> 0 <= intervalAt policy b n.
Proof.
  intros Hb Hn. destruct policy; simpl.
  - nia.
  - apply Z.mul_nonneg_nonneg; [lia|]. apply Z.pow_nonneg. lia.
Qed.

(** One call, within range: the counter moves one step towards its cap
    and the interval is the one of the new count. *)
Lemma getBackoffInterval_inRange (q : IoQueue) :
  backoffInRange q ->
  exists q',
    getBackoffInterval q
    = Some (intervalAt (_loadBalancePollIntervalBackoffPolicy q)
              (_loadBalancePollIntervalMs q)
              (Z.min (_loadBalanceBackoffNum q + 1)
                     (_loadBalancePollIntervalNumBackoffs q)), q') /\
    q' = set_loadBalanceBackoffNum
           (Z.min (_loadBalanceBackoffNum q + 1)
                  (_loadBalancePollIntervalNumBackoffs q)) q /\
    backoffInRange q'.
Proof.
  intros (Hb & Hn & Hm & Hr).
  set (n' := Z.min (_loadBalanceBackoffNum q + 1)
                   (_loadBalancePollIntervalNumBackoffs q)).
  assert (Hn' : 0 <= n' <= _loadBalancePollIntervalNumBackoffs q)
    by (unfold n'; lia).
  exists (set_loadBalanceBackoffNum n' q). split; [|split].
  - pose proof (intervalAt_mono (_loadBalancePollIntervalBackoffPolicy q)
                  _ _ _ Hb Hn') as Hle.
    pose proof (intervalAt_nonneg (_loadBalancePollIntervalBackoffPolicy q)
                  _ n' Hb (proj1 Hn')) as H0.
    unfold getBackoffInterval.
    destruct (Z.ltb_spec (_loadBalanceBackoffNum q)
                (_loadBalancePollIntervalNumBackoffs q)) as [Hlt|Hge].
    + replace (_loadBalanceBackoffNum q + 1) with n' by (unfold n'; lia).
      simpl. destruct (_loadBalancePollIntervalBackoffPolicy q); simpl in *.
      * rewrite to_int64_small by lia.
        f_equal. f_equal. lia.
      * unfold exp2_size_t. destruct (Z.ltb_spec n' 64); [|lia].
        rewrite to_int64_small by lia. reflexivity.
    + assert (En : _loadBalanceBackoffNum q = n') by (unfold n'; lia).
      assert (Eq : set_loadBalanceBackoffNum n' q = q)
        by (rewrite <- En; destruct q; reflexivity).
      rewrite Eq.
      destruct (_loadBalancePollIntervalBackoffPolicy q); simpl in *.
      * rewrite En, to_int64_small by lia. f_equal. f_equal. lia.
      * unfold exp2_size_t. rewrite En.
        destruct (Z.ltb_spec n' 64); [|lia].
        rewrite to_int64_small by lia. reflexivity.
  - reflexivity.
  - unfold backoffInRange. simpl. auto.
Qed.

(** The intervals of [k] calls in a row, in closed form. *)
Lemma intervals_closed_form (k : nat) :
  forall q : IoQueue,
    backoffInRange q ->
    intervals k q
    = Some (map (fun i : nat =>
                   intervalAt (_loadBalancePollIntervalBackoffPolicy q)
                     (_loadBalancePollIntervalMs q)
                     (Z.min (_loadBalanceBackoffNum q + Z.of_nat i)
                            (_loadBalancePollIntervalNumBackoffs q)))
              (seq 1 k)).
Proof.
  induction k as [|k IH]; intros q H; [reflexivity|].
  destruct (getBackoffInterval_inRange q H) as (q' & E & Eq & H').
  simpl intervals. rewrite E, (IH q' H'). subst q'. simpl.
  f_equal. f_equal. rewrite <- (seq_shift k 1), map_map.
  apply map_ext_in. intros i _. f_equal.
  destruct H as (_ & ? & _). lia.
Qed.

Lemma sumZ_app (l1 l2 : list Z) : sumZ (l1 ++ l2) = sumZ l1 + sumZ l2.
Proof. induction l1 as [|a l1 IH]; simpl; [reflexivity|]. rewrite IH. lia. Qed.

Lemma sum_doubling (b m : Z) (k : nat) :
  Z.of_nat k <= m ->
  sumZ (map (fun i : nat => b * 2 ^ Z.min (Z.of_nat i) m) (seq 1 k))
  = b * (2 ^ (Z.of_nat k + 1) - 2).
Proof.
  induction k as [|k IH]; intros H.
  - simpl. lia.
  - rewrite seq_S, map_app, sumZ_app, IH by lia. simpl map. simpl sumZ.
    rewrite Z.min_l by lia.
    replace (Z.of_nat (S k)) with (Z.of_nat k + 1) by lia.
    replace (Z.of_nat k + 1 + 1) with (Z.succ (Z.of_nat k + 1)) by lia.
    rewrite Z.pow_succ_r by lia. ring.
Qed.

(** C4, as stated, fails: the counter is advanced before the interval is
    computed, so with base 1 and cap 5 the first interval after a reset
    is 2, not 1. *)
Lemma backoff_does_not_start_at_base :
  intervals 6 (worker backoffConfig) = Some [2; 4; 8; 16; 32; 32]
  /\ ~ backoffStartsAtBase.
Proof.
  split; [vm_compute; reflexivity|].
  intros H.
  specialize (H (worker backoffConfig) 1 [2]).
  assert (R : backoffInRange (worker backoffConfig))
    by (unfold backoffInRange; simpl; lia).
  specialize (H eq_refl R eq_refl ltac:(simpl; lia) eq_refl).
  vm_compute in H. discriminate H.
Qed.

(** C4, amended: with the exponential policy, base interval [b] and cap
    [m], within the range of the types, the [k]-th call of
    [getBackoffInterval] after a reset returns [b * 2^min(k, m)]: the
    first interval is [2 * b] as soon as [m >= 1], and the first [m + 1]
    intervals sum to [b * (3 * 2^m - 2)] (94 for [b = 1], [m = 5]). *)
Theorem backoff_after_reset (q : IoQueue) :
  _loadBalancePollIntervalBackoffPolicy q = Exponential ->
  backoffInRange q ->
  _loadBalanceBackoffNum q = 0 ->
  let b := _loadBalancePollIntervalMs q in
  let m := _loadBalancePollIntervalNumBackoffs q in
  (forall k : nat,
     intervals k q
     = Some (map (fun i : nat => b * 2 ^ Z.min (Z.of_nat i) m) (seq 1 k)))
  /\
  (exists l, intervals (Z.to_nat m + 1) q = Some l
             /\ sumZ l = b * (3 * 2 ^ m - 2)).
Proof.
  intros HP HR H0 b m.
  assert (F : forall k : nat,
            intervals k q
            = Some (map (fun i : nat => b * 2 ^ Z.min (Z.of_nat i) m)
                      (seq 1 k))).
  { intros k. rewrite (intervals_closed_form k q HR), HP, H0. reflexivity. }
  split; [exact F|].
  eexists. split; [apply F|].
  destruct HR as (_ & Hn & _). fold m in Hn. rewrite H0 in Hn.
  rewrite Nat.add_comm. change (1 + Z.to_nat m)%nat with (S (Z.to_nat m)).
  rewrite seq_S, map_app, sumZ_app, sum_doubling by lia.
  simpl map. simpl sumZ. rewrite Z.min_r by lia.
  rewrite Z2Nat.id by lia.
  replace (m + 1) with (Z.succ m) by lia.
  rewrite Z.pow_succ_r by lia. ring.
Qed.

(** One call, within range whatever the policy: the counter moves one
    step unless it has reached its cap, and the interval is the one of
    the new count. *)
Lemma getBackoffInterval_within (q : IoQueue) :
  intervalsInRange q ->
  let n' := if _loadBalanceBackoffNum q
               <? _loadBalancePollIntervalNumBackoffs q
            then _loadBalanceBackoffNum q + 1
            else _loadBalanceBackoffNum q in
  getBackoffInterval q
  = Some (intervalAt (_loadBalancePollIntervalBackoffPolicy q)
            (_loadBalancePollIntervalMs q) n',
          set_loadBalanceBackoffNum n' q) /\
  intervalsInRange (set_loadBalanceBackoffNum n' q).
Proof.
  intros (Hb & Hn & Hm & He & Hr). cbv zeta in *.
  set (top := Z.max (_loadBalanceBackoffNum q)
                    (_loadBalancePollIntervalNumBackoffs q)) in *.
  unfold getBackoffInterval.
  destruct (Z.ltb_spec (_loadBalanceBackoffNum q)
              (_loadBalancePollIntervalNumBackoffs q)) as [Hlt|Hge].
  - assert (Hn' : 0 <= _loadBalanceBackoffNum q + 1 <= top)
      by (unfold top; lia).
    pose proof (intervalAt_mono (_loadBalancePollIntervalBackoffPolicy q)
                  _ _ _ Hb Hn') as Hle.
    pose proof (intervalAt_nonneg (_loadBalancePollIntervalBackoffPolicy q)
                  _ _ Hb (proj1 Hn')) as H0.
    split.
    + simpl. destruct (_loadBalancePollIntervalBackoffPolicy q) eqn:P;
        simpl in *.
      * rewrite to_int64_small by lia. f_equal. f_equal. lia.
      * specialize (He eq_refl). unfold exp2_size_t.
        destruct (Z.ltb_spec (_loadBalanceBackoffNum q + 1) 64); [|lia].
        rewrite to_int64_small by lia. reflexivity.
    + unfold intervalsInRange. simpl.
      replace (Z.max (_loadBalanceBackoffNum q + 1)
                 (_loadBalancePollIntervalNumBackoffs q)) with top
        by (unfold top; lia).
      repeat split; auto; lia.
  - assert (Hn' : 0 <= _loadBalanceBackoffNum q <= top) by (unfold top; lia).
    pose proof (intervalAt_mono (_loadBalancePollIntervalBackoffPolicy q)
                  _ _ _ Hb Hn') as Hle.
    pose proof (intervalAt_nonneg (_loadBalancePollIntervalBackoffPolicy q)
                  _ _ Hb Hn) as H0.
    assert (Eq : set_loadBalanceBackoffNum (_loadBalanceBackoffNum q) q = q)
      by (destruct q; reflexivity).
    rewrite Eq. split.
    + destruct (_loadBalancePollIntervalBackoffPolicy q) eqn:P; simpl in *.
      * rewrite to_int64_small by lia. f_equal. f_equal. lia.
      * specialize (He eq_refl). unfold exp2_size_t.
        destruct (Z.ltb_spec (_loadBalanceBackoffNum q) 64); [|lia].
        rewrite to_int64_small by lia. reflexivity.
    + unfold intervalsInRange. fold top. auto.
Qed.

(** The intervals of [k] calls in a row, whatever the policy and the
    state of the counter: the count after [i] calls is the counter
    advanced by [i] but held at the cap, or the counter itself if it is
    past the cap already. *)
Lemma intervals_within (k : nat) :
  forall q : IoQueue,
    intervalsInRange q ->
    intervals k q
    = Some (map (fun i : nat =>
                   intervalAt (_loadBalancePollIntervalBackoffPolicy q)
                     (_loadBalancePollIntervalMs q)
                     (Z.max (_loadBalanceBackoffNum q)
                        (Z.min (_loadBalanceBackoffNum q + Z.of_nat i)
                               (_loadBalancePollIntervalNumBackoffs q))))
              (seq 1 k)).
Proof.
  induction k as [|k IH]; intros q H; [reflexivity|].
  destruct (getBackoffInterval_within q H) as [E H'].
  cbv zeta in E, H'. simpl intervals. rewrite E, (IH _ H'). simpl.
  f_equal. f_equal.
  - f_equal.
    destruct (Z.ltb_spec (_loadBalanceBackoffNum q)
                (_loadBalancePollIntervalNumBackoffs q)); lia.
  - rewrite <- (seq_shift k 1), map_map.
    apply map_ext_in. intros i _. f_equal.
    destruct (Z.ltb_spec (_loadBalanceBackoffNum q)
                (_loadBalancePollIntervalNumBackoffs q)); lia.
Qed.

(** C9, as stated, fails: outside the range of the types the intervals
    wrap.  With base 1, the exponential policy and cap 63, the 62nd call
    returns [2^62] and the 63rd, whose product [2^63] does not fit the
    signed count of milliseconds, returns [-2^63]. *)
Lemma backoff_wraps_out_of_range :
  (exists l : list Z,
     intervals 63 (worker wideConfig) = Some l /\
     nth 61 l 0 = 2 ^ 62 /\ nth 62 l 0 = - 2 ^ 63)
  /\ ~ backoffNeverDecreases.
Proof.
  assert (R : exists l : list Z,
             intervals 63 (worker wideConfig) = Some l /\
             nth 61 l 0 = 2 ^ 62 /\ nth 62 l 0 = - 2 ^ 63).
  { eexists. split; [vm_compute; reflexivity|]. split; reflexivity. }
  split; [exact R|]. intros H.
  destruct R as (l & E & A & B).
  specialize (H (worker wideConfig) 63%nat l 61%nat 62%nat E
                ltac:(lia)).
  rewrite A, B in H. revert H. apply Z.lt_nge. reflexivity.
Qed.

(** C9, amended: for every setting within the range of the types (base
    not negative, largest interval below [2^63] ms, and for the
    exponential policy a cap below 64), both policies and any state of
    the counter, the intervals of successive calls with no reset in
    between never decrease, and are all equal from the call at which the
    step counter reaches its cap. *)
Theorem backoff_monotone (q : IoQueue) (k : nat) :
  intervalsInRange q ->
  exists l,
    intervals k q = Some l /\
    length l = k /\
    (forall i j : nat, (i <= j < k)%nat -> nth i l 0 <= nth j l 0) /\
    (forall i j : nat,
       _loadBalancePollIntervalNumBackoffs q
       <= _loadBalanceBackoffNum q + Z.of_nat i + 1 ->
       (i <= j < k)%nat -> nth i l 0 = nth j l 0).
Proof.
  intros HR. eexists. split; [apply (intervals_within k q HR)|].
  set (f := fun i : nat =>
              intervalAt (_loadBalancePollIntervalBackoffPolicy q)
                (_loadBalancePollIntervalMs q)
                (Z.max (_loadBalanceBackoffNum q)
                   (Z.min (_loadBalanceBackoffNum q + Z.of_nat i)
                          (_loadBalancePollIntervalNumBackoffs q)))).
  assert (N : forall i : nat, (i < k)%nat ->
                nth i (map f (seq 1 k)) 0 = f (S i)).
  { intros i Hi.
    rewrite (nth_indep _ 0 (f O)) by (rewrite length_map, length_seq; lia).
    rewrite map_nth, seq_nth by lia. reflexivity. }
  destruct HR as (Hb & Hn & Hm & _).
  split; [|split].
  - now rewrite length_map, length_seq.
  - intros i j Hij. rewrite !N by lia. unfold f.
    apply intervalAt_mono; lia.
  - intros i j Hs Hij. rewrite !N by lia. unfold f.
    f_equal. lia.
Qed.

(** ** Spinlocks *)

Lemma QueueRef_eqb_refl (r : QueueRef) : QueueRef_eqb r r = true.
Proof. destruct r; simpl; [reflexivity|apply Nat.eqb_refl]. Qed.

Lemma heldAfter_app (e1 e2 : list LockEvent) :
  forall held, heldAfter held (e1 ++ e2) = heldAfter (heldAfter held e1) e2.
Proof. induction e1 as [|e e1 IH]; intros held; simpl; [reflexivity|apply IH]. Qed.

Lemma maxHeld_ge (evs : list LockEvent) :
  forall held, (length held <= maxHeld held evs)%nat.
Proof. destruct evs; intros held; simpl; lia. Qed.

Lemma maxHeld_app (e1 e2 : list LockEvent) :
  forall held,
    maxHeld held (e1 ++ e2)
    = Nat.max (maxHeld held e1) (maxHeld (heldAfter held e1) e2).
Proof.
  induction e1 as [|e e1 IH]; intros held; simpl.
  - pose proof (maxHeld_ge e2 held). lia.
  - rewrite IH. lia.
Qed.

Lemma bind_Ok {A B : Type} (c : M A) (k : A -> M B) (p p' : Pool) (b : B) :
  bind c k p = Ok b p' ->
  exists a p1, c p = Ok a p1 /\ k a p1 = Ok b p'.
Proof.
  unfold bind. destruct (c p) as [a p1| |]; try discriminate. eauto.
Qed.

Lemma quiet_ret {A : Type} (a : A) : quiet (ret a).
Proof. intros p p' a' [= _ <-]. reflexivity. Qed.

Lemma quiet_bind {A B : Type} (c : M A) (k : A -> M B) :
  quiet c -> (forall a, quiet (k a)) -> quiet (bind c k).
Proof.
  intros Hc Hk p p' b H. apply bind_Ok in H as (a & p1 & H1 & H2).
  rewrite (Hk _ _ _ _ H2). eapply Hc, H1.
Qed.

Lemma quiet_getQ (r : QueueRef) : quiet (getQ r).
Proof.
  intros p p' a. unfold getQ. destruct (queueAt r p); [|discriminate].
  intros [= _ <-]. reflexivity.
Qed.

Lemma quiet_putQ (r : QueueRef) (q : IoQueue) : quiet (putQ r q).
Proof.
  intros p p' a. unfold putQ. destruct (queueAt r p); [|discriminate].
  intros E. inversion E; subst. destruct r; reflexivity.
Qed.

Lemma quiet_modifyQ (r : QueueRef) (f : IoQueue -> IoQueue) :
  quiet (modifyQ r f).
Proof.
  apply quiet_bind; [apply quiet_getQ|]. intros q. apply quiet_putQ.
Qed.

Lemma quiet_doDequeueAt (r h : QueueRef) : quiet (doDequeueAt r h).
Proof.
  unfold doDequeueAt. apply quiet_bind; [apply quiet_getQ|]. intros q.
  destruct (doDequeue q) as [[hint task] q'].
  apply quiet_bind; [apply quiet_putQ|]. intros _.
  apply quiet_bind; [apply quiet_modifyQ|]. intros _. apply quiet_ret.
Qed.

Lemma quiet_modify (f : Pool -> Pool) :
  (forall p, lockLog (f p) = lockLog p) -> quiet (modify f).
Proof. intros H p p' a E. inversion E; subst. apply H. Qed.

Lemma quiet_read {A : Type} (f : Pool -> A) : quiet (fun p => Ok (f p) p).
Proof. intros p p' a [= _ <-]. reflexivity. Qed.

Lemma brief_quiet {A : Type} (c : M A) : quiet c -> brief c.
Proof.
  intros H p p' a E. exists []. rewrite (H _ _ _ E), app_nil_r.
  simpl. auto.
Qed.

Lemma brief_bind {A B : Type} (c : M A) (k : A -> M B) :
  brief c -> (forall a, brief (k a)) -> brief (bind c k).
Proof.
  intros Hc Hk p p' b H. apply bind_Ok in H as (a & p1 & H1 & H2).
  destruct (Hc _ _ _ H1) as (e1 & L1 & A1 & M1).
  destruct (Hk _ _ _ _ H2) as (e2 & L2 & A2 & M2).
  exists (e1 ++ e2). split; [|split].
  - rewrite L2, L1. now rewrite app_assoc.
  - now rewrite heldAfter_app, A1.
  - rewrite maxHeld_app, A1. lia.
Qed.

(** Taking the spinlock of [r] around a call that takes none. *)
Lemma brief_locked {A : Type} (r : QueueRef) (c : M A) :
  quiet c -> brief (lock r ;; a <- c ;; unlock r ;; ret a).
Proof.
  intros Hc p p' a H.
  apply bind_Ok in H as ([] & p1 & H1 & H).
  apply bind_Ok in H as (a1 & p2 & H2 & H).
  apply bind_Ok in H as ([] & p3 & H3 & H).
  injection H as <- <-.
  unfold lock in H1. apply bind_Ok in H1 as (q & p0 & G & H1).
  apply quiet_getQ in G. injection H1 as <-.
  apply Hc in H2. injection H3 as <-.
  exists [Acquire r; Release r]. split; [|split].
  - simpl. rewrite H2. simpl. rewrite G, <- app_assoc. reflexivity.
  - simpl. now rewrite QueueRef_eqb_refl.
  - simpl. rewrite QueueRef_eqb_refl. simpl. lia.
Qed.

Lemma brief_dequeue (r h : QueueRef) : brief (dequeue r h).
Proof.
  unfold dequeue. apply brief_bind; [apply brief_quiet, quiet_getQ|].
  intros q. destruct (_loadBalanceSharedIoQueues q).
  - apply brief_locked, quiet_doDequeueAt.
  - apply brief_quiet, quiet_doDequeueAt.
Qed.

Lemma brief_tryDequeue (r h : QueueRef) : brief (tryDequeue r h).
Proof.
  intros p p' a H. unfold tryDequeue in H.
  apply bind_Ok in H as (owns & p1 & H1 & H).
  unfold try_lock in H1. apply bind_Ok in H1 as (q & p0 & G & H1).
  apply quiet_getQ in G.
  assert (C : (owns = false /\ lockLog p1 = lockLog p) \/
              (owns = true /\ lockLog p1 = lockLog p ++ [Acquire r])).
  { destruct (busy p0) as [|[|] rest]; injection H1 as <- <-; simpl;
      rewrite G; auto. }
  destruct C as [[-> L]|[-> L]].
  - injection H as <- <-. exists []. rewrite L, app_nil_r. simpl. auto.
  - apply bind_Ok in H as (task & p2 & H2 & H).
    apply quiet_doDequeueAt in H2.
    apply bind_Ok in H as ([] & p3 & H3 & H). injection H3 as <-.
    injection H as <- <-.
    exists [Acquire r; Release r]. split; [|split].
    + simpl. rewrite H2, L, <- app_assoc. reflexivity.
    + simpl. now rewrite QueueRef_eqb_refl.
    + simpl. rewrite QueueRef_eqb_refl. simpl. lia.
Qed.

Lemma brief_scanShared (n : nat) : forall size0, brief (scanShared n size0).
Proof.
  induction n as [|n IH]; intros size0; simpl.
  - apply brief_quiet, quiet_ret.
  - apply brief_bind; [apply brief_quiet, quiet_modify; reflexivity|].
    intros _. apply brief_bind; [apply brief_quiet, quiet_read|].
    intros i. apply brief_bind; [apply brief_quiet, quiet_getQ|].
    intros queue. apply brief_bind; [apply brief_tryDequeue|].
    intros [t|]; [apply brief_quiet, quiet_ret|apply IH].
Qed.

Lemma brief_tryDequeueFromShared (fuel : nat) :
  brief (tryDequeueFromShared fuel).
Proof.
  induction fuel as [|fuel IH]; simpl.
  - intros p p' a H. discriminate H.
  - apply brief_bind; [apply brief_quiet, quiet_read|].
    intros n. apply brief_bind; [apply brief_scanShared|].
    intros [[t|] size1]; [apply brief_quiet, quiet_ret|].
    destruct (size1 =? 0); [apply brief_quiet, quiet_ret|apply IH].
Qed.

Lemma brief_grabWorkItemFromAll (fuel : nat) :
  brief (grabWorkItemFromAll fuel).
Proof.
  unfold grabWorkItemFromAll.
  apply brief_bind; [apply brief_quiet, quiet_modify; reflexivity|].
  intros _. apply brief_bind; [apply brief_quiet, quiet_read|].
  intros [|].
  - apply brief_bind; [apply brief_tryDequeueFromShared|].
    intros [t|]; [apply brief_quiet, quiet_ret|apply brief_dequeue].
  - apply brief_bind; [apply brief_dequeue|].
    intros [t|]; [apply brief_quiet, quiet_ret|].
    apply brief_tryDequeueFromShared.
Qed.

(** C3, as stated, fails for [grabWorkItem]: when the first queue it
    turns to is empty, it takes the spinlock of the second while the
    guard of the first is still in scope.  With both queues empty the
    events are: acquire shared, acquire own, release own, release
    shared. *)
Lemma grabWorkItem_holds_two_spinlocks :
  (exists p' : Pool,
     grabWorkItem idlePool = Ok None p' /\
     lockLog p'
     = [Acquire (Shared 0); Acquire This; Release This; Release (Shared 0)])
  /\ ~ oneLockAtATime grabWorkItem.
Proof.
  split; [eexists; split; reflexivity|].
  intros H.
  destruct (H idlePool _ _ eq_refl) as (evs & L & Hmax).
  simpl in L. subst evs. vm_compute in Hmax. lia.
Qed.

(** C3, amended: in the load-balanced selection ([grabWorkItemFromAll],
    with the scan of the shared queues) at most one spinlock is held at
    any time, each being released before the next is tried.  In
    [grabWorkItem] the spinlock of the first queue is held for the whole
    call: if that queue hands out a task it is the only one taken; if
    not, the spinlock of the second queue is taken and released while
    the first is still held, so two are held at once, and never more. *)
Theorem spinlocks_held (p : Pool) :
  (forall fuel : nat, oneLockAtATime (grabWorkItemFromAll fuel)) /\
  (forall first shared0 : IoQueue,
     _loadBalanceSharedIoQueues (this p) = false ->
     queueAt (Shared 0) p = Some shared0 ->
     _loadBalanceSharedIoQueues shared0 = false ->
     queueAt (firstTarget (grabWorkItem_grabFromShared p)) p = Some first ->
     exists task p' evs,
       grabWorkItem p = Ok task p' /\
       lockLog p' = lockLog p ++ evs /\
       heldAfter [] evs = [] /\
       (maxHeld [] evs <= 2)%nat /\
       evs = (if list_empty (_queue first)
              then [Acquire (firstTarget (grabWorkItem_grabFromShared p));
                    Acquire (secondTarget (grabWorkItem_grabFromShared p));
                    Release (secondTarget (grabWorkItem_grabFromShared p));
                    Release (firstTarget (grabWorkItem_grabFromShared p))]
              else [Acquire (firstTarget (grabWorkItem_grabFromShared p));
                    Release (firstTarget (grabWorkItem_grabFromShared p))]) /\
       (list_empty (_queue first) = true -> maxHeld [] evs = 2%nat)).
Proof.
  split.
  - intros fuel p0 p' a H.
    destruct (brief_grabWorkItemFromAll fuel _ _ _ H) as (evs & L & _ & Hm).
    eauto.
  - intros first shared0 HL H0 HL0 HF.
    destruct p as [w sh g g2 ix bz ll sl rl]. simpl in *.
    destruct sh as [|s rest]; [discriminate|]. injection H0 as ->.
    destruct w as [wp wlb wms wpol wnb wn wth wq we wi widle wt wst].
    destruct shared0 as [sp slb sms spol snb sn sth sq se si sidle st sst].
    simpl in *. subst wlb slb.
    destruct g; simpl in HF; injection HF as <-; simpl.
    + destruct wq as [|t wq]; [destruct sq as [|t' sq]|];
        do 3 eexists; (split; [reflexivity|]); simpl;
        (split; [rewrite <- ?app_assoc; reflexivity|]);
        repeat split; try (intros; discriminate); simpl; lia.
    + destruct sq as [|t sq]; [destruct wq as [|t' wq]|];
        do 3 eexists; (split; [reflexivity|]); simpl;
        (split; [rewrite <- ?app_assoc; reflexivity|]);
        repeat split; try (intros; discriminate); simpl; lia.
Qed.

(** ** The scan of the shared queues *)

(** One [tryDequeue] on a shared queue: the spinlock is busy, or the
    queue is empty, or its first task is taken. *)
Lemma tryDequeue_shared (i : nat) (p : Pool) (q : IoQueue) :
  sharedIoQueues p !! i = Some q ->
  exists r p',
    tryDequeue (Shared i) This p = Ok r p' /\
    (length (busy p') <= length (busy p))%nat /\
    tryDequeueFromShared_index p' = tryDequeueFromShared_index p /\
    ((r = None /\ sharedIoQueues p' = sharedIoQueues p /\
      ((length (busy p') < length (busy p))%nat \/ _queue q = []))
     \/
     (exists t rest,
        r = Some t /\ _queue q = t :: rest /\
        sharedIoQueues p' = <[i := popped rest q]> (sharedIoQueues p))).
Proof.
  intros H.
  destruct p as [w sh g g2 ix bz ll sl rl]. simpl in H.
  unfold tryDequeue, try_lock, bind, getQ. simpl. rewrite H.
  destruct bz as [|[|] bz]; simpl.
  - unfold doDequeueAt, bind, getQ. simpl. rewrite H.
    destruct (_queue q) as [|t rest] eqn:E.
    + rewrite (doDequeue_nil q E). unfold putQ. simpl. rewrite H. simpl.
      do 2 eexists. split; [reflexivity|]. simpl.
      rewrite (list_insert_id _ _ _ H). auto 10.
    + rewrite (doDequeue_cons q t rest E). unfold putQ. simpl. rewrite H.
      simpl. do 2 eexists. split; [reflexivity|]. simpl.
      split; [lia|]. split; [reflexivity|]. right. eauto.
  - do 2 eexists. split; [reflexivity|]. simpl.
    split; [lia|]. split; [reflexivity|]. left. auto with lia.
  - unfold doDequeueAt, bind, getQ. simpl. rewrite H.
    destruct (_queue q) as [|t rest] eqn:E.
    + rewrite (doDequeue_nil q E). unfold putQ. simpl. rewrite H. simpl.
      do 2 eexists. split; [reflexivity|]. simpl.
      rewrite (list_insert_id _ _ _ H). auto 10 with lia.
    + rewrite (doDequeue_cons q t rest E). unfold putQ. simpl. rewrite H.
      simpl. do 2 eexists. split; [reflexivity|]. simpl.
      split; [lia|]. split; [reflexivity|]. right. eauto.
Qed.

(** One round of the [for] loop: the index is advanced, the size of the
    queue it selects is added, and [tryDequeue] is called on it. *)
Lemma scanShared_step (n : nat) (size0 : Z) (p : Pool) :
  sharedIoQueues p <> [] ->
  exists (i : nat) (q : IoQueue) (p1 : Pool),
    sharedIoQueues p !! i = Some q /\
    sharedIoQueues p1 = sharedIoQueues p /\
    busy p1 = busy p /\
    scanShared (S n) size0 p
    = (task <- tryDequeue (Shared i) This ;;
       match task with
       | Some _ => ret (task, to_size_t (size0 + size q))
       | None => scanShared n (to_size_t (size0 + size q))
       end) p1.
Proof.
  intros Hne.
  set (p1 := set_tryDequeueFromShared_index
               (to_size_t (tryDequeueFromShared_index p + 1)) p).
  set (i := Z.to_nat (tryDequeueFromShared_index p1
                      mod Z.of_nat (length (sharedIoQueues p1)))).
  assert (Hi : (i < length (sharedIoQueues p))%nat).
  { unfold i. simpl.
    assert (0 < Z.of_nat (length (sharedIoQueues p))).
    { destruct (sharedIoQueues p); [congruence|simpl; lia]. }
    pose proof (Z.mod_pos_bound
                  (to_size_t (tryDequeueFromShared_index p + 1))
                  (Z.of_nat (length (sharedIoQueues p))) H). lia. }
  destruct (lookup_lt_is_Some_2 _ _ Hi) as [q Hq].
  exists i, q, p1. repeat split; try assumption.
  simpl scanShared. unfold bind at 1. unfold modify. fold p1.
  unfold bind at 1. fold i.
  unfold bind at 1. unfold getQ. simpl queueAt.
  change (sharedIoQueues p1) with (sharedIoQueues p). rewrite Hq.
  reflexivity.
Qed.

(** What a scan does: it runs to its end, uses up part of [busy], and
    either takes the first task of one shared queue, or leaves them all
    as they were. *)
Lemma scanShared_result (n : nat) :
  forall (size0 : Z) (p : Pool),
    n = O \/ sharedIoQueues p <> [] ->
    exists r size1 p',
      scanShared n size0 p = Ok (r, size1) p' /\
      (length (busy p') <= length (busy p))%nat /\
      match r with
      | None =>
          sharedIoQueues p' = sharedIoQueues p /\
          (sharedIdle p -> 0 <= size0 < 2 ^ 64 -> size1 <> size0 ->
           (length (busy p') < length (busy p))%nat)
      | Some t =>
          exists i q rest,
            sharedIoQueues p !! i = Some q /\ _queue q = t :: rest /\
            sharedIoQueues p' = <[i := popped rest q]> (sharedIoQueues p)
      end.
Proof.
  induction n as [|n IH]; intros size0 p Hn.
  - exists None, size0, p. simpl. repeat split; try reflexivity; try lia.
  - destruct Hn as [Hn|Hne]; [discriminate|].
    destruct (scanShared_step n size0 p Hne) as (i & q & p1 & Hq & S1 & B1 & E).
    rewrite E. rewrite <- S1 in Hq.
    destruct (tryDequeue_shared i p1 q Hq) as (r & p2 & T & B2 & _ & C).
    rewrite B1 in B2, C. unfold bind at 1. rewrite T.
    destruct C as [(-> & S2 & C)|(t & rest & -> & Q & S2)].
    + assert (Hne2 : n = O \/ sharedIoQueues p2 <> [])
        by (right; congruence).
      destruct (IH (to_size_t (size0 + size q)) p2 Hne2)
        as (r & size1 & p' & R & B3 & C3).
      exists r, size1, p'. split; [exact R|]. split; [lia|].
      destruct r as [t|].
      * destruct C3 as (j & qj & rest & L & Q & S3).
        exists j, qj, rest. rewrite <- S1, <- S2. auto.
      * destruct C3 as [S3 C3]. split; [congruence|].
        intros Idle Hs Hd.
        destruct C as [C|C]; [lia|].
        assert (Iq : _isIdle q = true).
        { rewrite S1 in Hq. unfold sharedIdle in Idle.
          rewrite Forall_lookup in Idle. apply (Idle i q Hq). }
        assert (Z0 : to_size_t (size0 + size q) = size0).
        { unfold size. rewrite Iq, C. simpl. unfold to_size_t.
          rewrite Z.add_0_r. apply Z.mod_small. lia. }
        rewrite Z0 in C3.
        assert (Idle2 : sharedIdle p2)
          by (unfold sharedIdle; rewrite S2, S1; exact Idle).
        specialize (C3 Idle2 Hs Hd). lia.
    + exists (Some t), (to_size_t (size0 + size q)), p2.
      split; [reflexivity|]. split; [lia|].
      exists i, q, rest. rewrite <- S1. auto.
Qed.

Lemma tryDequeueFromShared_unfold (fuel : nat) (p : Pool) :
  tryDequeueFromShared (S fuel) p
  = match scanShared (length (sharedIoQueues p)) 0 p with
    | Ok (Some task, _) p1 => Ok (Some task) p1
    | Ok (None, size1) p1 =>
        if size1 =? 0 then Ok None p1 else tryDequeueFromShared fuel p1
    | Undefined => Undefined
    | OutOfFuel => OutOfFuel
    end.
Proof.
  simpl. unfold bind.
  destruct (scanShared (length (sharedIoQueues p)) 0 p)
    as [[[t|] size1] p1| |]; try reflexivity.
  destruct (size1 =? 0); reflexivity.
Qed.

Lemma scan_may_start (p : Pool) :
  length (sharedIoQueues p) = O \/ sharedIoQueues p <> [].
Proof. destruct (sharedIoQueues p); [left; reflexivity|right; congruence]. Qed.

(** With nothing in flight on the shared queues, every scan that makes
    [tryDequeueFromShared] go round again has met a busy spinlock, so the
    recursion ends once the contention does. *)
Lemma tryDequeueFromShared_returns (fuel : nat) :
  forall p : Pool,
    sharedIdle p ->
    (length (busy p) < fuel)%nat ->
    exists r p', tryDequeueFromShared fuel p = Ok r p'.
Proof.
  induction fuel as [|fuel IH]; intros p Idle Hf; [lia|].
  rewrite tryDequeueFromShared_unfold.
  destruct (scanShared_result _ 0 p (scan_may_start p))
    as (r & size1 & p1 & E & B & C).
  rewrite E. destruct r as [t|]; [eauto|].
  destruct C as [S1 C].
  destruct (Z.eqb_spec size1 0) as [Z0|NZ]; [eauto|].
  apply IH.
  - unfold sharedIdle. rewrite S1. exact Idle.
  - specialize (C Idle ltac:(lia) NZ). lia.
Qed.

(** One round of the [for] loop, with the queue it selects and the index
    it leaves. *)
Lemma scanShared_round (n : nat) (size0 : Z) (p : Pool) :
  sharedIoQueues p <> [] ->
  exists (q : IoQueue) (p1 : Pool),
    let i := Z.to_nat (to_size_t (tryDequeueFromShared_index p + 1)
                       mod Z.of_nat (length (sharedIoQueues p))) in
    sharedIoQueues p !! i = Some q /\
    sharedIoQueues p1 = sharedIoQueues p /\
    busy p1 = busy p /\
    tryDequeueFromShared_index p1
    = to_size_t (tryDequeueFromShared_index p + 1) /\
    scanShared (S n) size0 p
    = (task <- tryDequeue (Shared i) This ;;
       match task with
       | Some _ => ret (task, to_size_t (size0 + size q))
       | None => scanShared n (to_size_t (size0 + size q))
       end) p1.
Proof.
  intros Hne.
  set (p1 := set_tryDequeueFromShared_index
               (to_size_t (tryDequeueFromShared_index p + 1)) p).
  set (i := Z.to_nat (to_size_t (tryDequeueFromShared_index p + 1)
                      mod Z.of_nat (length (sharedIoQueues p)))).
  assert (Hi : (i < length (sharedIoQueues p))%nat).
  { unfold i.
    assert (0 < Z.of_nat (length (sharedIoQueues p))).
    { destruct (sharedIoQueues p); [congruence|simpl; lia]. }
    pose proof (Z.mod_pos_bound
                  (to_size_t (tryDequeueFromShared_index p + 1))
                  (Z.of_nat (length (sharedIoQueues p))) H). lia. }
  destruct (lookup_lt_is_Some_2 _ _ Hi) as [q Hq].
  exists q, p1. cbv zeta. fold i. repeat split; try assumption.
  cbn [scanShared]. unfold bind at 1. unfold modify. fold p1.
  unfold bind at 1.
  change (tryDequeueFromShared_index p1)
    with (to_size_t (tryDequeueFromShared_index p + 1)).
  change (sharedIoQueues p1) with (sharedIoQueues p). fold i.
  unfold bind at 1. unfold getQ. cbn [queueAt].
  change (sharedIoQueues p1) with (sharedIoQueues p). rewrite Hq.
  reflexivity.
Qed.

(** The index after a scan that found no task. *)
Lemma scanShared_index (n : nat) :
  forall (size0 size1 : Z) (p p' : Pool),
    n = O \/ sharedIoQueues p <> [] ->
    scanShared n size0 p = Ok (None, size1) p' ->
    tryDequeueFromShared_index p'
    = match n with
      | O => tryDequeueFromShared_index p
      | S _ => to_size_t (tryDequeueFromShared_index p + Z.of_nat n)
      end.
Proof.
  induction n as [|n IH]; intros size0 size1 p p' Hn E.
  - inversion E; subst. reflexivity.
  - destruct Hn as [Hn|Hne]; [discriminate|].
    destruct (scanShared_round n size0 p Hne)
      as (q & p1 & Hq & S1 & B1 & I1 & R).
    cbv zeta in Hq, R.
    set (i := Z.to_nat (to_size_t (tryDequeueFromShared_index p + 1)
                        mod Z.of_nat (length (sharedIoQueues p)))) in *.
    rewrite R in E.
    assert (Hq1 : sharedIoQueues p1 !! i = Some q) by (rewrite S1; exact Hq).
    destruct (tryDequeue_shared i p1 q Hq1) as (r & p2 & T & _ & I2 & C).
    unfold bind at 1 in E. rewrite T in E.
    destruct C as [(-> & S2 & _)|(t & rest & -> & _)];
      [|inversion E].
    assert (Hn2 : n = O \/ sharedIoQueues p2 <> [])
      by (right; congruence).
    rewrite (IH _ _ _ _ Hn2 E), I2, I1.
    destruct n as [|n]; [reflexivity|].
    unfold to_size_t. rewrite Zplus_mod_idemp_l. f_equal. lia.
Qed.

(** What a call that returns has done to the shared queues. *)
Lemma tryDequeueFromShared_shared (fuel : nat) :
  forall (p p' : Pool) (r : option IoTask),
    tryDequeueFromShared fuel p = Ok r p' ->
    match r with
    | None => sharedIoQueues p' = sharedIoQueues p
    | Some t =>
        exists i q rest,
          sharedIoQueues p !! i = Some q /\ _queue q = t :: rest /\
          sharedIoQueues p' = <[i := popped rest q]> (sharedIoQueues p)
    end.
Proof.
  induction fuel as [|fuel IH]; intros p p' r E; [discriminate|].
  rewrite tryDequeueFromShared_unfold in E.
  destruct (scanShared_result _ 0 p (scan_may_start p))
    as (r1 & size1 & p1 & S & _ & C).
  rewrite S in E. destruct r1 as [t|].
  - injection E as <- <-. exact C.
  - destruct C as [S1 _]. destruct (size1 =? 0).
    + injection E as <- <-. exact S1.
    + apply IH in E. rewrite S1 in E. exact E.
Qed.

(** [size()] counts the pending tasks, and one more for a task in
    flight. *)
Lemma size_nonneg (q : IoQueue) : 0 <= size q.
Proof. unfold size. destruct (_isIdle q); lia. Qed.

Lemma size_zero (q : IoQueue) :
  size q = 0 <-> _queue q = [] /\ _isIdle q = true.
Proof.
  unfold size. destruct (_isIdle q), (_queue q) as [|t l]; simpl length;
    split; try (intros [? ?]); try tauto; try discriminate; try lia.
Qed.

Lemma sumZ_Permutation (l l' : list Z) :
  Permutation l l' -> sumZ l = sumZ l'.
Proof.
  induction 1 as [|x l l' _ IH|x y l|l l' l'' _ IH1 _ IH2];
    unfold sumZ in *; simpl; lia.
Qed.

Lemma sumZ_sizes_nonneg (sh : list IoQueue) : 0 <= sumZ (map size sh).
Proof.
  induction sh as [|q sh IH]; [reflexivity|].
  unfold sumZ in *. simpl. pose proof (size_nonneg q). lia.
Qed.

Lemma sumZ_sizes_zero (sh : list IoQueue) :
  sumZ (map size sh) = 0 ->
  Forall (fun q => _queue q = [] /\ _isIdle q = true) sh.
Proof.
  induction sh as [|q sh IH]; intros H; [constructor|].
  pose proof (size_nonneg q). pose proof (sumZ_sizes_nonneg sh).
  change (size q + sumZ (map size sh) = 0) in H.
  constructor; [apply size_zero; lia|apply IH; lia].
Qed.

Lemma sizeAt_seq (sh : list IoQueue) :
  map (sizeAt sh) (seq 0 (length sh)) = map size sh.
Proof.
  induction sh as [|q sh IH]; [reflexivity|].
  simpl length. rewrite <- cons_seq, <- (seq_shift (length sh) 0).
  cbn [map]. rewrite map_map. f_equal. exact IH.
Qed.

(** Away from the wrap of the index a scan tries the queues in their
    order, starting after the one the index stands at. *)
Lemma visited_closed (len n : nat) :
  forall idx : Z,
    0 <= idx -> idx + Z.of_nat n < 2 ^ 64 ->
    visited n idx len
    = map (fun k => Z.to_nat ((idx + Z.of_nat k) mod Z.of_nat len))
        (seq 1 n).
Proof.
  induction n as [|n IH]; intros idx H0 H1; [reflexivity|].
  assert (E : to_size_t (idx + 1) = idx + 1)
    by (unfold to_size_t; apply Z.mod_small; lia).
  simpl visited. rewrite E, IH by lia.
  rewrite <- cons_seq, <- (seq_shift n 1). cbn [map]. rewrite map_map.
  f_equal. apply map_ext. intros k. do 2 f_equal. lia.
Qed.

(** A full scan tries every shared queue once. *)
Lemma visited_full (len : nat) (idx : Z) :
  0 <= idx -> idx + Z.of_nat len < 2 ^ 64 ->
  Permutation (visited len idx len) (seq 0 len).
Proof.
  intros H0 H1. rewrite (visited_closed len len idx H0 H1).
  destruct len as [|m]; [reflexivity|].
  set (L := Z.of_nat (S m)) in *.
  assert (HL : 0 < L) by (unfold L; lia).
  apply NoDup_Permutation_bis.
  - apply NoDup_map_NoDup_ForallPairs; [|apply seq_NoDup].
    intros a b Ha Hb Hab. apply in_seq in Ha, Hb.
    pose proof (Z.mod_pos_bound (idx + Z.of_nat a) L HL) as Ba.
    pose proof (Z.mod_pos_bound (idx + Z.of_nat b) L HL) as Bb.
    apply Z2Nat.inj in Hab; try lia.
    pose proof (Z.div_mod (idx + Z.of_nat a) L ltac:(lia)) as Da.
    pose proof (Z.div_mod (idx + Z.of_nat b) L ltac:(lia)) as Db.
    assert (Hd : (idx + Z.of_nat a) / L = (idx + Z.of_nat b) / L)
      by (unfold L in *; nia).
    rewrite Hd, Hab in Da. lia.
  - rewrite length_map, !length_seq. lia.
  - intros x Hx. apply in_map_iff in Hx as (k & <- & _).
    apply in_seq.
    pose proof (Z.mod_pos_bound (idx + Z.of_nat k) L HL). unfold L in *. lia.
Qed.

Lemma sizesSeen_full (p : Pool) :
  0 <= tryDequeueFromShared_index p ->
  tryDequeueFromShared_index p + Z.of_nat (length (sharedIoQueues p))
  < 2 ^ 64 ->
  sizesSeen (length (sharedIoQueues p)) p
  = sumZ (map size (sharedIoQueues p)).
Proof.
  intros H0 H1. unfold sizesSeen.
  rewrite <- sizeAt_seq. apply sumZ_Permutation, Permutation_map.
  apply visited_full; assumption.
Qed.

(** A scan that finds no task has added up what [size()] returns on
    every queue it tried. *)
Lemma scanShared_sizes (n : nat) :
  forall (size0 size1 : Z) (p p' : Pool),
    n = O \/ sharedIoQueues p <> [] ->
    0 <= size0 < 2 ^ 64 ->
    scanShared n size0 p = Ok (None, size1) p' ->
    size1 = to_size_t (size0 + sizesSeen n p).
Proof.
  induction n as [|n IH]; intros size0 size1 p p' Hn Hs E.
  - inversion E; subst. unfold sizesSeen, to_size_t. simpl.
    rewrite Z.add_0_r. symmetry. apply Z.mod_small. exact Hs.
  - destruct Hn as [Hn|Hne]; [discriminate|].
    destruct (scanShared_round n size0 p Hne)
      as (q & p1 & Hq & S1 & B1 & I1 & R).
    cbv zeta in Hq, R.
    set (i := Z.to_nat (to_size_t (tryDequeueFromShared_index p + 1)
                        mod Z.of_nat (length (sharedIoQueues p)))) in *.
    rewrite R in E.
    assert (Hq1 : sharedIoQueues p1 !! i = Some q) by (rewrite S1; exact Hq).
    destruct (tryDequeue_shared i p1 q Hq1) as (r & p2 & T & _ & I2 & C).
    unfold bind at 1 in E. rewrite T in E.
    destruct C as [(-> & S2 & _)|(t & rest & -> & _)];
      [|inversion E].
    assert (Hn2 : n = O \/ sharedIoQueues p2 <> [])
      by (right; congruence).
    assert (Hs2 : 0 <= to_size_t (size0 + size q) < 2 ^ 64)
      by (unfold to_size_t; apply Z.mod_pos_bound; lia).
    rewrite (IH _ _ _ _ Hn2 Hs2 E).
    unfold sizesSeen. rewrite S2, S1, I2, I1. simpl visited. fold i.
    simpl map. change (sumZ (?x :: ?l)) with (x + sumZ l).
    unfold sizeAt at 2. rewrite Hq.
    unfold to_size_t. rewrite Zplus_mod_idemp_l. f_equal. lia.
Qed.

(** No task is returned only when no shared queue holds one. *)
Lemma tryDequeueFromShared_none (fuel : nat) :
  forall p p' : Pool,
    scanInRange fuel p ->
    tryDequeueFromShared fuel p = Ok None p' ->
    Forall (fun q => _queue q = [] /\ _isIdle q = true) (sharedIoQueues p) /\
    sharedIoQueues p' = sharedIoQueues p.
Proof.
  induction fuel as [|fuel IH]; intros p p' (H0 & H1 & H2) E;
    [discriminate|].
  rewrite tryDequeueFromShared_unfold in E.
  destruct (scanShared_result (length (sharedIoQueues p)) 0 p
              (scan_may_start p))
    as (r & size1 & p1 & S & _ & C).
  rewrite S in E. destruct r as [t|]; [discriminate|].
  destruct C as [S1 _].
  assert (Hlen : tryDequeueFromShared_index p
                 + Z.of_nat (length (sharedIoQueues p)) < 2 ^ 64) by nia.
  destruct (Z.eqb_spec size1 0) as [->|NZ].
  - injection E as <-. split; [|exact S1].
    apply sumZ_sizes_zero.
    pose proof (scanShared_sizes _ 0 0 p p1 (scan_may_start p)
                  ltac:(lia) S) as A.
    rewrite (sizesSeen_full p H0 Hlen) in A. simpl in A.
    unfold to_size_t in A.
    pose proof (sumZ_sizes_nonneg (sharedIoQueues p)).
    rewrite Z.mod_small in A by lia. lia.
  - pose proof (scanShared_index _ 0 size1 p p1 (scan_may_start p) S) as I.
    assert (I' : tryDequeueFromShared_index p1
                 = tryDequeueFromShared_index p
                   + Z.of_nat (length (sharedIoQueues p))).
    { destruct (length (sharedIoQueues p)) as [|m] eqn:EL.
      - rewrite I. simpl. lia.
      - rewrite I. unfold to_size_t. apply Z.mod_small. lia. }
    assert (R1 : scanInRange fuel p1).
    { unfold scanInRange. rewrite S1, I'. repeat split; [lia|nia|exact H2]. }
    destruct (IH p1 p' R1 E) as [F S2]. rewrite S1 in F, S2. auto.
Qed.

(** C6: [tryDequeueFromShared] returns no task only from a full scan of
    the shared queues whose accumulated size is zero; a scan in which a
    [tryDequeue] succeeds ends the call with that task, the first of one
    of the shared queues; a scan in which none succeeds and the
    accumulated size is not zero is followed by another full scan.  With
    nothing in flight on the shared queues the call returns once the
    contention has passed.  The size a fruitless scan has accumulated is
    the sum, modulo [2^64], of what [size()] returns on the queues it
    tried; away from the wrap of the index and of the sum these are all
    the shared queues, once each, so that no task is returned only when
    every shared queue is empty and idle, and, with nothing in flight,
    exactly when no shared queue holds a task.  The scan is followed
    with the branch of [size()] of the default build; the branch for the
    old ABI returns the same on every shared queue whose element counter
    agrees with its list. *)
Theorem tryDequeueFromShared_spec :
  (forall (fuel : nat) (p p' : Pool),
     tryDequeueFromShared fuel p = Ok None p' ->
     exists p0,
       sharedIoQueues p0 = sharedIoQueues p /\
       scanShared (length (sharedIoQueues p0)) 0 p0 = Ok (None, 0) p')
  /\
  (forall (fuel : nat) (p p1 : Pool) (t : IoTask) (size1 : Z),
     scanShared (length (sharedIoQueues p)) 0 p = Ok (Some t, size1) p1 ->
     tryDequeueFromShared (S fuel) p = Ok (Some t) p1 /\
     exists i q rest,
       sharedIoQueues p !! i = Some q /\ _queue q = t :: rest /\
       sharedIoQueues p1 = <[i := popped rest q]> (sharedIoQueues p))
  /\
  (forall (fuel : nat) (p p1 : Pool) (size1 : Z),
     scanShared (length (sharedIoQueues p)) 0 p = Ok (None, size1) p1 ->
     size1 <> 0 ->
     tryDequeueFromShared (S fuel) p = tryDequeueFromShared fuel p1 /\
     sharedIoQueues p1 = sharedIoQueues p)
  /\
  (forall p : Pool,
     sharedIdle p ->
     exists r p', tryDequeueFromShared (S (length (busy p))) p = Ok r p')
  /\
  (forall (p p1 : Pool) (size1 : Z),
     scanShared (length (sharedIoQueues p)) 0 p = Ok (None, size1) p1 ->
     size1 = to_size_t (sizesSeen (length (sharedIoQueues p)) p) /\
     (scanInRange 1 p -> size1 = sumZ (map size (sharedIoQueues p))))
  /\
  (forall (fuel : nat) (p p' : Pool),
     scanInRange fuel p ->
     tryDequeueFromShared fuel p = Ok None p' ->
     Forall (fun q => _queue q = [] /\ _isIdle q = true) (sharedIoQueues p) /\
     sharedIoQueues p' = sharedIoQueues p)
  /\
  (forall p : Pool,
     sharedIdle p ->
     scanInRange (S (length (busy p))) p ->
     exists r p',
       tryDequeueFromShared (S (length (busy p))) p = Ok r p' /\
       (r = None <-> sharedEmpty p) /\
       match r with
       | None => sharedIoQueues p' = sharedIoQueues p
       | Some t =>
           exists i q rest,
             sharedIoQueues p !! i = Some q /\ _queue q = t :: rest /\
             sharedIoQueues p' = <[i := popped rest q]> (sharedIoQueues p)
       end)
  /\
  (forall (oldABI : bool) (p : Pool),
     Forall countsElements (sharedIoQueues p) ->
     map (sizeFor oldABI) (sharedIoQueues p) = map size (sharedIoQueues p)).
Proof.
  split; [|split; [|split; [|split; [|split; [|split; [|split]]]]]].
  - induction fuel as [|fuel IH]; intros p p' H; [discriminate|].
    rewrite tryDequeueFromShared_unfold in H.
    destruct (scanShared_result _ 0 p (scan_may_start p))
      as (r & size1 & p1 & E & _ & C).
    rewrite E in H. destruct r as [t|]; [discriminate|].
    destruct C as [S1 _].
    destruct (Z.eqb_spec size1 0) as [->|NZ].
    + injection H as <-. exists p. auto.
    + destruct (IH _ _ H) as (p0 & S0 & R). exists p0.
      split; [congruence|exact R].
  - intros fuel p p1 t size1 E.
    rewrite tryDequeueFromShared_unfold, E. split; [reflexivity|].
    destruct (scanShared_result _ 0 p (scan_may_start p))
      as (r & size2 & p2 & E2 & _ & C).
    rewrite E in E2. injection E2 as <- <- <-. exact C.
  - intros fuel p p1 size1 E NZ.
    rewrite tryDequeueFromShared_unfold, E.
    destruct (Z.eqb_spec size1 0) as [Z0|_]; [contradiction|].
    split; [reflexivity|].
    destruct (scanShared_result _ 0 p (scan_may_start p))
      as (r & size2 & p2 & E2 & _ & C).
    rewrite E in E2. injection E2 as <- <- <-. apply C.
  - intros p Idle. apply tryDequeueFromShared_returns; [exact Idle|lia].
  - intros p p1 size1 E.
    pose proof (scanShared_sizes _ 0 size1 p p1 (scan_may_start p)
                  ltac:(lia) E) as A.
    rewrite Z.add_0_l in A. split; [exact A|].
    intros (H0 & H1 & H2). rewrite A, sizesSeen_full by lia.
    unfold to_size_t. apply Z.mod_small.
    pose proof (sumZ_sizes_nonneg (sharedIoQueues p)). lia.
  - intros fuel p p'. apply tryDequeueFromShared_none.
  - intros p Idle R.
    destruct (tryDequeueFromShared_returns (S (length (busy p))) p Idle
                ltac:(lia)) as (r & p' & E).
    exists r, p'. split; [exact E|].
    pose proof (tryDequeueFromShared_shared _ _ _ _ E) as Sh.
    split; [|exact Sh]. split.
    + intros ->. destruct (tryDequeueFromShared_none _ _ _ R E) as [F _].
      unfold sharedEmpty. eapply Forall_impl; [exact F|].
      intros q [Hq _]. exact Hq.
    + intros Em. destruct r as [t|]; [|reflexivity].
      destruct Sh as (i & q & rest & Hq & Q & _).
      unfold sharedEmpty in Em. rewrite Forall_lookup in Em.
      rewrite (Em i q Hq) in Q. discriminate.
  - intros oldABI p F.
    induction F as [|q sh Hq _ IH]; [reflexivity|].
    simpl. f_equal; [|exact IH].
    destruct oldABI; [|reflexivity].
    unfold sizeFor, size_oldABI, size. rewrite Hq. reflexivity.
Qed.

(** ** The worker loop *)

Lemma run_blocked (fuel : nat) (p : Pool) :
  _loadBalanceSharedIoQueues (this p) = false ->
  _isEmpty (this p) = true ->
  _isInterrupted (this p) = false ->
  run (S fuel) p = Ok Blocked p.
Proof.
  intros HL HE HI. simpl. unfold bind, getQ. simpl.
  rewrite HL, HE, HI. reflexivity.
Qed.


Lemma run_step (fuel : nat) (p : Pool) :
  _loadBalanceSharedIoQueues (this p) = false ->
  _isEmpty (this p) = false ->
  _isInterrupted (this p) = false ->
  run (S fuel) p
  = (task <- grabWorkItem ;;
     match task with
     | Some t => runTask t ;; run fuel
     | None => run fuel
     end) p.
Proof.
  intros HL HE HI. simpl. unfold bind at 1. unfold getQ. simpl.
  rewrite HL, HE, HI. reflexivity.
Qed.

Lemma run_step_balanced (fuel : nat) (p : Pool) :
  _loadBalanceSharedIoQueues (this p) = true ->
  run (S fuel) p
  = (task <- poll (S fuel) ;;
     q <- getQ This ;;
     if _isInterrupted q then ret Exited
     else
       match task with
       | Some t => runTask t ;; run fuel
       | None => undefined
       end) p.
Proof.
  intros HL. cbn [run]. unfold bind at 1. unfold getQ at 1.
  cbn [queueAt]. cbv beta iota. rewrite HL. reflexivity.
Qed.

(** [grabWorkItem] without load balancing: a task of the worker's queue
    or of the first shared queue is handed out, or both are empty and
    the worker's [_isEmpty] is set. *)
Lemma grabWorkItem_nonLB (p : Pool) :
  nonLoadBalanced p ->
  exists task p',
    grabWorkItem p = Ok task p' /\
    nonLoadBalanced p' /\
    _isInterrupted (this p') = _isInterrupted (this p) /\
    runLog p' = runLog p /\
    outcomes (_stats (this p')) = outcomes (_stats (this p)) /\
    match task with
    | Some t =>
        Permutation (t :: ownQ p' ++ sharedQ p') (ownQ p ++ sharedQ p) /\
        _isEmpty (this p') = _isEmpty (this p)
    | None =>
        ownQ p = [] /\ sharedQ p = [] /\ ownQ p' = [] /\ sharedQ p' = [] /\
        _isEmpty (this p') = true
    end.
Proof.
  intros (HL & s & H0 & HL0).
  destruct p as [w sh g g2 ix bz ll sl rl]. simpl in *.
  destruct sh as [|s0 rest]; [discriminate|]. injection H0 as ->.
  destruct w as [wp wlb wms wpol wnb wn wth wq we wi widle wt wst].
  destruct s as [sp slb sms spol snb sn sth sq se si sidle st sst].
  simpl in *. subst wlb slb.
  unfold nonLoadBalanced, ownQ, sharedQ.
  destruct g; simpl.
  - destruct wq as [|t wq]; [destruct sq as [|t' sq]|];
      do 2 eexists; (split; [reflexivity|]); simpl;
      repeat split; eauto.
  - destruct sq as [|t sq]; [destruct wq as [|t' wq]|];
      do 2 eexists; (split; [reflexivity|]); simpl;
      repeat split; eauto.
    apply Permutation_middle.
Qed.

Lemma pair4_eq (a b c d a' b' c' d' : Z) :
  a = a' -> b = b' -> c = c' -> d = d' -> (a, b, c, d) = (a', b', c', d').
Proof. congruence. Qed.

(** Running one task: it is logged, the queues and flags stay as they
    are, and the counters move by the tally of that task. *)
Lemma runTask_result (t : IoTask) (p : Pool) :
  exists p',
    runTask t p = Ok tt p' /\
    runLog p' = runLog p ++ [t] /\
    ownQ p' = ownQ p /\
    sharedQ p' = sharedQ p /\
    (nonLoadBalanced p -> nonLoadBalanced p') /\
    _isInterrupted (this p') = _isInterrupted (this p) /\
    _isEmpty (this p') = _isEmpty (this p) /\
    outcomes (_stats (this p'))
    = addOutcomes (outcomes (_stats (this p))) (tally [t]).
Proof.
  destruct p as [w sh g g2 ix bz ll sl rl].
  destruct t as [[rc|] qid hp];
    unfold runTask, tally, count, returnsSuccess, returnsError, isShared,
      IoTask_run, getQueueId, nonLoadBalanced, ownQ, sharedQ, outcomes,
      addOutcomes; simpl.
  - destruct (rc =? Status_Success), (qid =? Queue_Id_Any); simpl;
      eexists; (split; [reflexivity|]); simpl;
      repeat split; auto; first [tauto|apply pair4_eq; lia].
  - eexists. split; [reflexivity|]. simpl.
    repeat split; auto; first [tauto|apply pair4_eq; lia].
Qed.

Lemma tally_cons (t : IoTask) (l : list IoTask) :
  tally (t :: l) = addOutcomes (tally [t]) (tally l).
Proof.
  unfold tally, count, addOutcomes. simpl.
  apply pair4_eq;
    match goal with
    | |- context [if ?c then _ else _] => destruct c
    end; simpl length; lia.
Qed.

Lemma addOutcomes_assoc (a b c : Z * Z * Z * Z) :
  addOutcomes (addOutcomes a b) c = addOutcomes a (addOutcomes b c).
Proof.
  destruct a as [[[a1 a2] a3] a4], b as [[[b1 b2] b3] b4],
    c as [[[c1 c2] c3] c4].
  unfold addOutcomes. apply pair4_eq; lia.
Qed.

Lemma addOutcomes_zero (a : Z * Z * Z * Z) : addOutcomes a (tally []) = a.
Proof.
  destruct a as [[[a1 a2] a3] a4]. unfold addOutcomes, tally, count. simpl.
  apply pair4_eq; lia.
Qed.

(** Without load balancing, a worker that has been signalled and is not
    interrupted runs every task pending in its own queue and in the
    first shared queue, whatever each of them returns or throws, and
    then waits. *)
Lemma run_drains (n : nat) :
  forall p : Pool,
    nonLoadBalanced p ->
    _isInterrupted (this p) = false ->
    _isEmpty (this p) = false ->
    length (ownQ p ++ sharedQ p) = n ->
    exists p' l,
      run (S (S n)) p = Ok Blocked p' /\
      runLog p' = runLog p ++ l /\
      Permutation l (ownQ p ++ sharedQ p) /\
      ownQ p' = [] /\ sharedQ p' = [] /\
      outcomes (_stats (this p'))
      = addOutcomes (outcomes (_stats (this p))) (tally l).
Proof.
  induction n as [|n IH]; intros p NL HI HE Hlen.
  - rewrite (run_step _ p (proj1 NL) HE HI).
    destruct (grabWorkItem_nonLB p NL)
      as (task & p1 & G & NL1 & I1 & R1 & O1 & C).
    unfold bind. rewrite G.
    destruct task as [t|].
    + destruct C as [P _]. apply Permutation_length in P.
      simpl in P. lia.
    + destruct C as (_ & _ & Q1 & Q2 & E1).
      rewrite (run_blocked _ p1 (proj1 NL1) E1) by congruence.
      exists p1, []. rewrite app_nil_r, addOutcomes_zero.
      destruct (ownQ p ++ sharedQ p); [|discriminate]. auto 10.
  - rewrite (run_step _ p (proj1 NL) HE HI).
    destruct (grabWorkItem_nonLB p NL)
      as (task & p1 & G & NL1 & I1 & R1 & O1 & C).
    unfold bind at 1. rewrite G.
    destruct task as [t|].
    + destruct C as [P E1].
      destruct (runTask_result t p1)
        as (p2 & T & R2 & Q2 & S2 & NL2 & I2 & E2 & O2).
      unfold bind at 1. rewrite T.
      assert (Hlen2 : length (ownQ p2 ++ sharedQ p2) = n).
      { rewrite Q2, S2. apply Permutation_length in P. simpl in P. lia. }
      destruct (IH p2 (NL2 NL1) ltac:(congruence) ltac:(congruence) Hlen2)
        as (p' & l & R & RL & PL & Q' & S' & O').
      exists p', (t :: l). split; [exact R|].
      split; [rewrite RL, R2, R1, <- app_assoc; reflexivity|].
      split; [rewrite <- P, <- Q2, <- S2; now constructor|].
      split; [exact Q'|]. split; [exact S'|].
      rewrite O', O2, O1, (tally_cons t l). apply addOutcomes_assoc.
    + destruct C as (Q0 & S0 & _). rewrite Q0, S0 in Hlen. discriminate.
Qed.

Lemma busyPool_nonLoadBalanced (tasks : list IoTask) :
  nonLoadBalanced (busyPool tasks).
Proof. split; [reflexivity|]. exists freshQueue. split; reflexivity. Qed.

(** C7, as stated, fails: a task whose [run] throws is counted nowhere.
    A worker handed one such task runs it and goes back to wait with
    both error counters still at zero. *)
Lemma throw_is_not_counted :
  (exists p' : Pool,
     run 3 (busyPool [thrower]) = Ok Blocked p' /\
     errorCount (_stats (this p')) = 0 /\
     sharedQueueErrorCount (_stats (this p')) = 0)
  /\ ~ throwIsCounted.
Proof.
  assert (R : exists p', run 3 (busyPool [thrower]) = Ok Blocked p' /\
                         errorCount (_stats (this p')) = 0 /\
                         sharedQueueErrorCount (_stats (this p')) = 0).
  { eexists. split; [vm_compute; reflexivity|]. split; reflexivity. }
  split; [exact R|]. intros H.
  destruct R as (p' & R & E1 & E2).
  specialize (H 3%nat (busyPool [thrower]) p' thrower eq_refl
                (busyPool_nonLoadBalanced _) eq_refl R).
  rewrite E1, E2 in H. simpl in H. lia.
Qed.

Lemma runTask_throws (t : IoTask) (p : Pool) :
  IoTask_run t = Throws ->
  runTask t p = Ok tt (set_runLog (runLog p ++ [t]) p).
Proof. intros H. unfold runTask, bind, modify. rewrite H. reflexivity. Qed.

Lemma tally_throws (t : IoTask) :
  IoTask_run t = Throws -> tally [t] = (0, 0, 0, 0).
Proof.
  intros H. unfold tally, count, returnsSuccess, returnsError. simpl.
  rewrite H. reflexivity.
Qed.

(** C7, amended: an exception that escapes from the [run] of a task is
    caught within the iteration and changes no counter: the error
    counters count the tasks whose [run] returns a status other than
    success.  The worker does not stop: in both modes the loop goes on
    with its next iteration, and without load balancing a worker that
    has been signalled runs every task pending in its own queue and in
    the first shared queue, the throwing one among them, before it
    waits again. *)
Theorem worker_survives_throw (t : IoTask) :
  IoTask_run t = Throws ->
  (forall p : Pool, runTask t p = Ok tt (set_runLog (runLog p ++ [t]) p))
  /\ tally [t] = (0, 0, 0, 0)
  /\ (forall (fuel : nat) (p p1 : Pool),
        _loadBalanceSharedIoQueues (this p) = false ->
        _isEmpty (this p) = false ->
        _isInterrupted (this p) = false ->
        grabWorkItem p = Ok (Some t) p1 ->
        run (S fuel) p = run fuel (set_runLog (runLog p1 ++ [t]) p1))
  /\ (forall (fuel : nat) (p p1 : Pool),
        _loadBalanceSharedIoQueues (this p) = true ->
        poll (S fuel) p = Ok (Some t) p1 ->
        _isInterrupted (this p1) = false ->
        run (S fuel) p = run fuel (set_runLog (runLog p1 ++ [t]) p1))
  /\ (forall p : Pool,
        nonLoadBalanced p ->
        _isInterrupted (this p) = false ->
        _isEmpty (this p) = false ->
        In t (ownQ p ++ sharedQ p) ->
        exists p' l,
          run (S (S (length (ownQ p ++ sharedQ p)))) p = Ok Blocked p' /\
          runLog p' = runLog p ++ l /\
          Permutation l (ownQ p ++ sharedQ p) /\
          In t l /\
          ownQ p' = [] /\ sharedQ p' = [] /\
          outcomes (_stats (this p'))
          = addOutcomes (outcomes (_stats (this p))) (tally l)).
Proof.
  intros HT. split; [|split; [|split; [|split]]].
  - intros p. apply runTask_throws, HT.
  - apply tally_throws, HT.
  - intros fuel p p1 HL HE HI G.
    rewrite (run_step fuel p HL HE HI). unfold bind at 1. rewrite G.
    unfold bind. rewrite (runTask_throws t p1 HT). reflexivity.
  - intros fuel p p1 HL P HI.
    rewrite (run_step_balanced fuel p HL). unfold bind at 1. rewrite P.
    unfold bind at 1. unfold getQ at 1. cbn [queueAt]. cbv beta iota.
    rewrite HI. unfold bind. rewrite (runTask_throws t p1 HT). reflexivity.
  - intros p NL HI HE HIn.
    destruct (run_drains _ p NL HI HE eq_refl)
      as (p' & l & R & RL & PL & Q' & S' & O').
    exists p', l. repeat split; try assumption.
    apply list_elem_of_In. rewrite PL. apply list_elem_of_In. exact HIn.
Qed.

(** ** Termination *)

(** C1, as stated, fails: on a queue made without a set of shared queues
    the test [&& _sharedIoQueues] keeps [terminate] from its whole body,
    [_queue.clear()] included, so a pending task stays in the queue. *)
Lemma terminate_leaves_shared_only_queue :
  (exists (p' : Pool) (q' : IoQueue),
     terminate (Shared 0) 1 sharedPool = Ok tt p' /\
     sharedIoQueues p' !! O = Some q' /\ empty q' = false)
  /\ ~ terminateClearsSharedOnly.
Proof.
  assert (R : exists p' q',
             terminate (Shared 0) 1 sharedPool = Ok tt p' /\
             sharedIoQueues p' !! O = Some q' /\ empty q' = false).
  { do 2 eexists. split; [vm_compute; reflexivity|].
    split; reflexivity. }
  split; [exact R|]. intros H.
  destruct R as (p' & q' & R & L & E).
  specialize (H 1%nat O sharedPool p' _ q' eq_refl eq_refl eq_refl R L).
  congruence.
Qed.

(** C1, amended: on a shared-only queue [terminate] sets the terminated
    flag and nothing else: the pending tasks stay, and the queue is
    observably empty afterwards exactly when it was before.  The list is
    cleared where there is a set of shared queues: the first
    [terminate] of the worker, here without load balancing, interrupts
    the loop, joins the thread and leaves the worker's list empty. *)
Theorem terminate_keeps_shared_only_queue :
  (forall (r : QueueRef) (fuel : nat) (p : Pool) (q : IoQueue),
     queueAt r p = Some q ->
     _sharedIoQueues q = nullptr ->
     terminate r fuel p = Ok tt (updQ r (set_terminated true q) p) /\
     _queue (set_terminated true q) = _queue q /\
     empty (set_terminated true q) = empty q)
  /\
  (forall (fuel : nat) (p : Pool),
     _sharedIoQueues (this p) = sharedVector ->
     _thread (this p) = true ->
     _terminated (this p) = false ->
     _loadBalanceSharedIoQueues (this p) = false ->
     exists p',
       terminate This (S fuel) p = Ok tt p' /\
       _queue (this p') = [] /\
       _isInterrupted (this p') = true /\
       _terminated (this p') = true /\
       sharedIoQueues p' = sharedIoQueues p /\
       runLog p' = runLog p).
Proof.
  split.
  - intros r fuel p q H HN. split; [|split; reflexivity].
    unfold terminate, bind. rewrite (getQ_Some _ _ _ H).
    rewrite (putQ_Some _ _ _ _ H). simpl. rewrite HN.
    destruct (negb (_terminated q)); reflexivity.
  - intros fuel p HS HT HN HL.
    destruct p as [w sh g g2 ix bz ll sl rl].
    destruct w as [wp wlb wms wpol wnb wn wth wq we wi widle wt wst].
    simpl in *. subst.
    eexists. split.
    + unfold terminate, bind, getQ, putQ, modifyQ, join. simpl.
      unfold bind, getQ, putQ. simpl.
      rewrite andb_false_r. reflexivity.
    + simpl. auto.
Qed.

(** * The properties at sample inputs *)

Lemma worker_backoff_in_range : backoffInRange (worker backoffConfig).
Proof. unfold backoffInRange. simpl. lia. Defined.

Lemma terminate_keeps_shared_only_queue_witness :
  terminate (Shared 0) 1 sharedPool
  = Ok tt (updQ (Shared 0)
             (set_terminated true (set_queue [plainA] freshQueue))
             sharedPool).
Proof.
  exact (proj1 (proj1 terminate_keeps_shared_only_queue
                  (Shared 0) 1%nat sharedPool
                  (set_queue [plainA] freshQueue) eq_refl eq_refl)).
Defined.

Lemma standard_priority_is_fifo_witness :
  exists q' : IoQueue,
    runOps [Enq plainA; Enq urgentA; Enq plainB; Deq; Deq; Deq] freshQueue
    = ([urgentA; plainA] ++ plainB :: [], q')
    /\ In plainA [urgentA; plainA].
Proof.
  eexists. split; [vm_compute; reflexivity|].
  eapply (proj1 standard_priority_is_fifo
            [Enq plainA; Enq urgentA; Enq plainB; Deq; Deq; Deq]
            freshQueue _ plainA plainB [] [urgentA] []
            [urgentA; plainA] []).
  - split; reflexivity.
  - repeat constructor; rewrite ?list_elem_of_In; simpl;
      intuition discriminate.
  - reflexivity.
  - vm_compute. reflexivity.
Defined.

Lemma spinlocks_held_witness :
  exists (task : option IoTask) (p' : Pool) (evs : list LockEvent),
    grabWorkItem idlePool = Ok task p' /\
    lockLog p' = lockLog idlePool ++ evs /\
    heldAfter [] evs = [] /\
    (maxHeld [] evs <= 2)%nat /\
    evs = [Acquire (Shared 0); Acquire This;
           Release This; Release (Shared 0)] /\
    (true = true -> maxHeld [] evs = 2%nat).
Proof.
  exact (proj2 (spinlocks_held idlePool) freshQueue freshQueue
           eq_refl eq_refl eq_refl eq_refl).
Defined.

Lemma backoff_after_reset_witness :
  (forall k : nat,
     intervals k (worker backoffConfig)
     = Some (map (fun i : nat => 1 * 2 ^ Z.min (Z.of_nat i) 5) (seq 1 k)))
  /\
  (exists l, intervals (Z.to_nat 5 + 1) (worker backoffConfig) = Some l
             /\ sumZ l = 1 * (3 * 2 ^ 5 - 2)).
Proof.
  exact (backoff_after_reset (worker backoffConfig) eq_refl
           worker_backoff_in_range eq_refl).
Defined.

Lemma contendedPool_sharedIdle : sharedIdle contendedPool.
Proof. repeat constructor. Defined.

Lemma contendedPool_in_range :
  scanInRange (S (length (busy contendedPool))) contendedPool.
Proof.
  unfold scanInRange.
  repeat split; vm_compute; first [reflexivity | intros H; discriminate H].
Defined.

Lemma tryDequeueFromShared_spec_witness :
  (exists p1 : Pool, scanShared 3 0 contendedPool = Ok (None, 1) p1) /\
  (exists p' : Pool,
     tryDequeueFromShared 4 contendedPool = Ok (Some plainA) p') /\
  (exists (r : option IoTask) (p' : Pool),
     tryDequeueFromShared (S (length (busy contendedPool))) contendedPool
     = Ok r p' /\
     (r = None <-> sharedEmpty contendedPool) /\
     match r with
     | None => sharedIoQueues p' = sharedIoQueues contendedPool
     | Some t =>
         exists i q rest,
           sharedIoQueues contendedPool !! i = Some q /\
           _queue q = t :: rest /\
           sharedIoQueues p'
           = <[i := popped rest q]> (sharedIoQueues contendedPool)
     end).
Proof.
  split; [eexists; vm_compute; reflexivity|].
  split; [eexists; vm_compute; reflexivity|].
  exact (proj1 (proj2 (proj2 (proj2 (proj2 (proj2 (proj2
           tryDequeueFromShared_spec))))))
           contendedPool contendedPool_sharedIdle contendedPool_in_range).
Defined.

Lemma worker_survives_throw_witness :
  exists (p' : Pool) (l : list IoTask),
    run 4 (busyPool [thrower; failing]) = Ok Blocked p' /\
    runLog p' = runLog (busyPool [thrower; failing]) ++ l /\
    Permutation l [thrower; failing] /\
    In thrower l /\
    ownQ p' = [] /\ sharedQ p' = [] /\
    outcomes (_stats (this p'))
    = addOutcomes (outcomes (_stats (this (busyPool [thrower; failing]))))
        (tally l).
Proof.
  exact (proj2 (proj2 (proj2 (proj2 (worker_survives_throw thrower eq_refl))))
           (busyPool [thrower; failing])
           (busyPool_nonLoadBalanced _) eq_refl eq_refl
           (or_introl eq_refl)).
Defined.

Lemma enqueue_places_task_witness :
  exists (p' : Pool) (q' : IoQueue),
    enqueue This urgentA (busyPool [plainA]) = Ok tt p' /\
    queueAt This p' = Some q' /\
    q' = doEnqueue urgentA (this (busyPool [plainA])) /\
    _queue q' = [urgentA; plainA] /\
    _isEmpty q' = false.
Proof.
  exact (enqueue_places_task This urgentA (busyPool [plainA]) _ eq_refl).
Defined.

Lemma slow_linear_in_range : intervalsInRange (worker slowLinearConfig).
Proof.
  unfold intervalsInRange. simpl. repeat split; try lia; discriminate.
Defined.

Lemma capped_exponential_in_range : intervalsInRange (worker backoffConfig).
Proof.
  unfold intervalsInRange. simpl. repeat split; try lia; discriminate.
Defined.

Lemma backoff_monotone_witness :
  intervals 8 (worker backoffConfig) = Some [2; 4; 8; 16; 32; 32; 32; 32] /\
  (exists l : list Z,
     intervals 8 (worker backoffConfig) = Some l /\
     length l = 8%nat /\
     (forall i j : nat, (i <= j < 8)%nat -> nth i l 0 <= nth j l 0) /\
     (forall i j : nat,
        5 <= 0 + Z.of_nat i + 1 ->
        (i <= j < 8)%nat -> nth i l 0 = nth j l 0)) /\
  (exists l : list Z,
     intervals 8 (worker slowLinearConfig) = Some l /\
     length l = 8%nat /\
     (forall i j : nat, (i <= j < 8)%nat -> nth i l 0 <= nth j l 0) /\
     (forall i j : nat,
        100 <= 0 + Z.of_nat i + 1 ->
        (i <= j < 8)%nat -> nth i l 0 = nth j l 0)).
Proof.
  split; [vm_compute; reflexivity|]. split.
  - exact (backoff_monotone (worker backoffConfig) 8
             capped_exponential_in_range).
  - exact (backoff_monotone (worker slowLinearConfig) 8
             slow_linear_in_range).
Defined.

(* ================================================================== *)
(** * Further properties of the queue *)

(** ** Enqueue followed by dequeue *)

Lemma doEnqueue_stats (task : IoTask) (q : IoQueue) :
  postedCount (_stats (doEnqueue task q)) = postedCount (_stats q) + 1 /\
  numElements (_stats (doEnqueue task q)) = numElements (_stats q) + 1 /\
  highPriorityCount (_stats (doEnqueue task q))
  = highPriorityCount (_stats q) + (if isHighPriority task then 1 else 0) /\
  outcomes (_stats (doEnqueue task q)) = outcomes (_stats q) /\
  _isIdle (doEnqueue task q) = _isIdle q.
Proof.
  unfold doEnqueue.
  destruct (isHighPriority task); simpl;
    destruct (_loadBalanceSharedIoQueues q), (list_empty (_queue q));
    simpl; repeat split; lia.
Qed.

(** X1: a task enqueued at high priority, or into an empty queue, is the
    one the next dequeue hands out; the list and the element counter are
    then back where they were, and the task has been counted as
    posted. *)
Theorem enqueue_then_dequeue (task : IoTask) (q : IoQueue) :
  isHighPriority task = true \/ _queue q = [] ->
  exists q' : IoQueue,
    doDequeue (doEnqueue task q) = (false, Some task, q') /\
    _queue q' = _queue q /\
    numElements (_stats q') = numElements (_stats q) /\
    postedCount (_stats q') = postedCount (_stats q) + 1.
Proof.
  intros H.
  assert (E : _queue (doEnqueue task q) = task :: _queue q).
  { rewrite doEnqueue_queue.
    destruct H as [->| ->]; [reflexivity|].
    destruct (isHighPriority task); reflexivity. }
  rewrite (doDequeue_cons _ _ _ E). eexists. split; [reflexivity|].
  destruct (doEnqueue_stats task q) as (P & N & _).
  simpl. repeat split; lia.
Qed.

Lemma enqueue_then_dequeue_witness :
  exists q' : IoQueue,
    doDequeue (doEnqueue urgentA (set_queue [plainA; plainB] freshQueue))
    = (false, Some urgentA, q') /\
    _queue q' = [plainA; plainB] /\
    numElements (_stats q') = 0 /\
    postedCount (_stats q') = 0 + 1.
Proof.
  exact (enqueue_then_dequeue urgentA (set_queue [plainA; plainB] freshQueue)
           (or_introl eq_refl)).
Defined.

(** ** Accounting over a run of calls *)

Lemma runOps_accounts (ops : list QueueOp) :
  forall (q q' : IoQueue) (out : list IoTask),
    runOps ops q = (out, q') ->
    Permutation (out ++ _queue q') (_queue q ++ enqueued ops) /\
    postedCount (_stats q')
    = postedCount (_stats q) + Z.of_nat (length (enqueued ops)) /\
    highPriorityCount (_stats q')
    = highPriorityCount (_stats q) + count isHighPriority (enqueued ops) /\
    numElements (_stats q')
    = numElements (_stats q) + Z.of_nat (length (enqueued ops))
      - Z.of_nat (length out) /\
    outcomes (_stats q') = outcomes (_stats q) /\
    _isIdle q' = _isIdle q.
Proof.
  induction ops as [|[task|] ops IH]; intros q q' out H; simpl in H.
  - injection H as <- <-. simpl. rewrite app_nil_r.
    unfold count. simpl. repeat split; try reflexivity; lia.
  - apply IH in H. destruct H as (P & C1 & C2 & C3 & C4 & C5).
    destruct (doEnqueue_stats task q) as (S1 & S2 & S3 & S4 & S5).
    rewrite doEnqueue_queue in P. simpl enqueued.
    split; [|repeat split].
    + rewrite P. destruct (isHighPriority task).
      * simpl. apply Permutation_middle.
      * rewrite <- app_assoc. reflexivity.
    + rewrite C1, S1. simpl length. lia.
    + rewrite C2, S3. unfold count. simpl.
      destruct (isHighPriority task); simpl length; lia.
    + rewrite C3, S2. simpl length. lia.
    + congruence.
    + congruence.
  - destruct (_queue q) as [|t rest] eqn:E.
    + rewrite (doDequeue_nil q E) in H.
      destruct (runOps ops q) as [out1 q2] eqn:R. injection H as <- <-.
      apply IH in R. rewrite E in R. exact R.
    + rewrite (doDequeue_cons q t rest E) in H.
      destruct (runOps ops _) as [out1 q2] eqn:R. injection H as <- <-.
      apply IH in R. simpl in R. destruct R as (P & C1 & C2 & C3 & C4 & C5).
      simpl enqueued. split; [|repeat split]; try assumption.
      * simpl. now constructor.
      * simpl length. lia.
Qed.

(** X2: over any run of enqueue and dequeue calls on one queue no task
    is lost and none is handed out twice: the tasks handed out together
    with those still pending are those that were pending together with
    those enqueued. *)
Theorem tasks_are_conserved (ops : list QueueOp) (q : IoQueue) :
  let '(out, q') := runOps ops q in
  Permutation (out ++ _queue q') (_queue q ++ enqueued ops).
Proof.
  destruct (runOps ops q) as [out q'] eqn:R.
  apply (runOps_accounts ops q q' out R).
Qed.

(** X3: over any run of enqueue and dequeue calls the posted counter
    grows by the number of tasks enqueued, the high-priority counter by
    the number of those that have high priority, and the element counter
    by the tasks enqueued less the tasks handed out; the counters of
    finished tasks are not touched. *)
Theorem counters_follow_calls (ops : list QueueOp) (q : IoQueue) :
  let '(out, q') := runOps ops q in
  postedCount (_stats q')
  = postedCount (_stats q) + Z.of_nat (length (enqueued ops)) /\
  highPriorityCount (_stats q')
  = highPriorityCount (_stats q) + count isHighPriority (enqueued ops) /\
  numElements (_stats q')
  = numElements (_stats q) + Z.of_nat (length (enqueued ops))
    - Z.of_nat (length out) /\
  outcomes (_stats q') = outcomes (_stats q).
Proof.
  destruct (runOps ops q) as [out q'] eqn:R.
  destruct (runOps_accounts ops q q' out R) as (_ & C1 & C2 & C3 & C4 & _).
  auto.
Qed.

(** X4: the two variants of [size()] agree as long as the element
    counter agrees with the list, and enqueue and dequeue calls keep
    that agreement; in particular they agree on every queue reached
    from a new one by such calls. *)
Theorem size_variants_agree (ops : list QueueOp) (q : IoQueue) :
  countsElements q ->
  let '(_, q') := runOps ops q in
  countsElements q' /\ size_oldABI q' = size q'.
Proof.
  intros HC.
  destruct (runOps ops q) as [out q'] eqn:R.
  destruct (runOps_accounts ops q q' out R) as (P & _ & _ & C3 & _ & _).
  assert (HC' : countsElements q').
  { unfold countsElements in *. apply Permutation_length in P.
    rewrite !length_app in P. lia. }
  split; [exact HC'|]. unfold size_oldABI, size. rewrite HC'. reflexivity.
Qed.

Lemma size_variants_agree_witness :
  let '(_, q') := runOps [Enq plainA; Enq urgentA; Deq] freshQueue in
  countsElements q' /\ size_oldABI q' = size q'.
Proof.
  exact (size_variants_agree [Enq plainA; Enq urgentA; Deq] freshQueue
           eq_refl).
Defined.

(** ** Calls that take the spinlock, or try to *)

Lemma doDequeue_result (q : IoQueue) :
  exists q' : IoQueue,
    doDequeue q = (list_empty (_queue q), head (_queue q), q') /\
    _queue q' = tail (_queue q).
Proof.
  destruct (_queue q) as [|t rest] eqn:E.
  - rewrite (doDequeue_nil q E). exists q. rewrite E. auto.
  - rewrite (doDequeue_cons q t rest E). eexists. split; reflexivity.
Qed.

(** The unlocked part of a dequeue with the worker's own flag as hint:
    the first task of queue [r], if any, is taken, the worker's
    [_isIdle] says whether there was none, and no other queue changes. *)
Lemma doDequeueAt_result (r : QueueRef) (p : Pool) (q : IoQueue) :
  queueAt r p = Some q ->
  exists p' q',
    doDequeueAt r This p = Ok (head (_queue q)) p' /\
    queueAt r p' = Some q' /\
    _queue q' = tail (_queue q) /\
    _isIdle (this p') = list_empty (_queue q) /\
    lockLog p' = lockLog p /\ busy p' = busy p /\ runLog p' = runLog p /\
    (forall i : nat, r <> Shared i ->
                     sharedIoQueues p' !! i = sharedIoQueues p !! i) /\
    (r <> This -> this p' = set_isIdle (list_empty (_queue q)) (this p)).
Proof.
  intros H.
  destruct (doDequeue_result q) as (q1 & D & Q1).
  unfold doDequeueAt, bind. rewrite (getQ_Some _ _ _ H), D.
  rewrite (putQ_Some _ _ _ _ H).
  destruct p as [w sh g g2 ix bz ll sl rl].
  destruct r as [|i]; simpl in *.
  - do 2 eexists. split; [reflexivity|]. simpl.
    repeat split; auto. congruence.
  - do 2 eexists. split; [reflexivity|]. simpl.
    split; [apply list_lookup_insert_eq; now apply lookup_lt_Some in H|].
    repeat split; auto.
    intros j Hj. apply list_lookup_insert_ne. congruence.
Qed.

(** X5: [tryDequeue] with the worker's flag as hint.  When the spinlock
    is busy it returns no task and touches neither the queue nor the
    flag; when the spinlock is free it takes the first task of the
    queue, if there is one, sets the flag to whether there was none, and
    has released the spinlock when it returns. *)
Theorem tryDequeue_result (r : QueueRef) (p : Pool) (q : IoQueue) :
  queueAt r p = Some q ->
  match busy p with
  | true :: rest => tryDequeue r This p = Ok None (set_busy rest p)
  | later =>
      exists p' q',
        tryDequeue r This p = Ok (head (_queue q)) p' /\
        queueAt r p' = Some q' /\
        _queue q' = tail (_queue q) /\
        _isIdle (this p') = list_empty (_queue q) /\
        lockLog p' = lockLog p ++ [Acquire r; Release r] /\
        busy p' = tail later
  end.
Proof.
  intros H.
  assert (F : forall p0 : Pool,
            queueAt r p0 = Some q ->
            exists p' q',
              (task <- doDequeueAt r This ;; unlock r ;; ret task) p0
              = Ok (head (_queue q)) p' /\
              queueAt r p' = Some q' /\
              _queue q' = tail (_queue q) /\
              _isIdle (this p') = list_empty (_queue q) /\
              lockLog p' = lockLog p0 ++ [Release r] /\
              busy p' = busy p0).
  { intros p0 H0.
    destruct (doDequeueAt_result r p0 q H0)
      as (p1 & q1 & D & Q & T & I & L & B & _).
    unfold bind. rewrite D. unfold unlock, modify, ret.
    exists (set_lockLog (lockLog p1 ++ [Release r]) p1), q1.
    split; [reflexivity|]. rewrite queueAt_set_lockLog. simpl.
    rewrite L. auto. }
  unfold tryDequeue, try_lock, bind. rewrite (getQ_Some _ _ _ H).
  destruct (busy p) as [|[|] rest] eqn:B; [| reflexivity |].
  - destruct (F (set_lockLog (lockLog p ++ [Acquire r]) p))
      as (p' & q' & E & Q & T & I & L & B').
    { rewrite queueAt_set_lockLog. exact H. }
    exists p', q'. split; [exact E|]. repeat split; try assumption.
    + rewrite L. simpl. now rewrite <- app_assoc.
    + rewrite B'. simpl. exact B.
  - destruct (F (set_lockLog (lockLog p ++ [Acquire r]) (set_busy rest p)))
      as (p' & q' & E & Q & T & I & L & B').
    { rewrite queueAt_set_lockLog. destruct r; exact H. }
    exists p', q'. split; [exact E|]. repeat split; try assumption.
    rewrite L. simpl. now rewrite <- app_assoc.
Qed.

Lemma tryDequeue_result_witness :
  exists (p' : Pool) (q' : IoQueue),
    tryDequeue (Shared 0) This sharedPool = Ok (Some plainA) p' /\
    queueAt (Shared 0) p' = Some q' /\
    _queue q' = [] /\
    _isIdle (this p') = false /\
    lockLog p' = [Acquire (Shared 0); Release (Shared 0)] /\
    busy p' = [].
Proof.
  exact (tryDequeue_result (Shared 0) sharedPool _ eq_refl).
Defined.

(** X6: [dequeue] hands out the first task of the queue and sets the
    caller's flag to whether there was none, in both modes alike; only
    with load balancing does it take the spinlock of the queue itself,
    otherwise it takes none (its caller holds it). *)
Theorem dequeue_result (r : QueueRef) (p : Pool) (q : IoQueue) :
  queueAt r p = Some q ->
  exists p' q',
    dequeue r This p = Ok (head (_queue q)) p' /\
    queueAt r p' = Some q' /\
    _queue q' = tail (_queue q) /\
    _isIdle (this p') = list_empty (_queue q) /\
    lockLog p'
    = lockLog p ++ (if _loadBalanceSharedIoQueues q
                    then [Acquire r; Release r] else []).
Proof.
  intros H. unfold dequeue, bind at 1. rewrite (getQ_Some _ _ _ H).
  destruct (_loadBalanceSharedIoQueues q).
  - unfold bind at 1. rewrite (lock_Some _ _ _ H).
    destruct (doDequeueAt_result r
                (set_lockLog (lockLog p ++ [Acquire r]) p) q)
      as (p1 & q1 & D & Q & T & I & L & _).
    { rewrite queueAt_set_lockLog. exact H. }
    unfold bind. rewrite D. unfold unlock, modify, ret.
    exists (set_lockLog (lockLog p1 ++ [Release r]) p1), q1.
    split; [reflexivity|]. rewrite queueAt_set_lockLog. simpl.
    rewrite L. simpl. rewrite <- app_assoc. auto.
  - destruct (doDequeueAt_result r p q H)
      as (p1 & q1 & D & Q & T & I & L & _).
    exists p1, q1. rewrite app_nil_r. auto.
Qed.

Lemma dequeue_result_witness :
  exists (p' : Pool) (q' : IoQueue),
    dequeue This This (busyPool [plainA; plainB]) = Ok (Some plainA) p' /\
    queueAt This p' = Some q' /\
    _queue q' = [plainB] /\
    _isIdle (this p') = false /\
    lockLog p' = [] ++ [].
Proof.
  exact (dequeue_result This (busyPool [plainA; plainB]) _ eq_refl).
Defined.

Lemma enqueue_Some (r : QueueRef) (task : IoTask) (p : Pool) (q : IoQueue) :
  queueAt r p = Some q ->
  enqueue r task p
  = Ok tt (set_lockLog (lockLog p ++ [Acquire r; Release r])
             (updQ r (doEnqueue task q) p)).
Proof.
  intros H. unfold enqueue, bind. rewrite (lock_Some _ _ _ H).
  erewrite modifyQ_Some by (rewrite queueAt_set_lockLog; exact H).
  unfold unlock, modify. f_equal.
  destruct r; simpl; rewrite <- app_assoc; reflexivity.
Qed.

(** X7: [tryEnqueue].  When the spinlock is busy it returns false and
    leaves every queue as it was; when the spinlock is free it returns
    true and the queue is the one [enqueue] would have made, the
    spinlock being released again. *)
Theorem tryEnqueue_result (r : QueueRef) (task : IoTask) (p : Pool)
    (q : IoQueue) :
  queueAt r p = Some q ->
  match busy p with
  | true :: rest => tryEnqueue r task p = Ok false (set_busy rest p)
  | later =>
      exists p',
        tryEnqueue r task p = Ok true p' /\
        queueAt r p' = Some (doEnqueue task q) /\
        lockLog p' = lockLog p ++ [Acquire r; Release r] /\
        busy p' = tail later /\
        (exists p'', enqueue r task p = Ok tt p''
                     /\ this p'' = this p'
                     /\ sharedIoQueues p'' = sharedIoQueues p')
  end.
Proof.
  intros H.
  pose proof (enqueue_Some r task p q H) as EE.
  set (pe := set_lockLog (lockLog p ++ [Acquire r; Release r])
               (updQ r (doEnqueue task q) p)) in *.
  assert (EQ : pe = set_lockLog (lockLog p ++ [Acquire r; Release r])
                      (updQ r (doEnqueue task q) p)) by reflexivity.
  clearbody pe.
  unfold tryEnqueue, try_lock, bind. rewrite (getQ_Some _ _ _ H).
  destruct (busy p) as [|[|] rest] eqn:B; [| reflexivity |].
  - erewrite modifyQ_Some by (rewrite queueAt_set_lockLog; exact H).
    unfold unlock, modify, ret. eexists. split; [reflexivity|].
    rewrite queueAt_set_lockLog. simpl.
    split; [destruct r; simpl; apply (queueAt_updQ_same _ _ _ _ H)|].
    split; [destruct r; simpl; rewrite <- app_assoc; reflexivity|].
    split; [destruct r; simpl; exact B|].
    exists pe. split; [exact EE|]. subst pe. destruct r; auto.
  - erewrite modifyQ_Some
      by (rewrite queueAt_set_lockLog; destruct r; exact H).
    unfold unlock, modify, ret. eexists. split; [reflexivity|].
    rewrite queueAt_set_lockLog. simpl.
    split; [destruct r; simpl; apply (queueAt_updQ_same _ _ _ _ H)|].
    split; [destruct r; simpl; rewrite <- app_assoc; reflexivity|].
    split; [destruct r; reflexivity|].
    exists pe. split; [exact EE|]. subst pe. destruct r; auto.
Qed.

Lemma tryEnqueue_result_witness :
  exists p' : Pool,
    tryEnqueue This plainB (busyPool [plainA]) = Ok true p' /\
    queueAt This p' = Some (doEnqueue plainB (this (busyPool [plainA]))) /\
    lockLog p' = [] ++ [Acquire This; Release This] /\
    busy p' = tail [] /\
    (exists p'', enqueue This plainB (busyPool [plainA]) = Ok tt p''
                 /\ this p'' = this p'
                 /\ sharedIoQueues p'' = sharedIoQueues p').
Proof.
  exact (tryEnqueue_result This plainB (busyPool [plainA]) _ eq_refl).
Defined.

(** ** What the calls of the worker leave alone *)

Lemma updQ_flags (r : QueueRef) (q q' : IoQueue) (p : Pool) :
  queueAt r p = Some q -> flags q' = flags q ->
  forall (r0 : QueueRef) (q0 : IoQueue),
    queueAt r0 p = Some q0 ->
    exists q1, queueAt r0 (updQ r q' p) = Some q1 /\ flags q1 = flags q0.
Proof.
  intros H F r0 q0 H0. destruct r as [|i], r0 as [|j]; simpl in *.
  - exists q'. split; [reflexivity|congruence].
  - eauto.
  - eauto.
  - destruct (Nat.eq_dec i j) as [->|N].
    + exists q'. split; [|congruence].
      apply list_lookup_insert_eq. now apply lookup_lt_Some in H.
    + exists q0. split; [|reflexivity].
      rewrite list_lookup_insert_ne by exact N. exact H0.
Qed.

Lemma steady_ret {A : Type} (a : A) : steady (ret a).
Proof. intros p p' a' E r q H. inversion E; subst. eauto. Qed.

Lemma steady_bind {A B : Type} (c : M A) (k : A -> M B) :
  steady c -> (forall a, steady (k a)) -> steady (bind c k).
Proof.
  intros Hc Hk p p' b E r q H.
  apply bind_Ok in E as (a & p1 & E1 & E2).
  destruct (Hc _ _ _ E1 r q H) as (q1 & H1 & F1).
  destruct (Hk _ _ _ _ E2 r q1 H1) as (q2 & H2 & F2).
  exists q2. split; [exact H2|congruence].
Qed.

Lemma steady_getQ (r : QueueRef) : steady (getQ r).
Proof.
  intros p p' a E r0 q0 H. unfold getQ in E.
  destruct (queueAt r p); [|discriminate]. inversion E; subst. eauto.
Qed.

Lemma steady_read {A : Type} (f : Pool -> A) : steady (fun p => Ok (f p) p).
Proof. intros p p' a E r q H. inversion E; subst. eauto. Qed.

Lemma steady_modify (f : Pool -> Pool) :
  (forall p, this (f p) = this p /\ sharedIoQueues (f p) = sharedIoQueues p)
  -> steady (modify f).
Proof.
  intros Hf p p' a E r q H. inversion E; subst.
  destruct (Hf p) as [T S]. exists q. split; [|reflexivity].
  destruct r; simpl in *; congruence.
Qed.

Lemma steady_modifyQ (r : QueueRef) (f : IoQueue -> IoQueue) :
  (forall q, flags (f q) = flags q) -> steady (modifyQ r f).
Proof.
  intros Hf p p' a E r0 q0 H0. unfold modifyQ in E.
  apply bind_Ok in E as (q & p1 & G & P). unfold getQ in G.
  destruct (queueAt r p) as [q1|] eqn:Q; [|discriminate].
  inversion G; subst. rewrite (putQ_Some _ _ _ _ Q) in P.
  inversion P; subst. apply (updQ_flags r q (f q) p1 Q (Hf q) r0 q0 H0).
Qed.

Lemma steady_lock (r : QueueRef) : steady (lock r).
Proof.
  apply steady_bind; [apply steady_getQ|]. intros _.
  apply steady_modify. intros p. split; reflexivity.
Qed.

Lemma steady_unlock (r : QueueRef) : steady (unlock r).
Proof. apply steady_modify. intros p. split; reflexivity. Qed.

Lemma steady_try_lock (r : QueueRef) : steady (try_lock r).
Proof.
  apply steady_bind; [apply steady_getQ|]. intros _ p p' a E r0 q0 H.
  exists q0. split; [|reflexivity].
  destruct (busy p) as [|[|] rest]; inversion E; subst;
    destruct r0; exact H.
Qed.

Lemma doDequeue_flags (q : IoQueue) :
  flags (snd (doDequeue q)) = flags q.
Proof.
  destruct (_queue q) as [|t rest] eqn:E.
  - now rewrite (doDequeue_nil q E).
  - now rewrite (doDequeue_cons q t rest E).
Qed.

Lemma steady_doDequeueAt (r h : QueueRef) : steady (doDequeueAt r h).
Proof.
  intros p p' a E r0 q0 H0. unfold doDequeueAt in E.
  apply bind_Ok in E as (q & p1 & G & E). unfold getQ in G.
  destruct (queueAt r p) as [q1|] eqn:Q; [|discriminate].
  inversion G; subst. pose proof (doDequeue_flags q) as F.
  destruct (doDequeue q) as [[hint task] q']. simpl in F.
  apply bind_Ok in E as ([] & p2 & P & E).
  rewrite (putQ_Some _ _ _ _ Q) in P. inversion P; subst.
  apply bind_Ok in E as ([] & p3 & I & E). inversion E; subst.
  destruct (updQ_flags r q q' p1 Q F r0 q0 H0) as (q2 & H2 & F2).
  destruct (steady_modifyQ h (set_isIdle hint) (fun _ => eq_refl)
              _ _ _ I r0 q2 H2) as (q3 & H3 & F3).
  exists q3. split; [exact H3|congruence].
Qed.

Lemma steady_dequeue (r h : QueueRef) : steady (dequeue r h).
Proof.
  unfold dequeue. apply steady_bind; [apply steady_getQ|]. intros q.
  destruct (_loadBalanceSharedIoQueues q); [|apply steady_doDequeueAt].
  apply steady_bind; [apply steady_lock|]. intros _.
  apply steady_bind; [apply steady_doDequeueAt|]. intros task.
  apply steady_bind; [apply steady_unlock|]. intros _. apply steady_ret.
Qed.

Lemma steady_tryDequeue (r h : QueueRef) : steady (tryDequeue r h).
Proof.
  unfold tryDequeue. apply steady_bind; [apply steady_try_lock|].
  intros [|]; [|apply steady_ret].
  apply steady_bind; [apply steady_doDequeueAt|]. intros task.
  apply steady_bind; [apply steady_unlock|]. intros _. apply steady_ret.
Qed.

Lemma steady_scanShared (n : nat) : forall size0, steady (scanShared n size0).
Proof.
  induction n as [|n IH]; intros size0; simpl; [apply steady_ret|].
  apply steady_bind; [apply steady_modify; intros p; split; reflexivity|].
  intros _. apply steady_bind; [apply steady_read|].
  intros i. apply steady_bind; [apply steady_getQ|].
  intros queue. apply steady_bind; [apply steady_tryDequeue|].
  intros [t|]; [apply steady_ret|apply IH].
Qed.

Lemma steady_tryDequeueFromShared (fuel : nat) :
  steady (tryDequeueFromShared fuel).
Proof.
  induction fuel as [|fuel IH]; simpl.
  - intros p p' a E. discriminate E.
  - apply steady_bind; [apply steady_read|]. intros n.
    apply steady_bind; [apply steady_scanShared|].
    intros [[t|] size1]; [apply steady_ret|].
    destruct (size1 =? 0); [apply steady_ret|apply IH].
Qed.

Lemma steady_grabWorkItemFromAll (fuel : nat) :
  steady (grabWorkItemFromAll fuel).
Proof.
  unfold grabWorkItemFromAll.
  apply steady_bind; [apply steady_modify; intros p; split; reflexivity|].
  intros _. apply steady_bind; [apply steady_read|]. intros [|].
  - apply steady_bind; [apply steady_tryDequeueFromShared|].
    intros [t|]; [apply steady_ret|apply steady_dequeue].
  - apply steady_bind; [apply steady_dequeue|].
    intros [t|]; [apply steady_ret|apply steady_tryDequeueFromShared].
Qed.

Lemma steady_signal (t : option IoTask) :
  steady (match t with
          | Some _ => ret tt
          | None => modifyQ This (signalEmptyCondition true)
          end).
Proof.
  destruct t; [apply steady_ret|]. apply steady_modifyQ. reflexivity.
Qed.

Lemma steady_grabWorkItem : steady grabWorkItem.
Proof.
  unfold grabWorkItem.
  apply steady_bind; [apply steady_modify; intros p; split; reflexivity|].
  intros _. apply steady_bind; [apply steady_read|]. intros [|].
  - apply steady_bind; [apply steady_lock|]. intros _.
    apply steady_bind; [apply steady_dequeue|]. intros [t|].
    + apply steady_bind; [apply steady_unlock|]. intros _. apply steady_ret.
    + apply steady_bind; [apply steady_lock|]. intros _.
      apply steady_bind; [apply steady_dequeue|]. intros t.
      apply steady_bind; [apply steady_signal|]. intros _.
      apply steady_bind; [apply steady_unlock|]. intros _.
      apply steady_bind; [apply steady_unlock|]. intros _. apply steady_ret.
  - apply steady_bind; [apply steady_lock|]. intros _.
    apply steady_bind; [apply steady_dequeue|]. intros [t|].
    + apply steady_bind; [apply steady_unlock|]. intros _. apply steady_ret.
    + apply steady_bind; [apply steady_lock|]. intros _.
      apply steady_bind; [apply steady_dequeue|]. intros t.
      apply steady_bind; [apply steady_signal|]. intros _.
      apply steady_bind; [apply steady_unlock|]. intros _.
      apply steady_bind; [apply steady_unlock|]. intros _. apply steady_ret.
Qed.

Lemma getBackoffInterval_flags (q q' : IoQueue) (ms : Z) :
  getBackoffInterval q = Some (ms, q') -> flags q' = flags q.
Proof.
  unfold getBackoffInterval.
  destruct (_loadBalanceBackoffNum q <? _loadBalancePollIntervalNumBackoffs q);
    destruct (_loadBalancePollIntervalBackoffPolicy _);
    try destruct (exp2_size_t _); intros E; inversion E; reflexivity.
Qed.

Lemma steady_getBackoffIntervalThis : steady getBackoffIntervalThis.
Proof.
  intros p p' a E r0 q0 H0. unfold getBackoffIntervalThis in E.
  destruct (getBackoffInterval (this p)) as [[ms q]|] eqn:G; [|discriminate].
  inversion E; subst.
  apply (updQ_flags This (this p) q p eq_refl
           (getBackoffInterval_flags _ _ _ G) r0 q0 H0).
Qed.

Lemma steady_poll (fuel : nat) : steady (poll fuel).
Proof.
  induction fuel as [|fuel IH].
  - intros p p' a E. discriminate E.
  - cbn [poll]. apply steady_bind; [apply steady_grabWorkItemFromAll|].
    intros [t|].
    + apply steady_bind; [apply steady_modifyQ; reflexivity|].
      intros _. apply steady_ret.
    + apply steady_bind; [apply steady_getBackoffIntervalThis|]. intros ms.
      apply steady_bind; [apply steady_modify; intros p; split; reflexivity|].
      intros _. apply steady_bind; [apply steady_getQ|]. intros q.
      destruct (_isInterrupted q); [apply steady_ret|apply IH].
Qed.

Lemma steady_runTask (t : IoTask) : steady (runTask t).
Proof.
  unfold runTask.
  apply steady_bind; [apply steady_modify; intros p; split; reflexivity|].
  intros _. destruct (IoTask_run t) as [rc|]; [|apply steady_ret].
  destruct (rc =? Status_Success), (getQueueId t =? Queue_Id_Any);
    apply steady_modifyQ; reflexivity.
Qed.

Lemma steady_run (fuel : nat) : steady (run fuel).
Proof.
  induction fuel as [|fuel IH].
  - intros p p' a E. discriminate E.
  - cbn [run]. apply steady_bind; [apply steady_getQ|]. intros q.
    destruct (_loadBalanceSharedIoQueues q).
    + apply steady_bind; [apply steady_poll|]. intros task.
      apply steady_bind; [apply steady_getQ|]. intros q1.
      destruct (_isInterrupted q1); [apply steady_ret|].
      destruct task as [t|].
      * apply steady_bind; [apply steady_runTask|]. intros _. apply IH.
      * intros p p' a E. discriminate E.
    + destruct (_isEmpty q && negb (_isInterrupted q)); [apply steady_ret|].
      destruct (_isInterrupted q); [apply steady_ret|].
      apply steady_bind; [apply steady_grabWorkItem|]. intros [t|].
      * apply steady_bind; [apply steady_runTask|]. intros _. apply IH.
      * apply IH.
Qed.

Lemma steady_this {A : Type} (c : M A) (p p' : Pool) (a : A) :
  steady c -> c p = Ok a p' -> flags (this p') = flags (this p).
Proof.
  intros S E. destruct (S _ _ _ E This (this p) eq_refl) as (q & Q & F).
  simpl in Q. congruence.
Qed.

(** How the loop ends, in terms of the flags the worker had when the
    loop was entered (no other thread writes them in the model). *)
Lemma run_end_flags (fuel : nat) :
  forall (p p' : Pool) (e : LoopEnd),
    run fuel p = Ok e p' ->
    flags (this p') = flags (this p) /\
    match e with
    | Exited => _isInterrupted (this p) = true
    | Blocked =>
        _isInterrupted (this p) = false /\
        _loadBalanceSharedIoQueues (this p) = false /\
        _isEmpty (this p') = true
    end.
Proof.
  induction fuel as [|fuel IH]; intros p p' e E; [discriminate|].
  split; [apply (steady_this _ _ _ _ (steady_run (S fuel)) E)|].
  cbn [run] in E. apply bind_Ok in E as (q & p0 & G & E).
  unfold getQ in G. simpl in G. injection G as <- <-.
  destruct (_loadBalanceSharedIoQueues (this p)) eqn:HL.
  - apply bind_Ok in E as (task & p1 & P & E).
    pose proof (steady_this _ _ _ _ (steady_poll (S fuel)) P) as F1.
    apply bind_Ok in E as (q & p0 & G & E).
    unfold getQ in G. simpl in G. injection G as <- <-.
    unfold flags in F1.
    destruct (_isInterrupted (this p1)) eqn:HI.
    + injection E as <- <-. congruence.
    + destruct task as [t|]; [|discriminate].
      apply bind_Ok in E as ([] & p2 & T & E).
      pose proof (steady_this _ _ _ _ (steady_runTask t) T) as F2.
      unfold flags in F2. destruct (IH _ _ _ E) as [_ C].
      destruct e; [congruence|]. destruct C as (_ & C & _). congruence.
  - destruct (_isEmpty (this p)) eqn:HE,
      (_isInterrupted (this p)) eqn:HI; simpl in E.
    + injection E as <- <-. reflexivity.
    + injection E as <- <-. auto.
    + injection E as <- <-. reflexivity.
    + apply bind_Ok in E as (task & p1 & W & E).
      pose proof (steady_this _ _ _ _ steady_grabWorkItem W) as F1.
      unfold flags in F1.
      assert (R : exists p2, run fuel p2 = Ok e p' /\
                             flags (this p2) = flags (this p1)).
      { destruct task as [t|]; [|eauto].
        apply bind_Ok in E as ([] & p2 & T & E). exists p2.
        split; [exact E|]. apply (steady_this _ _ _ _ (steady_runTask t) T). }
      destruct R as (p2 & R & F2). unfold flags in F2.
      destruct (IH _ _ _ R) as [_ C].
      destruct e; [congruence|]. destruct C as (_ & _ & C). auto.
Qed.

(** X8: the worker loop holds no write to the terminated flag, the
    interrupted flag or the mode: a run of the loop leaves every queue of
    the pool with these three as it found them.  When the loop has left
    by its [break] the worker's [_isInterrupted] is set; when it waits
    on the condition the worker is without load balancing, not
    interrupted, and its [_isEmpty] is set. *)
Theorem loop_ends_as_flags_say (fuel : nat) (p p' : Pool) (e : LoopEnd) :
  run fuel p = Ok e p' ->
  (forall (r : QueueRef) (q : IoQueue),
     queueAt r p = Some q ->
     exists q' : IoQueue, queueAt r p' = Some q' /\ flags q' = flags q) /\
  match e with
  | Exited => _isInterrupted (this p') = true
  | Blocked =>
      _isInterrupted (this p') = false /\
      _loadBalanceSharedIoQueues (this p') = false /\
      _isEmpty (this p') = true
  end.
Proof.
  intros E. split; [apply (steady_run fuel _ _ _ E)|].
  destruct (run_end_flags fuel p p' e E) as [F C].
  unfold flags in F. destruct e.
  - congruence.
  - destruct C as (C1 & C2 & C3). repeat split; congruence.
Qed.

Lemma loop_ends_as_flags_say_witness :
  exists p' : Pool,
    run 3 (busyPool [plainA]) = Ok Blocked p' /\
    (forall (r : QueueRef) (q : IoQueue),
       queueAt r (busyPool [plainA]) = Some q ->
       exists q' : IoQueue, queueAt r p' = Some q' /\ flags q' = flags q) /\
    _isInterrupted (this p') = false /\
    _loadBalanceSharedIoQueues (this p') = false /\
    _isEmpty (this p') = true.
Proof.
  assert (R : exists p', run 3 (busyPool [plainA]) = Ok Blocked p').
  { eexists. vm_compute. reflexivity. }
  destruct R as [p' R]. exists p'. split; [exact R|].
  exact (loop_ends_as_flags_say 3 (busyPool [plainA]) p' Blocked R).
Defined.

(** ** The run log during selection *)

Lemma keeps_ret {A X : Type} (f : Pool -> X) (a : A) : keeps f (ret a).
Proof. intros p p' a' E. inversion E; subst. reflexivity. Qed.

Lemma keeps_bind {A B X : Type} (f : Pool -> X) (c : M A) (k : A -> M B) :
  keeps f c -> (forall a, keeps f (k a)) -> keeps f (bind c k).
Proof.
  intros Hc Hk p p' b E. apply bind_Ok in E as (a & p1 & E1 & E2).
  rewrite (Hk _ _ _ _ E2). apply (Hc _ _ _ E1).
Qed.

Lemma keeps_getQ {X : Type} (f : Pool -> X) (r : QueueRef) :
  keeps f (getQ r).
Proof.
  intros p p' a E. unfold getQ in E.
  destruct (queueAt r p); [|discriminate]. inversion E; subst. reflexivity.
Qed.

Lemma keeps_read {A X : Type} (f : Pool -> X) (g : Pool -> A) :
  keeps f (fun p => Ok (g p) p).
Proof. intros p p' a E. inversion E; subst. reflexivity. Qed.

Lemma keeps_modify {X : Type} (f : Pool -> X) (g : Pool -> Pool) :
  (forall p, f (g p) = f p) -> keeps f (modify g).
Proof. intros H p p' a E. inversion E; subst. apply H. Qed.














(** X10: when [poll] comes back with a task, the backoff step counter of
    the worker is back at zero. *)
Theorem poll_resets_backoff (fuel : nat) :
  forall (p p' : Pool) (t : IoTask),
    poll fuel p = Ok (Some t) p' ->
    _loadBalanceBackoffNum (this p') = 0.
Proof.
  induction fuel as [|fuel IH]; intros p p' t E; [discriminate|].
  cbn [poll] in E. apply bind_Ok in E as (task & p1 & G & E).
  destruct task as [t1|].
  - apply bind_Ok in E as ([] & p2 & W & E). injection E as _ <-.
    unfold modifyQ, bind, getQ, putQ in W. simpl in W.
    injection W as <-. reflexivity.
  - apply bind_Ok in E as (ms & p2 & B & E).
    apply bind_Ok in E as ([] & p3 & S & E).
    apply bind_Ok in E as (q & p4 & Q & E).
    destruct (_isInterrupted q); [discriminate|]. apply (IH _ _ _ E).
Qed.

Lemma poll_resets_backoff_witness :
  exists p' : Pool,
    poll 1 (interruptedPool [plainA]) = Ok (Some plainA) p' /\
    _loadBalanceBackoffNum (this p') = 0.
Proof.
  assert (R : exists p', poll 1 (interruptedPool [plainA])
                         = Ok (Some plainA) p').
  { eexists. vm_compute. reflexivity. }
  destruct R as [p' R]. exists p'. split; [exact R|].
  exact (poll_resets_backoff 1 _ _ _ R).
Defined.

Lemma grab_own_first (fuel : nat) (p : Pool) (t : IoTask)
    (rest : list IoTask) :
  _loadBalanceSharedIoQueues (this p) = true ->
  grabWorkItemFromAll_grabFromShared p = true ->
  ownQ p = t :: rest ->
  exists p1 : Pool,
    grabWorkItemFromAll fuel p = Ok (Some t) p1 /\
    ownQ p1 = rest /\
    runLog p1 = runLog p /\
    sharedIoQueues p1 = sharedIoQueues p /\
    _isInterrupted (this p1) = _isInterrupted (this p).
Proof.
  intros HL HG HQ.
  destruct p as [w sh g g2 ix bz ll sl rl].
  destruct w as [wp wlb wms wpol wnb wn wth wq we wi widle wt wst].
  unfold ownQ in *. simpl in *. subst.
  eexists. split.
  - unfold grabWorkItemFromAll, bind, modify, dequeue, getQ, lock,
      doDequeueAt, unlock, putQ, modifyQ, ret. simpl.
    unfold bind, getQ, putQ, modify. simpl. reflexivity.
  - simpl. auto.
Qed.

(** X11: with load balancing, a worker that has been interrupted still
    makes one selection before it leaves its loop.  When that selection
    starts with its own queue and finds a task there, the task is taken
    out of the queue, the loop ends, and the task is never run. *)
Theorem interrupted_selection_drops_task (fuel : nat) (p : Pool)
    (t : IoTask) (rest : list IoTask) :
  _loadBalanceSharedIoQueues (this p) = true ->
  _isInterrupted (this p) = true ->
  grabWorkItemFromAll_grabFromShared p = true ->
  ownQ p = t :: rest ->
  exists p' : Pool,
    run (S fuel) p = Ok Exited p' /\
    ownQ p' = rest /\
    runLog p' = runLog p /\
    sharedIoQueues p' = sharedIoQueues p.
Proof.
  intros HL HI HG HQ.
  destruct (grab_own_first (S fuel) p t rest HL HG HQ)
    as (p1 & G & Q1 & R1 & S1 & I1).
  exists (updQ This (set_loadBalanceBackoffNum 0 (this p1)) p1).
  split.
  - rewrite (run_step_balanced fuel p HL). cbn [poll].
    unfold bind at 1. unfold bind at 1. rewrite G.
    unfold bind at 1. unfold modifyQ, bind at 1, getQ at 1.
    cbn [queueAt]. cbv beta iota. unfold putQ. cbn [queueAt].
    cbv beta iota. unfold ret at 1. cbv beta iota.
    unfold bind at 1, getQ at 1. cbn [queueAt updQ]. cbv beta iota.
    change (_isInterrupted
              (this (set_this (set_loadBalanceBackoffNum 0 (this p1)) p1)))
      with (_isInterrupted (this p1)).
    rewrite I1, HI. reflexivity.
  - unfold ownQ in *. simpl. auto.
Qed.

Lemma interrupted_selection_drops_task_witness :
  exists p' : Pool,
    run 1 (interruptedPool [plainA; plainB]) = Ok Exited p' /\
    ownQ p' = [plainB] /\
    runLog p' = runLog (interruptedPool [plainA; plainB]) /\
    sharedIoQueues p' = sharedIoQueues (interruptedPool [plainA; plainB]).
Proof.
  exact (interrupted_selection_drops_task 0 (interruptedPool [plainA; plainB])
           plainA [plainB] eq_refl eq_refl eq_refl eq_refl).
Defined.

(** ** Terminating twice *)

Lemma set_terminated_id (q : IoQueue) :
  _terminated q = true -> set_terminated true q = q.
Proof. destruct q. simpl. intros ->. reflexivity. Qed.

Lemma updQ_id (r : QueueRef) (q : IoQueue) (p : Pool) :
  queueAt r p = Some q -> updQ r q p = p.
Proof.
  destruct p as [w sh g g2 ix bz ll sl rl]. destruct r as [|i]; simpl.
  - intros [= ->]. reflexivity.
  - intros H. unfold set_sharedIoQueues. simpl.
    now rewrite (list_insert_id _ _ _ H).
Qed.

Lemma terminate_terminated (r : QueueRef) (fuel : nat) (p : Pool)
    (q : IoQueue) :
  queueAt r p = Some q -> _terminated q = true ->
  terminate r fuel p = Ok tt p.
Proof.
  intros H T. unfold terminate, bind. rewrite (getQ_Some _ _ _ H).
  rewrite (putQ_Some _ _ _ _ H), (set_terminated_id q T), (updQ_id r q p H).
  rewrite T. reflexivity.
Qed.

Lemma steady_join (r : QueueRef) (fuel : nat) : steady (join r fuel).
Proof.
  unfold join. apply steady_bind; [apply steady_getQ|]. intros q.
  destruct (_thread q); [|intros p p' a E; discriminate E].
  destruct r; [|intros p p' a E; discriminate E].
  apply steady_bind; [apply steady_run|].
  intros [|]; [apply steady_ret|intros p p' a E; discriminate E].
Qed.

(** After [terminate] the queue is marked terminated, whatever the call
    did besides. *)
Lemma terminate_marks (r : QueueRef) (fuel : nat) (p p' : Pool) :
  terminate r fuel p = Ok tt p' ->
  exists q' : IoQueue, queueAt r p' = Some q' /\ _terminated q' = true.
Proof.
  intros E. unfold terminate in E.
  apply bind_Ok in E as (q & p0 & G & E). unfold getQ in G.
  destruct (queueAt r p) as [q0|] eqn:Q; [|discriminate].
  inversion G; subst. apply bind_Ok in E as ([] & p1 & P & E).
  rewrite (putQ_Some _ _ _ _ Q) in P. inversion P; subst.
  pose proof (queueAt_updQ_same r (set_terminated true q) q p0 Q) as Q1.
  assert (D : exists q', queueAt r p' = Some q' /\ _terminated q' = true
              \/ False).
  { destruct (negb (_terminated q)), (_sharedIoQueues q);
      try (inversion E; subst; eauto; fail).
    apply bind_Ok in E as ([] & p2 & I & E).
    rewrite (modifyQ_Some _ _ _ _ Q1) in I. inversion I; subst.
    pose proof (queueAt_updQ_same r
                  (set_isInterrupted true (set_terminated true q))
                  _ _ Q1) as Q2.
    apply bind_Ok in E as ([] & p3 & J & E).
    destruct (steady_join r fuel _ _ _ J r _ Q2) as (q3 & Q3 & F3).
    rewrite (modifyQ_Some _ _ _ _ Q3) in E. inversion E; subst.
    exists (set_queue [] q3). left.
    split; [apply (queueAt_updQ_same _ _ _ _ Q3)|].
    unfold flags in F3. simpl in *. congruence. }
  destruct D as (q' & [D|[]]). eauto.
Qed.

(** X12: [terminate] is idempotent.  On a queue already marked
    terminated it changes nothing at all; so once a call of [terminate]
    has returned, any further call leaves the pool as the first one
    left it. *)
Theorem terminate_twice (r : QueueRef) (fuel1 fuel2 : nat) (p p1 : Pool) :
  terminate r fuel1 p = Ok tt p1 ->
  terminate r fuel2 p1 = Ok tt p1.
Proof.
  intros E. destruct (terminate_marks r fuel1 p p1 E) as (q' & Q & T).
  apply (terminate_terminated r fuel2 p1 q' Q T).
Qed.

Lemma terminate_twice_witness :
  exists p1 : Pool,
    terminate This 1 (busyPool [plainA]) = Ok tt p1 /\
    terminate This 1 p1 = Ok tt p1.
Proof.
  assert (R : exists p1, terminate This 1 (busyPool [plainA]) = Ok tt p1).
  { eexists. vm_compute. reflexivity. }
  destruct R as [p1 R]. exists p1. split; [exact R|].
  exact (terminate_twice This 1 1 _ _ R).
Defined.

(** ** The linear policy *)

(** X13: with the linear policy, base interval [b] and cap [m], as long
    as the largest interval [b * (1 + m)] is below [2^63] ms (the cap
    itself is not bounded), the [k]-th call of [getBackoffInterval]
    after a reset returns [b * (1 + min(k, m))]: [2 * b], [3 * b], ...
    up to [(m + 1) * b], which is then repeated. *)
Theorem linear_backoff_after_reset (q : IoQueue) (k : nat) :
  _loadBalancePollIntervalBackoffPolicy q = Linear ->
  0 <= _loadBalancePollIntervalMs q ->
  0 <= _loadBalancePollIntervalNumBackoffs q ->
  _loadBalancePollIntervalMs q * (1 + _loadBalancePollIntervalNumBackoffs q)
  < 2 ^ 63 ->
  _loadBalanceBackoffNum q = 0 ->
  intervals k q
  = Some (map (fun i : nat =>
                 _loadBalancePollIntervalMs q
                 * (1 + Z.min (Z.of_nat i)
                          (_loadBalancePollIntervalNumBackoffs q)))
            (seq 1 k)).
Proof.
  intros HP Hb Hm Hr H0.
  assert (HR : intervalsInRange q).
  { unfold intervalsInRange. rewrite HP, H0, Z.max_r by lia. simpl.
    repeat split; try lia. discriminate. }
  rewrite (intervals_within k q HR), HP, H0. f_equal.
  apply map_ext_in. intros i Hi. apply in_seq in Hi. simpl.
  f_equal. lia.
Qed.

Lemma linear_backoff_after_reset_witness :
  intervals 5 (worker slowLinearConfig)
  = Some (map (fun i : nat => 1 * (1 + Z.min (Z.of_nat i) 100)) (seq 1 5)).
Proof.
  exact (linear_backoff_after_reset (worker slowLinearConfig) 5 eq_refl
           ltac:(simpl; lia) ltac:(simpl; lia) ltac:(simpl; lia) eq_refl).
Defined.

(** ** From enqueue to execution *)

Lemma doEnqueue_flags (task : IoTask) (q : IoQueue) :
  flags (doEnqueue task q) = flags q.
Proof.
  unfold doEnqueue.
  destruct (isHighPriority task); simpl;
    destruct (_loadBalanceSharedIoQueues q), (list_empty (_queue q));
    reflexivity.
Qed.

Lemma doEnqueue_signals (task : IoTask) (q : IoQueue) :
  _loadBalanceSharedIoQueues q = false -> _queue q = [] ->
  _isEmpty (doEnqueue task q) = false /\ _queue (doEnqueue task q) = [task].
Proof.
  intros HL HQ. rewrite doEnqueue_queue, HQ.
  split; [|destruct (isHighPriority task); reflexivity].
  unfold doEnqueue. rewrite HQ.
  destruct (isHighPriority task); simpl; rewrite HL; reflexivity.
Qed.

(** X14: without load balancing, a task enqueued into the own queue of
    a worker that has nothing pending wakes the worker by itself
    ([_isEmpty] is cleared on the transition from no element to one):
    the loop runs exactly that task, counts its outcome, and waits
    again. *)
Theorem own_task_is_run (task : IoTask) (p : Pool) :
  nonLoadBalanced p ->
  _isInterrupted (this p) = false ->
  ownQ p = [] -> sharedQ p = [] ->
  exists p' : Pool,
    (enqueue This task ;; run 3) p = Ok Blocked p' /\
    runLog p' = runLog p ++ [task] /\
    ownQ p' = [] /\
    outcomes (_stats (this p'))
    = addOutcomes (outcomes (_stats (this p))) (tally [task]).
Proof.
  intros NL HI HO HS.
  pose proof (enqueue_Some This task p (this p) eq_refl) as E.
  set (p1 := set_lockLog (lockLog p ++ [Acquire This; Release This])
               (updQ This (doEnqueue task (this p)) p)) in *.
  destruct NL as (HL & s & H0 & HL0).
  destruct (doEnqueue_signals task (this p) HL HO) as [HE HQ].
  assert (NL1 : nonLoadBalanced p1).
  { split.
    - pose proof (doEnqueue_flags task (this p)) as F. unfold flags in F.
      simpl. congruence.
    - exists s. simpl. auto. }
  assert (S1 : sharedQ p1 = []) by exact HS.
  assert (O1 : ownQ p1 = [task]) by exact HQ.
  assert (I1 : _isInterrupted (this p1) = false).
  { pose proof (doEnqueue_flags task (this p)) as F. unfold flags in F.
    simpl. congruence. }
  destruct (run_drains 1 p1 NL1 I1 HE) as (p' & l & R & RL & PL & Q' & _ & O').
  { rewrite O1, S1. reflexivity. }
  rewrite O1, S1 in PL. simpl in PL.
  apply Permutation_sym, Permutation_singleton_l in PL. subst l.
  exists p'. unfold bind. rewrite E. split; [exact R|].
  split; [exact RL|]. split; [exact Q'|].
  rewrite O'. f_equal.
  destruct (doEnqueue_stats task (this p)) as (_ & _ & _ & C & _). exact C.
Qed.

Lemma own_task_is_run_witness :
  exists p' : Pool,
    (enqueue This failing ;; run 3) idlePool = Ok Blocked p' /\
    runLog p' = runLog idlePool ++ [failing] /\
    ownQ p' = [] /\
    outcomes (_stats (this p'))
    = addOutcomes (outcomes (_stats (this idlePool))) (tally [failing]).
Proof.
  exact (own_task_is_run failing idlePool
           (conj eq_refl (ex_intro _ freshQueue (conj eq_refl eq_refl)))
           eq_refl eq_refl eq_refl).
Defined.

(** X15: [enqueue] on a shared queue writes that queue only: the
    worker is left as it was, [_isEmpty] included, so a worker waiting
    on the condition keeps waiting.  Once the worker has been signalled
    ([signalEmptyCondition(false)]), its loop runs the task from the
    first shared queue and waits again. *)
Theorem shared_task_needs_signal (task : IoTask) (p : Pool) :
  nonLoadBalanced p ->
  _isInterrupted (this p) = false ->
  _isEmpty (this p) = true ->
  ownQ p = [] -> sharedQ p = [] ->
  exists p1 : Pool,
    enqueue (Shared 0) task p = Ok tt p1 /\
    this p1 = this p /\
    run 3 p1 = Ok Blocked p1 /\
    exists p' : Pool,
      (modifyQ This (signalEmptyCondition false) ;; run 3) p1
      = Ok Blocked p' /\
      runLog p' = runLog p ++ [task] /\
      sharedQ p' = [].
Proof.
  intros NL HI HE HO HS.
  destruct NL as (HL & s & H0 & HL0).
  pose proof (enqueue_Some (Shared 0) task p s H0) as E.
  set (p1 := set_lockLog (lockLog p ++ [Acquire (Shared 0); Release (Shared 0)])
               (updQ (Shared 0) (doEnqueue task s) p)) in *.
  exists p1. split; [exact E|]. split; [reflexivity|].
  split; [apply run_blocked; assumption|].
  assert (HSQ : _queue s = []) by (unfold sharedQ in HS; now rewrite H0 in HS).
  assert (L1 : sharedIoQueues p1 !! O = Some (doEnqueue task s)).
  { simpl. apply list_lookup_insert_eq. now apply lookup_lt_Some in H0. }
  set (p2 := updQ This (signalEmptyCondition false (this p1)) p1).
  assert (NL2 : nonLoadBalanced p2).
  { split; [exact HL|]. exists (doEnqueue task s). split; [exact L1|].
    pose proof (doEnqueue_flags task s) as F. unfold flags in F. congruence. }
  assert (S2 : sharedQ p2 = [task]).
  { unfold sharedQ. change (sharedIoQueues p2) with (sharedIoQueues p1).
    rewrite L1, doEnqueue_queue, HSQ.
    destruct (isHighPriority task); reflexivity. }
  assert (O2 : ownQ p2 = []) by exact HO.
  destruct (run_drains 1 p2 NL2 HI eq_refl) as (p' & l & R & RL & PL & _ & S' & _).
  { rewrite O2, S2. reflexivity. }
  rewrite O2, S2 in PL. simpl in PL.
  apply Permutation_sym, Permutation_singleton_l in PL. subst l.
  exists p'. unfold bind. rewrite (modifyQ_Some This _ p1 (this p1) eq_refl).
  fold p2. auto.
Qed.

Lemma idlePool_nonLoadBalanced : nonLoadBalanced idlePool.
Proof. split; [reflexivity|]. exists freshQueue. split; reflexivity. Defined.

Lemma shared_task_needs_signal_witness :
  exists p1 : Pool,
    enqueue (Shared 0) plainA idlePool = Ok tt p1 /\
    this p1 = this idlePool /\
    run 3 p1 = Ok Blocked p1 /\
    exists p' : Pool,
      (modifyQ This (signalEmptyCondition false) ;; run 3) p1
      = Ok Blocked p' /\
      runLog p' = runLog idlePool ++ [plainA] /\
      sharedQ p' = [].
Proof.
  exact (shared_task_needs_signal plainA idlePool idlePool_nonLoadBalanced
           eq_refl eq_refl eq_refl eq_refl).
Defined.

(** X16: [grabWorkItem] alternates.  With a task pending in the worker's
    queue and one in the first shared queue, two calls in a row hand out
    one task of each, starting with the queue the static flag points
    away from. *)
Theorem grabWorkItem_alternates (p : Pool) (a b : IoTask)
    (o s : list IoTask) :
  nonLoadBalanced p ->
  ownQ p = a :: o -> sharedQ p = b :: s ->
  exists (p1 p2 : Pool) (x y : IoTask),
    grabWorkItem p = Ok (Some x) p1 /\
    grabWorkItem p1 = Ok (Some y) p2 /\
    (x, y) = (if grabWorkItem_grabFromShared p then (a, b) else (b, a)) /\
    ownQ p2 = o /\ sharedQ p2 = s /\
    grabWorkItem_grabFromShared p2 = grabWorkItem_grabFromShared p.
Proof.
  intros (HL & s0 & H0 & HL0) HO HS.
  destruct p as [w sh g g2 ix bz ll sl rl]. simpl in *.
  destruct sh as [|s1 rest]; [discriminate|]. injection H0 as ->.
  destruct w as [wp wlb wms wpol wnb wn wth wq we wi widle wt wst].
  destruct s0 as [sp slb sms spol snb sn sth sq se si sidle st sst].
  unfold ownQ, sharedQ in *. simpl in *. subst.
  destruct g; do 4 eexists;
    (split; [reflexivity|]); (split; [reflexivity|]); simpl; auto.
Qed.

Lemma grabWorkItem_alternates_witness :
  exists (p1 p2 : Pool) (x y : IoTask),
    grabWorkItem (mkPool (set_queue [plainA] (worker plainConfig))
                    [set_queue [plainB] freshQueue])
    = Ok (Some x) p1 /\
    grabWorkItem p1 = Ok (Some y) p2 /\
    (x, y) = (plainB, plainA) /\
    ownQ p2 = [] /\ sharedQ p2 = [] /\
    grabWorkItem_grabFromShared p2 = false.
Proof.
  exact (grabWorkItem_alternates
           (mkPool (set_queue [plainA] (worker plainConfig))
              [set_queue [plainB] freshQueue])
           plainA plainB [] []
           (conj eq_refl
              (ex_intro _ (set_queue [plainB] freshQueue)
                 (conj eq_refl eq_refl)))
           eq_refl eq_refl).
Defined.

(** ** The rotating index of the scan *)

(** X17: a scan that finds no task has advanced the static index by one
    for each queue it tried, modulo [2^64].  After a full scan of all
    the shared queues the index is therefore the same modulo their
    number (as long as it has not wrapped), and the next scan starts at
    the very queue this one started at: the starting queue moves on only
    when a scan ends early with a task. *)
Theorem scan_advances_index (size0 size1 : Z) (p p' : Pool) :
  sharedIoQueues p <> [] ->
  scanShared (length (sharedIoQueues p)) size0 p = Ok (None, size1) p' ->
  tryDequeueFromShared_index p'
  = to_size_t (tryDequeueFromShared_index p
               + Z.of_nat (length (sharedIoQueues p))) /\
  sharedIoQueues p' = sharedIoQueues p /\
  (0 <= tryDequeueFromShared_index p ->
   tryDequeueFromShared_index p
   + Z.of_nat (length (sharedIoQueues p)) + 1 < 2 ^ 64 ->
   to_size_t (tryDequeueFromShared_index p' + 1)
     mod Z.of_nat (length (sharedIoQueues p'))
   = to_size_t (tryDequeueFromShared_index p + 1)
       mod Z.of_nat (length (sharedIoQueues p))).
Proof.
  intros Hne E.
  assert (HL : exists m, length (sharedIoQueues p) = S m).
  { destruct (sharedIoQueues p); [congruence|]. simpl. eauto. }
  destruct HL as [m HL].
  pose proof (scanShared_index _ _ _ _ _ (or_intror Hne) E) as I.
  rewrite HL in I. rewrite <- HL in I.
  destruct (scanShared_result (length (sharedIoQueues p)) size0 p
              (or_intror Hne))
    as (r & size2 & p2 & E2 & _ & C).
  rewrite E in E2. injection E2 as <- <- <-. destruct C as [S _].
  split; [exact I|]. split; [exact S|].
  intros H0 Hw. rewrite I, S.
  set (n := Z.of_nat (length (sharedIoQueues p))) in *.
  assert (Hn : 0 < n) by (unfold n; rewrite HL; lia).
  unfold to_size_t.
  rewrite (Z.mod_small (tryDequeueFromShared_index p + n)) by lia.
  rewrite !Z.mod_small
    with (a := tryDequeueFromShared_index p + n + 1) (b := 2 ^ 64) by lia.
  rewrite (Z.mod_small (tryDequeueFromShared_index p + 1)) by lia.
  replace (tryDequeueFromShared_index p + n + 1)
    with (tryDequeueFromShared_index p + 1 + 1 * n) by lia.
  apply Z_mod_plus_full.
Qed.

Lemma threeEmpty_has_shared : sharedIoQueues threeEmpty <> [].
Proof. discriminate. Defined.

Lemma scan_advances_index_witness :
  exists p' : Pool,
    scanShared 3 0 threeEmpty = Ok (None, 0) p' /\
    tryDequeueFromShared_index p'
    = to_size_t (tryDequeueFromShared_index threeEmpty
                 + Z.of_nat (length (sharedIoQueues threeEmpty))) /\
    sharedIoQueues p' = sharedIoQueues threeEmpty /\
    to_size_t (tryDequeueFromShared_index p' + 1)
      mod Z.of_nat (length (sharedIoQueues p'))
    = to_size_t (tryDequeueFromShared_index threeEmpty + 1)
        mod Z.of_nat (length (sharedIoQueues threeEmpty)).
Proof.
  assert (R : exists p', scanShared 3 0 threeEmpty = Ok (None, 0) p').
  { eexists. vm_compute. reflexivity. }
  destruct R as [p' R]. exists p'. split; [exact R|].
  destruct (scan_advances_index 0 0 threeEmpty p' threeEmpty_has_shared R)
    as (I & S & N).
  split; [exact I|]. split; [exact S|].
  apply N; vm_compute; first [reflexivity | intros H; discriminate H].
Defined.

Lemma tryDequeue_idle (r : QueueRef) (p : Pool) (q : IoQueue) :
  queueAt r p = Some q ->
  match busy p with
  | true :: _ => True
  | _ =>
      match tryDequeue r This p with
      | Ok _ p' => _isIdle (this p') = list_empty (_queue q)
      | _ => False
      end
  end.
Proof.
  intros H. destruct (busy p) as [|[|] rest] eqn:B; [|exact I|].
  - unfold tryDequeue, try_lock, bind. rewrite (getQ_Some _ _ _ H), B.
    destruct (doDequeueAt_result r
                (set_lockLog (lockLog p ++ [Acquire r]) p) q)
      as (p1 & q1 & D & _ & _ & ID & _).
    { rewrite queueAt_set_lockLog. exact H. }
    rewrite D. exact ID.
  - unfold tryDequeue, try_lock, bind. rewrite (getQ_Some _ _ _ H), B.
    destruct (doDequeueAt_result r
                (set_lockLog (lockLog p ++ [Acquire r]) (set_busy rest p)) q)
      as (p1 & q1 & D & _ & _ & ID & _).
    { rewrite queueAt_set_lockLog. destruct r; exact H. }
    rewrite D. exact ID.
Qed.

(** X18: without contention, [tryDequeueFromShared] first tries the
    queue whose number is the advanced index modulo the number of
    shared queues; if that queue holds a task, the call returns it and
    the index stays there. *)
Theorem scan_takes_from_next_queue (fuel : nat) (p : Pool) (q : IoQueue)
    (t : IoTask) (rest : list IoTask) :
  busy p = [] ->
  sharedIoQueues p
    !! Z.to_nat (to_size_t (tryDequeueFromShared_index p + 1)
                 mod Z.of_nat (length (sharedIoQueues p)))
  = Some q ->
  _queue q = t :: rest ->
  exists p' : Pool,
    tryDequeueFromShared (S fuel) p = Ok (Some t) p' /\
    tryDequeueFromShared_index p'
    = to_size_t (tryDequeueFromShared_index p + 1) /\
    sharedIoQueues p'
    = <[Z.to_nat (to_size_t (tryDequeueFromShared_index p + 1)
                  mod Z.of_nat (length (sharedIoQueues p)))
        := popped rest q]> (sharedIoQueues p) /\
    _isIdle (this p') = false.
Proof.
  intros HB HQ HT.
  set (i := Z.to_nat (to_size_t (tryDequeueFromShared_index p + 1)
                      mod Z.of_nat (length (sharedIoQueues p)))) in *.
  assert (Hne : sharedIoQueues p <> []).
  { intros N. rewrite N in HQ. discriminate HQ. }
  assert (EL : exists m, length (sharedIoQueues p) = S m).
  { destruct (sharedIoQueues p); [congruence|]. simpl. eauto. }
  destruct EL as [m EL].
  destruct (scanShared_round m 0 p Hne)
    as (q0 & p1 & Hq & S1 & B1 & I1 & R).
  cbv zeta in Hq, R. fold i in Hq, R. rewrite HQ in Hq. injection Hq as <-.
  rewrite tryDequeueFromShared_unfold, EL, R.
  assert (Hq1 : sharedIoQueues p1 !! i = Some q) by (rewrite S1; exact HQ).
  destruct (tryDequeue_shared i p1 q Hq1) as (r & p2 & T & _ & IX & C).
  pose proof (doDequeueAt_result (Shared i) p1 q Hq1) as D.
  destruct C as [(-> & _ & C)|(t' & rest' & -> & HT' & S2)].
  - exfalso. destruct C as [C|C]; [|congruence].
    rewrite B1, HB in C. simpl in C. lia.
  - rewrite HT in HT'. injection HT' as <- <-.
    unfold bind at 1. rewrite T. exists p2.
    split; [reflexivity|]. split; [congruence|].
    split; [rewrite S2, S1; reflexivity|].
    pose proof (tryDequeue_idle (Shared i) p1 q Hq1) as TI.
    rewrite B1, HB, T, HT in TI. exact TI.
Qed.

Lemma scan_takes_from_next_queue_witness :
  exists p' : Pool,
    tryDequeueFromShared 1 threeShared = Ok (Some plainA) p' /\
    tryDequeueFromShared_index p' = to_size_t (0 + 1) /\
    sharedIoQueues p'
    = <[Z.to_nat (to_size_t (0 + 1) mod Z.of_nat 3)
        := popped [] (set_queue [plainA] freshQueue)]>
        (sharedIoQueues threeShared) /\
    _isIdle (this p') = false.
Proof.
  exact (scan_takes_from_next_queue 0 threeShared
           (set_queue [plainA] freshQueue) plainA []
           eq_refl eq_refl eq_refl).
Defined.

(** ** Termination of the worker *)

(** X19: the first [terminate] of a worker with a set of shared queues,
    in either mode: if it returns, the worker had a thread, it is marked
    terminated and interrupted, its list is empty, and the shared queues
    are in place with their flags: what was still in the worker's list
    once the thread had left its loop is discarded. *)
Theorem terminate_discards_pending (fuel : nat) (p p' : Pool) :
  _sharedIoQueues (this p) = sharedVector ->
  _terminated (this p) = false ->
  terminate This fuel p = Ok tt p' ->
  _thread (this p) = true /\
  _queue (this p') = [] /\
  _terminated (this p') = true /\
  _isInterrupted (this p') = true /\
  (forall (i : nat) (q : IoQueue),
     sharedIoQueues p !! i = Some q ->
     exists q' : IoQueue,
       sharedIoQueues p' !! i = Some q' /\ flags q' = flags q).
Proof.
  intros HS HT E. unfold terminate in E.
  apply bind_Ok in E as (q & p0 & G & E).
  unfold getQ in G. simpl in G. injection G as <- <-.
  apply bind_Ok in E as ([] & p1 & P & E).
  unfold putQ in P. simpl in P. injection P as <-.
  rewrite HT, HS in E. simpl negb in E. cbv iota in E.
  apply bind_Ok in E as ([] & p2 & I & E).
  rewrite (modifyQ_Some This _ _ _ eq_refl) in I. injection I as <-.
  apply bind_Ok in E as ([] & p3 & J & E).
  rewrite (modifyQ_Some This _ _ _ eq_refl) in E. injection E as <-.
  pose proof (steady_this _ _ _ _ (steady_join This fuel) J) as F.
  unfold flags in F. simpl in F.
  pose proof (steady_join This fuel _ _ _ J) as SJ.
  unfold join in J. apply bind_Ok in J as (q & p4 & G & J).
  unfold getQ in G. simpl in G. injection G as <- <-.
  simpl in J. destruct (_thread (this p)); [|discriminate].
  split; [reflexivity|]. simpl.
  split; [reflexivity|]. split; [congruence|]. split; [congruence|].
  intros i q Hq. apply (SJ (Shared i) q Hq).
Qed.

Lemma terminate_discards_pending_witness :
  exists p' : Pool,
    terminate This 1 (interruptedPool [plainA; plainB]) = Ok tt p' /\
    _thread (this (interruptedPool [plainA; plainB])) = true /\
    _queue (this p') = [] /\
    _terminated (this p') = true /\
    _isInterrupted (this p') = true /\
    (forall (i : nat) (q : IoQueue),
       sharedIoQueues (interruptedPool [plainA; plainB]) !! i = Some q ->
       exists q' : IoQueue,
         sharedIoQueues p' !! i = Some q' /\ flags q' = flags q).
Proof.
  assert (R : exists p', terminate This 1 (interruptedPool [plainA; plainB])
                         = Ok tt p').
  { eexists. vm_compute. reflexivity. }
  destruct R as [p' R]. exists p'. split; [exact R|].
  exact (terminate_discards_pending 1 (interruptedPool [plainA; plainB]) p'
           eq_refl eq_refl R).
Defined.

(** X20: [terminate] clears the list but not the element counter.
    Without load balancing, the first [terminate] of a worker leaves
    [numElements] as it was, so for a worker that had tasks pending the
    variant of [size()] compiled for the old ABI still reports them,
    while the list, and [size()] as compiled by default, report
    none. *)
Theorem terminate_leaves_counter (fuel : nat) (p : Pool) :
  _sharedIoQueues (this p) = sharedVector ->
  _thread (this p) = true ->
  _terminated (this p) = false ->
  _loadBalanceSharedIoQueues (this p) = false ->
  countsElements (this p) ->
  exists p' : Pool,
    terminate This (S fuel) p = Ok tt p' /\
    _queue (this p') = [] /\
    size_oldABI (this p') = size (this p) /\
    size (this p') = (if _isIdle (this p) then 0 else 1).
Proof.
  intros HS HT HN HL HC.
  destruct p as [w sh g g2 ix bz ll sl rl].
  destruct w as [wp wlb wms wpol wnb wn wth wq we wi widle wt wst].
  unfold countsElements, size_oldABI, size in *. simpl in *. subst.
  eexists. split.
  - unfold terminate, bind, getQ, putQ, modifyQ, join. simpl.
    unfold bind, getQ, putQ. simpl.
    rewrite andb_false_r. reflexivity.
  - simpl. rewrite HC. destruct widle; auto.
Qed.

Lemma terminate_leaves_counter_witness :
  exists p' : Pool,
    terminate This 1
      (mkPool (doEnqueue plainA (worker plainConfig)) [freshQueue])
    = Ok tt p' /\
    _queue (this p') = [] /\
    size_oldABI (this p') = 1 /\
    size (this p') = 0.
Proof.
  exact (terminate_leaves_counter 0
           (mkPool (doEnqueue plainA (worker plainConfig)) [freshQueue])
           eq_refl eq_refl eq_refl eq_refl eq_refl).
Defined.

(** ** Selection conserves the tasks *)

Lemma dequeue_own (p p' : Pool) (task : option IoTask) :
  dequeue This This p = Ok task p' ->
  task = head (ownQ p) /\
  ownQ p' = tail (ownQ p) /\
  sharedIoQueues p' = sharedIoQueues p.
Proof.
  assert (F : forall p0 p1 task0,
            doDequeueAt This This p0 = Ok task0 p1 ->
            task0 = head (ownQ p0) /\ ownQ p1 = tail (ownQ p0) /\
            sharedIoQueues p1 = sharedIoQueues p0 /\
            lockLog p1 = lockLog p0).
  { intros p0 p1 task0 E.
    destruct (doDequeueAt_result This p0 (this p0) eq_refl)
      as (p2 & q2 & D & Q & T & _ & L & _ & _ & S & _).
    rewrite D in E. injection E as <- <-. simpl in Q. injection Q as <-.
    repeat split; try assumption.
    apply list_eq. intros i. apply S. discriminate. }
  intros E. unfold dequeue in E. apply bind_Ok in E as (q & p0 & G & E).
  unfold getQ in G. simpl in G. injection G as <- <-.
  destruct (_loadBalanceSharedIoQueues (this p)).
  - apply bind_Ok in E as ([] & p1 & L & E).
    rewrite (lock_Some This p (this p) eq_refl) in L. injection L as <-.
    apply bind_Ok in E as (t & p2 & D & E).
    apply bind_Ok in E as ([] & p3 & U & E).
    injection U as <-. injection E as <- <-.
    destruct (F _ _ _ D) as (-> & O & S & _). auto.
  - destruct (F _ _ _ E) as (-> & O & S & _). auto.
Qed.

Lemma keeps_ownQ_tryDequeue (i : nat) :
  keeps ownQ (tryDequeue (Shared i) This).
Proof.
  intros p p' a E.
  destruct (queueAt (Shared i) p) as [q|] eqn:Q.
  - pose proof (tryDequeue_shared i p q Q) as (r & p1 & T & _ & _ & _).
    assert (K : forall p0, queueAt (Shared i) p0 = Some q ->
                forall t p2, doDequeueAt (Shared i) This p0 = Ok t p2 ->
                ownQ p2 = ownQ p0).
    { intros p0 Q0 t p2 D.
      destruct (doDequeueAt_result (Shared i) p0 q Q0)
        as (p3 & q3 & D3 & _ & _ & _ & _ & _ & _ & _ & W).
      rewrite D3 in D. injection D as _ <-.
      unfold ownQ. rewrite W by discriminate. reflexivity. }
    unfold tryDequeue, try_lock in E.
    apply bind_Ok in E as (owns & p2 & L & E).
    apply bind_Ok in L as (q0 & p3 & G & L).
    unfold getQ in G. rewrite Q in G. injection G as <- <-.
    destruct (busy p) as [|[|] rest]; injection L as <- <-.
    + apply bind_Ok in E as (t & p4 & D & E).
      apply bind_Ok in E as ([] & p5 & U & E).
      injection U as <-. injection E as _ <-.
      apply (K (set_lockLog (lockLog p ++ [Acquire (Shared i)]) p) Q) in D.
      exact D.
    + injection E as _ <-. reflexivity.
    + apply bind_Ok in E as (t & p4 & D & E).
      apply bind_Ok in E as ([] & p5 & U & E).
      injection U as <-. injection E as _ <-.
      apply (K (set_lockLog (lockLog p ++ [Acquire (Shared i)])
                  (set_busy rest p)) Q) in D.
      exact D.
  - unfold tryDequeue, try_lock, bind, getQ in E. rewrite Q in E.
    discriminate E.
Qed.

Lemma keeps_ownQ_scanShared (n : nat) :
  forall size0, keeps ownQ (scanShared n size0).
Proof.
  induction n as [|n IH]; intros size0; simpl; [apply keeps_ret|].
  apply keeps_bind; [apply keeps_modify; reflexivity|]. intros _.
  apply keeps_bind; [apply keeps_read|]. intros i.
  apply keeps_bind; [apply keeps_getQ|]. intros queue.
  apply keeps_bind; [apply keeps_ownQ_tryDequeue|].
  intros [t|]; [apply keeps_ret|apply IH].
Qed.

Lemma keeps_ownQ_tryDequeueFromShared (fuel : nat) :
  keeps ownQ (tryDequeueFromShared fuel).
Proof.
  induction fuel as [|fuel IH]; simpl.
  - intros p p' a E. discriminate E.
  - apply keeps_bind; [apply keeps_read|]. intros n.
    apply keeps_bind; [apply keeps_ownQ_scanShared|].
    intros [[t|] size1]; [apply keeps_ret|].
    destruct (size1 =? 0); [apply keeps_ret|apply IH].
Qed.

Lemma concat_popped (sh : list IoQueue) :
  forall (i : nat) (q : IoQueue) (t : IoTask) (rest : list IoTask),
    sh !! i = Some q -> _queue q = t :: rest ->
    Permutation (t :: concat (map _queue (<[i := popped rest q]> sh)))
                (concat (map _queue sh)).
Proof.
  induction sh as [|s sh IH]; intros [|i] q t rest H HQ; simpl in *;
    try discriminate.
  - injection H as ->. rewrite HQ. reflexivity.
  - rewrite <- (IH i q t rest H HQ). apply Permutation_middle.
Qed.

(** X21: the load-balanced selection neither loses a task nor hands one
    out twice: the task [grabWorkItemFromAll] returns, if any, together
    with the tasks then pending in the worker's queue and in all the
    shared queues, are the tasks that were pending before the call. *)
Theorem selection_conserves_tasks (fuel : nat) (p p' : Pool)
    (task : option IoTask) :
  grabWorkItemFromAll fuel p = Ok task p' ->
  Permutation (taskList task ++ pending p') (pending p).
Proof.
  intros E. unfold grabWorkItemFromAll in E.
  apply bind_Ok in E as ([] & p0 & M & E). injection M as <-.
  apply bind_Ok in E as (g & p1 & R & E). injection R as <- <-.
  set (p0 := set_grabWorkItemFromAll_grabFromShared _ p) in *.
  change (pending p) with (pending p0). clearbody p0.
  assert (OWN : forall p1 p2 t,
            dequeue This This p1 = Ok t p2 ->
            Permutation (taskList t ++ pending p2) (pending p1)).
  { intros p1 p2 t D. destruct (dequeue_own _ _ _ D) as (-> & O & S).
    unfold pending. rewrite O, S. destruct (ownQ p1); reflexivity. }
  assert (SHARED : forall p1 p2 t,
            tryDequeueFromShared fuel p1 = Ok t p2 ->
            Permutation (taskList t ++ pending p2) (pending p1)).
  { intros p1 p2 t D.
    pose proof (keeps_ownQ_tryDequeueFromShared fuel _ _ _ D) as O.
    apply tryDequeueFromShared_shared in D. unfold pending. rewrite O.
    destruct t as [t|]; simpl.
    - destruct D as (i & q & rest & L & Q & S). rewrite S.
      rewrite Permutation_middle.
      apply Permutation_app_head, (concat_popped _ i q t rest L Q).
    - now rewrite D. }
  destruct (negb (grabWorkItemFromAll_grabFromShared p)).
  - apply bind_Ok in E as (t & p1 & D & E).
    apply SHARED in D. destruct t as [t|].
    + injection E as <- <-. exact D.
    + apply OWN in E. simpl in D. now rewrite E.
  - apply bind_Ok in E as (t & p1 & D & E).
    apply OWN in D. destruct t as [t|].
    + injection E as <- <-. exact D.
    + apply SHARED in E. simpl in D. now rewrite E.
Qed.

Lemma selection_conserves_tasks_witness :
  exists p' : Pool,
    grabWorkItemFromAll 1 threeShared = Ok (Some plainA) p' /\
    Permutation (taskList (Some plainA) ++ pending p') (pending threeShared).
Proof.
  assert (R : exists p', grabWorkItemFromAll 1 threeShared
                         = Ok (Some plainA) p').
  { eexists. vm_compute. reflexivity. }
  destruct R as [p' R]. exists p'. split; [exact R|].
  exact (selection_conserves_tasks 1 threeShared p' (Some plainA) R).
Defined.

(** X22: [grabWorkItem], without load balancing, neither loses a task
    nor hands one out twice, and runs no task itself.  It returns no
    task exactly when the worker's queue and the first shared queue are
    both empty, and it is then, and only then, that it sets the worker's
    [_isEmpty]. *)
Theorem grabWorkItem_result (p : Pool) :
  nonLoadBalanced p ->
  exists (task : option IoTask) (p' : Pool),
    grabWorkItem p = Ok task p' /\
    Permutation (taskList task ++ ownQ p' ++ sharedQ p')
                (ownQ p ++ sharedQ p) /\
    runLog p' = runLog p /\
    (task = None <-> ownQ p = [] /\ sharedQ p = []) /\
    _isEmpty (this p')
    = (if task is None then true else _isEmpty (this p)).
Proof.
  intros NL.
  destruct (grabWorkItem_nonLB p NL) as (task & p' & G & _ & _ & R & _ & C).
  exists task, p'. split; [exact G|]. destruct task as [t|].
  - destruct C as [P E]. repeat split; try assumption; try discriminate.
    intros [HO HS]. rewrite HO, HS in P.
    apply Permutation_length in P. discriminate P.
  - destruct C as (HO & HS & HO' & HS' & E).
    rewrite HO, HS, HO', HS'. repeat split; auto.
Qed.

Lemma grabWorkItem_result_witness :
  exists (task : option IoTask) (p' : Pool),
    grabWorkItem idlePool = Ok task p' /\
    Permutation (taskList task ++ ownQ p' ++ sharedQ p')
                (ownQ idlePool ++ sharedQ idlePool) /\
    runLog p' = runLog idlePool /\
    (task = None <-> ownQ idlePool = [] /\ sharedQ idlePool = []) /\
    _isEmpty (this p')
    = (if task is None then true else _isEmpty (this idlePool)).
Proof.
  exact (grabWorkItem_result idlePool idlePool_nonLoadBalanced).
Defined.
